(** * pysettrie: the set-trie containers of [settrie.py]

    A shallow embedding of [SetTrie] and [SetTrieMap] and the proofs of
    their query operations against brute-force set comparison.

    Set elements are integers ([Z]), as in the test-suite.  A Python [set]
    is a [gset Z]; an arbitrary iterable is a [list Z]; iterating over a
    set [S] is [elements S].  Generators are modelled by the list of the
    values they yield when consumed to the end ([list(...)]).

    The classes are embedded twice.  First as functions on trees
    ([Node], [SetTrieMap.Node]): a method that updates the trie returns the
    updated tree.  The results of the queries are proved on this embedding,
    for the tries built by [add] and [assign] from sets.  Then as
    computations on a store of objects ([Heap]), where [_add] writes and the
    queries do not; the two embeddings of the queries are shown to return
    the same results, and [_add] on the store to build the tree that [_add]
    on trees builds.

    The file ends with the claims about the code (C1 to C10) and with
    further properties of it (X1 to X24). *)

From stdpp Require Import base option list sorting gmap strings pretty.
From Stdlib Require Import ZArith Lia Ascii.

(** ** Nodes *)

(** [SetTrie.Node]: [data] is [None] for the root and a set element for
    every other node; [children] is a [sortedcontainers.SortedList]. *)
Unset Elimination Schemes.
Inductive Node : Type :=
  mkNode (data : option Z) (flag_last : bool) (children : list Node).
Set Elimination Schemes.

Definition data (n : Node) : option Z := let 'mkNode d _ _ := n in d.
Definition flag_last (n : Node) : bool := let 'mkNode _ f _ := n in f.
Definition children (n : Node) : list Node := let 'mkNode _ _ cs := n in cs.

(** [Node(data)]: a fresh node without children. *)
Definition Node_new (d : option Z) : Node := mkNode d false [].

(** Python comparisons between the values held in [data].  [==] is defined
    on every pair of values.  The order comparisons raise [TypeError] when
    one side is [None]; only the root holds [None] and the root is never a
    child nor a probe (see [wf_children_data]), so that case is given the
    value [false] here. *)
Definition py_eq (a b : option Z) : bool := bool_decide (a = b).
Definition py_lt (a b : option Z) : bool :=
  match a, b with Some x, Some y => (x <? y)%Z | _, _ => false end.
Definition py_gt (a b : option Z) : bool := py_lt b a.
Definition py_ge (a b : option Z) : bool :=
  match a, b with Some x, Some y => (y <=? x)%Z | _, _ => false end.

(** [Node.__eq__] and [Node.__lt__] compare the [data] fields. *)
Definition Node_eq (a b : Node) : bool := py_eq (data a) (data b).
Definition Node_lt (a b : Node) : bool := py_lt (data a) (data b).

(** ** The sorted list of children

    [sortedcontainers] is an external package; its two operations used by
    the tries are modelled on a list kept in ascending order. *)

Section SortedList.
Context {A : Type} (lt eq : A → A → bool).

(** [SortedList.add(value)]: insert to the right of the elements that
    are not greater than [value]. *)
Fixpoint SortedList_add (cs : list A) (v : A) : list A :=
  match cs with
  | [] => [v]
  | c :: cs' => if lt v c then v :: cs else c :: SortedList_add cs' v
  end.

(** [SortedList.index(value)]: the position of the first element not
    less than [value] (bisect-left) when that element equals [value];
    [None] stands for [ValueError]. *)
Fixpoint SortedList_index (cs : list A) (v : A) : option nat :=
  match cs with
  | [] => None
  | c :: cs' =>
      if lt c v then S <$> SortedList_index cs' v
      else if eq c v then Some 0%nat else None
  end.
End SortedList.

(** ** SetTrie *)

Record SetTrie : Type := mkSetTrie { root : Node }.

(** [sorted(aset)] *)
Definition sorted (aset : list Z) : list Z := merge_sort Z.le aset.

(** [idx > len(setarr) - 1] *)
Definition exhausted (setarr : list Z) (idx : nat) : bool :=
  bool_decide (Z.of_nat idx > Z.of_nat (length setarr) - 1)%Z.

(** [path.append(node.data)] guarded by [node.data is not None].  The
    list [path] is shared by all frames of one traversal; every frame pops
    what it appended before it returns, so passing the extended list down
    gives each frame the list it sees in Python. *)
Definition path_append (path : list Z) (d : option Z) : list Z :=
  match d with Some k => path ++ [k] | None => path end.

(** [SetTrie._add]: the recursion consumes the iterator [it].  The node is
    updated in place in Python; here the updated node is returned.  A new
    child is inserted before it is filled in Python; as [SortedList.add]
    only looks at [data], inserting the filled child gives the same list. *)
Fixpoint _add (node : Node) (it : list Z) : Node :=
  match it with
  | [] => mkNode (data node) true (children node)
  | d :: it' =>
      match SortedList_index Node_lt Node_eq (children node) (Node_new (Some d)) with
      | Some i =>
          match children node !! i with
          | Some nextnode =>
              mkNode (data node) (flag_last node)
                     (<[i := _add nextnode it']> (children node))
          | None => node
          end
      | None =>
          mkNode (data node) (flag_last node)
                 (SortedList_add Node_lt (children node) (_add (Node_new (Some d)) it'))
      end
  end.

Definition add (t : SetTrie) (aset : list Z) : SetTrie :=
  mkSetTrie (_add (root t) (sorted aset)).

(** [SetTrie.__init__]: an empty root, then [add] for every item. *)
Definition SetTrie_new : SetTrie := mkSetTrie (Node_new None).
Definition SetTrie_init (iterable : list (list Z)) : SetTrie :=
  foldl add SetTrie_new iterable.

(** [SetTrie._contains] *)
Fixpoint _contains (node : Node) (it : list Z) : bool :=
  match it with
  | [] => flag_last node
  | d :: it' =>
      match SortedList_index Node_lt Node_eq (children node) (Node_new (Some d)) with
      | Some i =>
          match children node !! i with
          | Some matchnode => _contains matchnode it'
          | None => false
          end
      | None => false
      end
  end.

Definition contains (t : SetTrie) (aset : list Z) : bool :=
  _contains (root t) (sorted aset).

(** [SetTrie._hassuperset].  [found] is [False] whenever the loop goes on
    to the next child or leaves through the first [break]. *)
Fixpoint _hassuperset (node : Node) (setarr : list Z) (idx : nat) : bool :=
  match node with
  | mkNode _ _ cs =>
      if exhausted setarr idx then true
      else
        (fix loop (cs : list Node) : bool :=
           match cs with
           | [] => false
           | child :: cs' =>
               if py_gt (data child) (Some (setarr !!! idx)) then false
               else
                 let found :=
                   if py_eq (data child) (Some (setarr !!! idx))
                   then _hassuperset child setarr (S idx)
                   else _hassuperset child setarr idx in
                 if found then true else loop cs'
           end) cs
  end.

Definition hassuperset (t : SetTrie) (aset : list Z) : bool :=
  _hassuperset (root t) (sorted aset) 0.

(** [SetTrie._itersupersets]; [yield set(path)] is [list_to_set path]. *)
Fixpoint _itersupersets (node : Node) (setarr : list Z) (idx : nat)
    (path : list Z) : list (gset Z) :=
  match node with
  | mkNode d fl cs =>
      let path := path_append path d in
      (if fl && exhausted setarr idx then [list_to_set path] else []) ++
      (if negb (exhausted setarr idx) then
         (fix loop (cs : list Node) : list (gset Z) :=
            match cs with
            | [] => []
            | child :: cs' =>
                if py_gt (data child) (Some (setarr !!! idx)) then []
                else
                  (if py_eq (data child) (Some (setarr !!! idx))
                   then _itersupersets child setarr (S idx) path
                   else _itersupersets child setarr idx path) ++ loop cs'
            end) cs
       else
         (fix loop (cs : list Node) : list (gset Z) :=
            match cs with
            | [] => []
            | child :: cs' => _itersupersets child setarr idx path ++ loop cs'
            end) cs)
  end.

Definition itersupersets (t : SetTrie) (aset : list Z) : list (gset Z) :=
  _itersupersets (root t) (sorted aset) 0 [].
Definition supersets (t : SetTrie) (aset : list Z) : list (gset Z) :=
  itersupersets t aset.

(** [SetTrie._hassubset].  Both recursive calls pass [idx+1], so the
    function is defined by recursion on the number [k] of elements of
    [setarr] from [idx] on; [_hassubset_eq] gives the equation of the
    source. *)
Fixpoint _hassubset_rec (k : nat) (node : Node) (setarr : list Z) (idx : nat)
    : bool :=
  if flag_last node then true
  else if exhausted setarr idx then false
  else
    match k with
    | O => false
    | S k' =>
        let found :=
          match SortedList_index Node_lt Node_eq (children node)
                  (Node_new (Some (setarr !!! idx))) with
          | Some c =>
              match children node !! c with
              | Some child => _hassubset_rec k' child setarr (S idx)
              | None => false
              end
          | None => false
          end in
        if negb found then _hassubset_rec k' node setarr (S idx) else true
    end.

Definition _hassubset (node : Node) (setarr : list Z) (idx : nat) : bool :=
  _hassubset_rec (length setarr - idx) node setarr idx.

Definition hassubset (t : SetTrie) (aset : list Z) : bool :=
  _hassubset (root t) (sorted aset) 0.

(** [SetTrie._itersubsets].  The loop over the children carries the local
    variable [idx]; the inner [while] returns what it yielded and the value
    of [idx] it stopped at.  [k] counts the elements of [setarr] from [idx]
    on: it is positive whenever [idx < len(setarr)], so the branch [O] is
    never taken. *)
Fixpoint _itersubsets (node : Node) (setarr : list Z) (idx : nat)
    (path : list Z) : list (gset Z) :=
  match node with
  | mkNode d fl cs =>
      let path := path_append path d in
      (if fl then [list_to_set path] else []) ++
      (fix loop (cs : list Node) (idx : nat) : list (gset Z) :=
         match cs with
         | [] => []
         | child :: cs' =>
             if exhausted setarr idx then []
             else if py_eq (data child) (Some (setarr !!! idx))
             then _itersubsets child setarr (S idx) path ++ loop cs' idx
             else
               let '(ys, idx') :=
                 (fix while (k : nat) (idx : nat) : list (gset Z) * nat :=
                    if bool_decide (idx < length setarr)%nat
                       && py_ge (data child) (Some (setarr !!! idx))
                    then
                      if py_eq (data child) (Some (setarr !!! idx))
                      then (_itersubsets child setarr idx path, idx)
                      else
                        match k with
                        | O => ([], idx)
                        | S k' => while k' (S idx)
                        end
                    else ([], idx))
                   (length setarr - S idx)%nat (S idx) in
               ys ++ loop cs' idx'
         end) cs idx
  end.

Definition itersubsets (t : SetTrie) (aset : list Z) : list (gset Z) :=
  _itersubsets (root t) (sorted aset) 0 [].
Definition subsets (t : SetTrie) (aset : list Z) : list (gset Z) :=
  itersubsets t aset.

(** [SetTrie._iter], [__iter__] and [aslist]. *)
Fixpoint _iter (node : Node) (path : list Z) : list (gset Z) :=
  match node with
  | mkNode d fl cs =>
      let path := path_append path d in
      (if fl then [list_to_set path] else []) ++
      (fix loop (cs : list Node) : list (gset Z) :=
         match cs with
         | [] => []
         | child :: cs' => _iter child path ++ loop cs'
         end) cs
  end.

Definition iter (t : SetTrie) : list (gset Z) := _iter (root t) [].
Definition aslist (t : SetTrie) : list (gset Z) := iter t.

(** [str(node.data)] and [repr(node.data)] of a key, an integer, or of
    [None]; the two are the same text for both. *)
Definition py_str (d : option Z) : string :=
  match d with Some x => pretty x | None => "None" end.
Definition py_repr (d : option Z) : string := py_str d.

(** [s.rjust(width, fillchar)]: [s] with copies of [fillchar] put before it
    up to the length [width]; [s] itself when [width] is not greater than
    its length. *)
Definition rjust (s : string) (width : Z) (fillchar : ascii) : string :=
  Nat.iter (Z.to_nat (width - Z.of_nat (String.length s))) (String fillchar) s.

(** [SetTrie._printtree]: the lines written to [stream], one for each call
    of [print].  [tabchr] is a string of one character, as [rjust]
    requires. *)
Fixpoint _printtree (node : Node) (level : nat) (tabchr : ascii)
    (tabsize : Z) : list string :=
  match node with
  | mkNode d fl cs =>
      (rjust (py_str d)
             (Z.of_nat (String.length (py_repr d)) + Z.of_nat level * tabsize)
             tabchr
       +:+ (if fl then "#" else ""))
      :: (fix loop (cs : list Node) : list string :=
            match cs with
            | [] => []
            | child :: cs' =>
                _printtree child (S level) tabchr tabsize ++ loop cs'
            end) cs
  end.

Definition printtree (t : SetTrie) (tabchr : ascii) (tabsize : Z)
    : list string :=
  _printtree (root t) 0 tabchr tabsize.

(** ** SetTrieMap

    The class repeats the code of [SetTrie] with a [value] per node.
    Python values are modelled by [option V], [None] being Python's [None].
    The root is created by [SetTrie.Node()], which has no [value]
    attribute; no method reads [value] before [_assign] has set it together
    with [flag_last], so the root is given the value [None] here. *)
Module SetTrieMap.
Section SetTrieMap.
Context {V : Type}.

Unset Elimination Schemes.
Inductive Node : Type :=
  mkNode (data : option Z) (flag_last : bool) (value : option V)
         (children : list Node).
Set Elimination Schemes.

Definition data (n : Node) : option Z := let 'mkNode d _ _ _ := n in d.
Definition flag_last (n : Node) : bool := let 'mkNode _ f _ _ := n in f.
Definition value (n : Node) : option V := let 'mkNode _ _ v _ := n in v.
Definition children (n : Node) : list Node := let 'mkNode _ _ _ cs := n in cs.

(** [SetTrieMap.Node(data)]: the constructor ignores its [value] argument. *)
Definition Node_new (d : option Z) : Node := mkNode d false None [].

Definition Node_eq (a b : Node) : bool := py_eq (data a) (data b).
Definition Node_lt (a b : Node) : bool := py_lt (data a) (data b).

Record SetTrieMap : Type := mkSetTrieMap { root : Node }.

(** [SetTrieMap._assign] *)
Fixpoint _assign (node : Node) (it : list Z) (val : option V) : Node :=
  match it with
  | [] => mkNode (data node) true val (children node)
  | d :: it' =>
      match SortedList_index Node_lt Node_eq (children node)
              (Node_new (Some d)) with
      | Some i =>
          match children node !! i with
          | Some nextnode =>
              mkNode (data node) (flag_last node) (value node)
                     (<[i := _assign nextnode it' val]> (children node))
          | None => node
          end
      | None =>
          mkNode (data node) (flag_last node) (value node)
                 (SortedList_add Node_lt (children node)
                    (_assign (Node_new (Some d)) it' val))
      end
  end.

Definition assign (t : SetTrieMap) (akey : list Z) (avalue : option V)
    : SetTrieMap :=
  mkSetTrieMap (_assign (root t) (sorted akey) avalue).

(** [SetTrieMap.__init__] *)
Definition SetTrieMap_new : SetTrieMap := mkSetTrieMap (Node_new None).
Definition SetTrieMap_init (iterable : list (list Z * option V)) : SetTrieMap :=
  foldl (λ t kv, assign t kv.1 kv.2) SetTrieMap_new iterable.

(** [SetTrieMap._contains] *)
Fixpoint _contains (node : Node) (it : list Z) : bool :=
  match it with
  | [] => flag_last node
  | d :: it' =>
      match SortedList_index Node_lt Node_eq (children node)
              (Node_new (Some d)) with
      | Some i =>
          match children node !! i with
          | Some matchnode => _contains matchnode it'
          | None => false
          end
      | None => false
      end
  end.

Definition contains (t : SetTrieMap) (keyset : list Z) : bool :=
  _contains (root t) (sorted keyset).

(** [SetTrieMap._get] *)
Fixpoint _get (node : Node) (it : list Z) (default : option V) : option V :=
  match it with
  | [] => if flag_last node then value node else default
  | d :: it' =>
      match SortedList_index Node_lt Node_eq (children node)
              (Node_new (Some d)) with
      | Some i =>
          match children node !! i with
          | Some matchnode => _get matchnode it' default
          | None => default
          end
      | None => default
      end
  end.

Definition get (t : SetTrieMap) (keyset : list Z) (default : option V)
    : option V :=
  _get (root t) (sorted keyset) default.

(** [SetTrieMap._hassuperset] *)
Fixpoint _hassuperset (node : Node) (setarr : list Z) (idx : nat) : bool :=
  match node with
  | mkNode _ _ _ cs =>
      if exhausted setarr idx then true
      else
        (fix loop (cs : list Node) : bool :=
           match cs with
           | [] => false
           | child :: cs' =>
               if py_gt (data child) (Some (setarr !!! idx)) then false
               else
                 let found :=
                   if py_eq (data child) (Some (setarr !!! idx))
                   then _hassuperset child setarr (S idx)
                   else _hassuperset child setarr idx in
                 if found then true else loop cs'
           end) cs
  end.

Definition hassuperset (t : SetTrieMap) (aset : list Z) : bool :=
  _hassuperset (root t) (sorted aset) 0.

(** What the iterators yield, by [mode]: a key set, a value, or a pair. *)
Inductive Item : Type :=
  | ItemKey (k : gset Z)
  | ItemValue (v : option V)
  | ItemPair (k : gset Z) (v : option V).

Definition yield_item (mode : option string) (path : list Z)
    (node_value : option V) : Item :=
  if decide (mode = Some "keys") then ItemKey (list_to_set path)
  else if decide (mode = Some "values") then ItemValue node_value
  else ItemPair (list_to_set path) node_value.

(** [SetTrieMap._iter] *)
Fixpoint _iter (node : Node) (path : list Z) (mode : option string)
    : list Item :=
  match node with
  | mkNode d fl v cs =>
      let path := path_append path d in
      (if fl then [yield_item mode path v] else []) ++
      (fix loop (cs : list Node) : list Item :=
         match cs with
         | [] => []
         | child :: cs' => _iter child path mode ++ loop cs'
         end) cs
  end.

Definition iter (t : SetTrieMap) (mode : option string) : list Item :=
  _iter (root t) [] mode.
Definition keys (t : SetTrieMap) : list Item := iter t (Some "keys").
Definition values (t : SetTrieMap) : list Item := iter t (Some "values").
Definition items (t : SetTrieMap) : list Item := iter t None.
Definition aslist (t : SetTrieMap) : list Item := iter t None.

(** [SetTrieMap._itersupersets] *)
Fixpoint _itersupersets (node : Node) (setarr : list Z) (idx : nat)
    (path : list Z) (mode : option string) : list Item :=
  match node with
  | mkNode d fl v cs =>
      let path := path_append path d in
      (if fl && exhausted setarr idx then [yield_item mode path v] else []) ++
      (if negb (exhausted setarr idx) then
         (fix loop (cs : list Node) : list Item :=
            match cs with
            | [] => []
            | child :: cs' =>
                if py_gt (data child) (Some (setarr !!! idx)) then []
                else
                  (if py_eq (data child) (Some (setarr !!! idx))
                   then _itersupersets child setarr (S idx) path mode
                   else _itersupersets child setarr idx path mode) ++ loop cs'
            end) cs
       else
         (fix loop (cs : list Node) : list Item :=
            match cs with
            | [] => []
            | child :: cs' =>
                _itersupersets child setarr idx path mode ++ loop cs'
            end) cs)
  end.

Definition itersupersets (t : SetTrieMap) (aset : list Z)
    (mode : option string) : list Item :=
  _itersupersets (root t) (sorted aset) 0 [] mode.
Definition supersets (t : SetTrieMap) (aset : list Z)
    (mode : option string) : list Item :=
  itersupersets t aset mode.

(** [SetTrieMap._hassubset], by recursion on the number [k] of elements of
    [setarr] from [idx] on, as [SetTrie._hassubset]. *)
Fixpoint _hassubset_rec (k : nat) (node : Node) (setarr : list Z) (idx : nat)
    : bool :=
  if flag_last node then true
  else if exhausted setarr idx then false
  else
    match k with
    | O => false
    | S k' =>
        let found :=
          match SortedList_index Node_lt Node_eq (children node)
                  (Node_new (Some (setarr !!! idx))) with
          | Some c =>
              match children node !! c with
              | Some child => _hassubset_rec k' child setarr (S idx)
              | None => false
              end
          | None => false
          end in
        if negb found then _hassubset_rec k' node setarr (S idx) else true
    end.

Definition _hassubset (node : Node) (setarr : list Z) (idx : nat) : bool :=
  _hassubset_rec (length setarr - idx) node setarr idx.

Definition hassubset (t : SetTrieMap) (aset : list Z) : bool :=
  _hassubset (root t) (sorted aset) 0.

(** [SetTrieMap._itersubsets], with the cursor [idx] of the loop and the
    inner [while] as in [SetTrie._itersubsets]. *)
Fixpoint _itersubsets (node : Node) (setarr : list Z) (idx : nat)
    (path : list Z) (mode : option string) : list Item :=
  match node with
  | mkNode d fl v cs =>
      let path := path_append path d in
      (if fl then [yield_item mode path v] else []) ++
      (fix loop (cs : list Node) (idx : nat) : list Item :=
         match cs with
         | [] => []
         | child :: cs' =>
             if exhausted setarr idx then []
             else if py_eq (data child) (Some (setarr !!! idx))
             then _itersubsets child setarr (S idx) path mode ++ loop cs' idx
             else
               let '(ys, idx') :=
                 (fix while (k : nat) (idx : nat) : list Item * nat :=
                    if bool_decide (idx < length setarr)%nat
                       && py_ge (data child) (Some (setarr !!! idx))
                    then
                      if py_eq (data child) (Some (setarr !!! idx))
                      then (_itersubsets child setarr idx path mode, idx)
                      else
                        match k with
                        | O => ([], idx)
                        | S k' => while k' (S idx)
                        end
                    else ([], idx))
                   (length setarr - S idx)%nat (S idx) in
               ys ++ loop cs' idx'
         end) cs idx
  end.

Definition itersubsets (t : SetTrieMap) (aset : list Z)
    (mode : option string) : list Item :=
  _itersubsets (root t) (sorted aset) 0 [] mode.
Definition subsets (t : SetTrieMap) (aset : list Z)
    (mode : option string) : list Item :=
  itersubsets t aset mode.

End SetTrieMap.
Arguments Node : clear implicits.
Arguments SetTrieMap : clear implicits.
Arguments Item : clear implicits.
End SetTrieMap.

(** The trie of the keys of a map: the nodes without their values. *)
Fixpoint erase {V} (n : SetTrieMap.Node V) : Node :=
  match n with
  | SetTrieMap.mkNode d fl _ cs =>
      mkNode d fl
        ((fix go (cs : list (SetTrieMap.Node V)) : list Node :=
            match cs with
            | [] => []
            | c :: cs' => erase c :: go cs'
            end) cs)
  end.

(** The fixture of the test-suite. *)
Definition fixture : SetTrie :=
  SetTrie_init [[1;3]; [1;3;5]; [1;4]; [1;2;4]; [2;4]; [2;3;5]]%Z.

(** ** What a trie stores *)

Definition opt_cons (d : option Z) (w : list Z) : list Z :=
  match d with Some k => k :: w | None => w end.

(** [words n]: the element sequences spelled by the paths from [n] (its own
    [data] left out) to the nodes below it that have [flag_last] set, in
    pre-order. *)
Fixpoint words (n : Node) : list (list Z) :=
  match n with
  | mkNode _ fl cs =>
      (if fl then [[]] else []) ++
      (fix go (cs : list Node) : list (list Z) :=
         match cs with
         | [] => []
         | c :: cs' => (opt_cons (data c) <$> words c) ++ go cs'
         end) cs
  end.

Definition kwords (c : Node) : list (list Z) := opt_cons (data c) <$> words c.
Definition cwords (cs : list Node) : list (list Z) := cs ≫= kwords.

(** The sets stored in a trie, as ascending sequences. *)
Definition stored (t : SetTrie) : list (list Z) := words (root t).

(** The last character of a line. *)
Fixpoint last_char (s : string) : option ascii :=
  match s with
  | EmptyString => None
  | String c EmptyString => Some c
  | String _ s' => last_char s'
  end.

(** A printed line that ends with the mark of [flag_last]. *)
Definition marked (line : string) : bool :=
  bool_decide (last_char line = Some "#"%char).

(** The number of nodes on the longest path down from a node: the depth
    that the recursion of a traversal reaches below it. *)
Fixpoint depth (n : Node) : nat :=
  match n with
  | mkNode _ _ cs =>
      S ((fix go (cs : list Node) : nat :=
            match cs with
            | [] => O
            | c :: cs' => Nat.max (depth c) (go cs')
            end) cs)
  end.

(** ** The invariant of the tries built by [add] from sets *)

(** [olt a b]: the key [b] of a child lies strictly above [a], where [a] is
    the key of its parent or of an earlier sibling; the root's [None] is
    below every key, and a child never holds [None]. *)
Definition olt (a b : option Z) : Prop :=
  match b with
  | Some y => match a with Some x => (x < y)%Z | None => True end
  | None => False
  end.

(** A node that ends a stored set or leads to one. *)
Definition live (n : Node) : Prop := flag_last n = true ∨ children n ≠ [].

Fixpoint wf (n : Node) : Prop :=
  match n with
  | mkNode d _ cs =>
      StronglySorted olt (d :: (data <$> cs)) ∧
      (fix all (cs : list Node) : Prop :=
         match cs with
         | [] => True
         | c :: cs' => (wf c ∧ live c) ∧ all cs'
         end) cs
  end.

Definition wf_trie (t : SetTrie) : Prop := data (root t) = None ∧ wf (root t).

(** The key of a child is below, or above, the element [x]. *)
Definition kbelow (k : option Z) (x : Z) : Prop :=
  match k with Some y => (y < x)%Z | None => False end.
Definition kabove (k : option Z) (x : Z) : Prop :=
  match k with Some y => (x < y)%Z | None => False end.
Definition key_lt (c : Node) (x : Z) : Prop := kbelow (data c) x.
Definition key_gt (c : Node) (x : Z) : Prop := kabove (data c) x.

(** Strictly ascending sequences, and the sequences above a key. *)
Definition ascending (l : list Z) : Prop := StronglySorted Z.lt l.
Definition above (d : option Z) (l : list Z) : Prop :=
  Forall (λ x, olt d (Some x)) l.

(** Lexicographic order on element sequences. *)
Fixpoint lex_lt (a b : list Z) : Prop :=
  match a, b with
  | _, [] => False
  | [], _ :: _ => True
  | x :: a', y :: b' => (x < y)%Z ∨ (x = y ∧ lex_lt a' b')
  end.

(** The trie of the keys of a map, as a [SetTrie]. *)
Definition key_trie {V} (m : SetTrieMap.SetTrieMap V) : SetTrie :=
  mkSetTrie (erase (SetTrieMap.root m)).

(** [mwords n]: the sequences of [words], each with the [value] of the node
    that ends it. *)
Fixpoint mwords {V} (n : SetTrieMap.Node V) : list (list Z * option V) :=
  match n with
  | SetTrieMap.mkNode _ fl v cs =>
      (if fl then [([], v)] else []) ++
      (fix go (cs : list (SetTrieMap.Node V)) : list (list Z * option V) :=
         match cs with
         | [] => []
         | c :: cs' =>
             (prod_map (opt_cons (SetTrieMap.data c)) id <$> mwords c) ++ go cs'
         end) cs
  end.

Definition kmwords {V} (c : SetTrieMap.Node V) : list (list Z * option V) :=
  prod_map (opt_cons (SetTrieMap.data c)) id <$> mwords c.
Definition cmwords {V} (cs : list (SetTrieMap.Node V))
    : list (list Z * option V) :=
  cs ≫= kmwords.

(** What an item yielded in the mode of pairs becomes in another mode. *)
Definition item_project {V} (mode : option string) (x : SetTrieMap.Item V)
    : SetTrieMap.Item V :=
  match x with
  | SetTrieMap.ItemPair k v =>
      if decide (mode = Some "keys") then SetTrieMap.ItemKey k
      else if decide (mode = Some "values") then SetTrieMap.ItemValue v
      else SetTrieMap.ItemPair k v
  | _ => x
  end.

(** The key set of an item that holds one. *)
Definition key_of {V} (x : SetTrieMap.Item V) : gset Z :=
  match x with
  | SetTrieMap.ItemKey k | SetTrieMap.ItemPair k _ => k
  | SetTrieMap.ItemValue _ => ∅
  end.

(** ** The tries as Python objects

    The nodes are objects in a store and the children of a node are
    references to objects.  A computation takes the store and returns its
    result, [None] for a raised exception or for recursion deeper than
    [fuel], and the store it leaves.  [_add] writes to the store; the
    queries are transcribed with the same primitives. *)
Module Heap.
Section Heap.
Context {V : Type}.

Record Obj : Type := mkObj {
  obj_data : option Z;
  obj_flag_last : bool;
  obj_value : option V;
  obj_children : list positive
}.

Definition M (A : Type) : Type := gmap positive Obj → option A * gmap positive Obj.

Definition ret {A} (a : A) : M A := λ σ, (Some a, σ).
Definition bind {A B} (c : M A) (k : A → M B) : M B :=
  λ σ, match c σ with
       | (Some a, σ') => k a σ'
       | (None, σ') => (None, σ')
       end.
Definition raise {A} : M A := λ σ, (None, σ).

(** Reading an attribute of an object, creating an object, assigning to
    the attributes of an object. *)
Definition load (l : positive) : M Obj := λ σ, (σ !! l, σ).
Definition new (o : Obj) : M positive :=
  λ σ, let l := fresh (dom σ) in (Some l, <[l := o]> σ).
Definition store (l : positive) (o : Obj) : M unit :=
  λ σ, (Some tt, <[l := o]> σ).

Notation "'let*' x := c 'in' k" := (bind c (λ x, k))
  (at level 10, x name, c at level 100, k at level 200, only parsing).

(** [Node(data)] *)
Definition Node (d : option Z) : M positive := new (mkObj d false None []).

(** [SortedList.index] and [SortedList.add] compare the nodes through
    [Node.__lt__] and [Node.__eq__], which read [data]. *)
Fixpoint SortedList_index (ls : list positive) (probe : positive)
    : M (option nat) :=
  match ls with
  | [] => ret None
  | l :: ls' =>
      let* c := load l in
      let* p := load probe in
      if py_lt (obj_data c) (obj_data p)
      then let* r := SortedList_index ls' probe in ret (S <$> r)
      else if py_eq (obj_data c) (obj_data p) then ret (Some 0%nat)
      else ret None
  end.

Fixpoint SortedList_add (ls : list positive) (v : positive)
    : M (list positive) :=
  match ls with
  | [] => ret [v]
  | l :: ls' =>
      let* p := load v in
      let* c := load l in
      if py_lt (obj_data p) (obj_data c) then ret (v :: ls)
      else let* r := SortedList_add ls' v in ret (l :: r)
  end.

(** [SetTrie._add]: the node and its list of children are updated in
    place. *)
Fixpoint _add (node : positive) (it : list Z) : M unit :=
  match it with
  | [] =>
      let* o := load node in
      store node (mkObj (obj_data o) true (obj_value o) (obj_children o))
  | d :: it' =>
      let* o := load node in
      let* probe := Node (Some d) in
      let* r := SortedList_index (obj_children o) probe in
      match r with
      | Some i =>
          match obj_children o !! i with
          | Some nextnode => _add nextnode it'
          | None => raise
          end
      | None =>
          let* nextnode := Node (Some d) in
          let* cs := SortedList_add (obj_children o) nextnode in
          let* _ := store node
                (mkObj (obj_data o) (obj_flag_last o) (obj_value o) cs) in
          _add nextnode it'
      end
  end.

(** [SetTrie._contains] *)
Fixpoint _contains (node : positive) (it : list Z) : M bool :=
  match it with
  | [] => let* o := load node in ret (obj_flag_last o)
  | d :: it' =>
      let* o := load node in
      let* probe := Node (Some d) in
      let* r := SortedList_index (obj_children o) probe in
      match r with
      | Some i =>
          match obj_children o !! i with
          | Some matchnode => _contains matchnode it'
          | None => ret false
          end
      | None => ret false
      end
  end.

(** [SetTrieMap._get] *)
Fixpoint _get (node : positive) (it : list Z) (default : option V)
    : M (option V) :=
  match it with
  | [] =>
      let* o := load node in
      ret (if obj_flag_last o then obj_value o else default)
  | d :: it' =>
      let* o := load node in
      let* probe := Node (Some d) in
      let* r := SortedList_index (obj_children o) probe in
      match r with
      | Some i =>
          match obj_children o !! i with
          | Some matchnode => _get matchnode it' default
          | None => ret default
          end
      | None => ret default
      end
  end.

(** [SetTrie._hassuperset] *)
Fixpoint _hassuperset (fuel : nat) (node : positive) (setarr : list Z)
    (idx : nat) : M bool :=
  match fuel with
  | O => raise
  | S fuel' =>
      if exhausted setarr idx then ret true
      else
        let* o := load node in
        (fix loop (ls : list positive) : M bool :=
           match ls with
           | [] => ret false
           | child :: ls' =>
               let* c := load child in
               if py_gt (obj_data c) (Some (setarr !!! idx)) then ret false
               else
                 let* found := (if py_eq (obj_data c) (Some (setarr !!! idx))
                          then _hassuperset fuel' child setarr (S idx)
                          else _hassuperset fuel' child setarr idx) in
                 if found then ret true else loop ls'
           end) (obj_children o)
  end.

(** [SetTrie._itersupersets] *)
Fixpoint _itersupersets (fuel : nat) (node : positive) (setarr : list Z)
    (idx : nat) (path : list Z) : M (list (gset Z)) :=
  match fuel with
  | O => raise
  | S fuel' =>
      let* o := load node in
      let path := path_append path (obj_data o) in
      let* ys := (if negb (exhausted setarr idx) then
              (fix loop (ls : list positive) : M (list (gset Z)) :=
                 match ls with
                 | [] => ret []
                 | child :: ls' =>
                     let* c := load child in
                     if py_gt (obj_data c) (Some (setarr !!! idx)) then ret []
                     else
                       let* ys1 := (if py_eq (obj_data c) (Some (setarr !!! idx))
                              then _itersupersets fuel' child setarr (S idx) path
                              else _itersupersets fuel' child setarr idx path) in
                       let* ys2 := loop ls' in
                       ret (ys1 ++ ys2)
                 end) (obj_children o)
            else
              (fix loop (ls : list positive) : M (list (gset Z)) :=
                 match ls with
                 | [] => ret []
                 | child :: ls' =>
                     let* ys1 := _itersupersets fuel' child setarr idx path in
                     let* ys2 := loop ls' in
                     ret (ys1 ++ ys2)
                 end) (obj_children o)) in
      ret ((if obj_flag_last o && exhausted setarr idx
            then [list_to_set path] else []) ++ ys)
  end.

(** [SetTrie._hassubset] *)
Fixpoint _hassubset_rec (k : nat) (node : positive) (setarr : list Z)
    (idx : nat) : M bool :=
  let* o := load node in
  if obj_flag_last o then ret true
  else if exhausted setarr idx then ret false
  else
    match k with
    | O => ret false
    | S k' =>
        let* found := (let* probe := Node (Some (setarr !!! idx)) in
                 let* r := SortedList_index (obj_children o) probe in
                 match r with
                 | Some c =>
                     match obj_children o !! c with
                     | Some child => _hassubset_rec k' child setarr (S idx)
                     | None => ret false
                     end
                 | None => ret false
                 end) in
        if negb found then _hassubset_rec k' node setarr (S idx) else ret true
    end.

Definition _hassubset (node : positive) (setarr : list Z) (idx : nat)
    : M bool :=
  _hassubset_rec (length setarr - idx) node setarr idx.

(** [SetTrie._itersubsets] *)
Fixpoint _itersubsets (fuel : nat) (node : positive) (setarr : list Z)
    (idx : nat) (path : list Z) : M (list (gset Z)) :=
  match fuel with
  | O => raise
  | S fuel' =>
      let* o := load node in
      let path := path_append path (obj_data o) in
      let* ys := (fix loop (ls : list positive) (idx : nat) : M (list (gset Z)) :=
              match ls with
              | [] => ret []
              | child :: ls' =>
                  if exhausted setarr idx then ret []
                  else
                    let* c := load child in
                    if py_eq (obj_data c) (Some (setarr !!! idx)) then
                      let* ys1 := _itersubsets fuel' child setarr (S idx) path in
                      let* ys2 := loop ls' idx in
                      ret (ys1 ++ ys2)
                    else
                      let* r := (fix while (k : nat) (idx : nat)
                               : M (list (gset Z) * nat) :=
                             if bool_decide (idx < length setarr)%nat
                                && py_ge (obj_data c) (Some (setarr !!! idx))
                             then
                               if py_eq (obj_data c) (Some (setarr !!! idx))
                               then
                                 let* ys := _itersubsets fuel' child setarr idx path in
                                 ret (ys, idx)
                               else
                                 match k with
                                 | O => ret ([], idx)
                                 | S k' => while k' (S idx)
                                 end
                             else ret ([], idx))
                            (length setarr - S idx)%nat (S idx) in
                      let* ys2 := loop ls' r.2 in
                      ret (r.1 ++ ys2)
              end) (obj_children o) idx in
      ret ((if obj_flag_last o then [list_to_set path] else []) ++ ys)
  end.

(** [SetTrie._iter] *)
Fixpoint _iter (fuel : nat) (node : positive) (path : list Z)
    : M (list (gset Z)) :=
  match fuel with
  | O => raise
  | S fuel' =>
      let* o := load node in
      let path := path_append path (obj_data o) in
      let* ys := (fix loop (ls : list positive) : M (list (gset Z)) :=
              match ls with
              | [] => ret []
              | child :: ls' =>
                  let* ys1 := _iter fuel' child path in
                  let* ys2 := loop ls' in
                  ret (ys1 ++ ys2)
              end) (obj_children o) in
      ret ((if obj_flag_last o then [list_to_set path] else []) ++ ys)
  end.

(** [SetTrie.add] and [SetTrie.__init__]: the root is a new object and
    every set of the iterable is added to it in place. *)
Definition add (root : positive) (aset : list Z) : M unit :=
  _add root (sorted aset).

Fixpoint add_all (root : positive) (iterable : list (list Z)) : M unit :=
  match iterable with
  | [] => ret tt
  | s :: rest => let* _ := add root s in add_all root rest
  end.

Definition SetTrie_init (iterable : list (list Z)) : M positive :=
  let* root := Node None in
  let* _ := add_all root iterable in
  ret root.

(** A computation that leaves every object of the store it starts from as
    it was: same [data], [flag_last], [value] and [children]. *)
Definition preserves {A} (c : M A) : Prop := ∀ σ, σ ⊆ (c σ).2.

(** [repr σ l n]: the object at [l] and the objects below it hold the
    tree [n]. *)
Fixpoint repr (σ : gmap positive Obj) (l : positive) (n : SetTrieMap.Node V)
    {struct n} : Prop :=
  match n with
  | SetTrieMap.mkNode d fl v cs =>
      ∃ ls, σ !! l = Some (mkObj d fl v ls) ∧
        (fix all (ls : list positive) (cs : list (SetTrieMap.Node V))
             {struct cs} : Prop :=
           match ls, cs with
           | [], [] => True
           | l' :: ls', c :: cs' => repr σ l' c ∧ all ls' cs'
           | _, _ => False
           end) ls cs
  end.

(** The number of nodes on the longest path down from a node. *)
Fixpoint height (n : SetTrieMap.Node V) : nat :=
  match n with
  | SetTrieMap.mkNode _ _ _ cs =>
      S ((fix go (cs : list (SetTrieMap.Node V)) : nat :=
            match cs with
            | [] => O
            | c :: cs' => Nat.max (height c) (go cs')
            end) cs)
  end.

(** [tree σ l n X]: the object at [l] and the objects below it hold the
    tree [n], and [X] lists their references, [l] first and then those of
    the children in their order.  No object is shared in the tree when [X]
    has no duplicates. *)
Fixpoint tree (σ : gmap positive Obj) (l : positive)
    (n : SetTrieMap.Node V) (X : list positive) {struct n} : Prop :=
  match n with
  | SetTrieMap.mkNode d fl v cs =>
      ∃ ls Xs, σ !! l = Some (mkObj d fl v ls) ∧ X = l :: concat Xs ∧
        (fix all (ls : list positive) (cs : list (SetTrieMap.Node V))
             (Xs : list (list positive)) {struct cs} : Prop :=
           match ls, cs, Xs with
           | [], [], [] => True
           | l' :: ls', c :: cs', X' :: Xs' => tree σ l' c X' ∧ all ls' cs' Xs'
           | _, _, _ => False
           end) ls cs Xs
  end.

End Heap.
Arguments Obj : clear implicits.
Arguments M : clear implicits.
End Heap.

(** * Proofs *)

(** ** Induction on nodes *)

Lemma Node_ind (P : Node → Prop) :
  (∀ d fl cs, Forall P cs → P (mkNode d fl cs)) → ∀ n, P n.
Proof.
  intros H. fix IH 1. intros [d fl cs]. apply H.
  induction cs as [|c cs IHcs]; constructor; [apply IH | apply IHcs].
Qed.

(** ** The test-suite on the embedding

    The assertions of [TestSetTrie] evaluated on the fixture.  Those of
    [test_iter], [test_aslist], [test_contains], [test_hassuperset] (on the
    fixture), [test_supersets] and [test_hassubset] hold. *)

Example fixture_aslist :
  aslist fixture
  = [{[1;2;4]}; {[1;3]}; {[1;3;5]}; {[1;4]}; {[2;3;5]}; {[2;4]}]%Z.
Proof. vm_compute. reflexivity. Qed.

Example test_contains :
  contains fixture <$> [[1;3]; [1]; [1;3;5]; [1;3;5;7]]%Z
  = [true; false; true; false].
Proof. vm_compute. reflexivity. Qed.

Example test_hassuperset :
  hassuperset fixture <$> [[3;5]; [6]; [1;2;4]; [2;4;5]]%Z
  = [true; false; true; false].
Proof. vm_compute. reflexivity. Qed.

Example test_supersets :
  supersets fixture <$> [[3;5]; [1;4]; [1;3;5]; [2]; [1]; [1;2;5]; [1;2;4;5]; [6]]%Z
  = [ [{[1;3;5]}; {[2;3;5]}];
      [{[1;2;4]}; {[1;4]}];
      [{[1;3;5]}];
      [{[1;2;4]}; {[2;3;5]}; {[2;4]}];
      [{[1;2;4]}; {[1;3]}; {[1;3;5]}; {[1;4]}];
      []; []; [] ]%Z.
Proof. vm_compute. reflexivity. Qed.

Example test_hassubset :
  hassubset fixture
    <$> [[1;2;3]; [2;3;4;5]; [1;4]; [2;3;5]; [3;4;5]; [6;7;8;9;1000]]%Z
  = [true; true; true; true; false; false].
Proof. vm_compute. reflexivity. Qed.

(** Of the twelve assertions of [test_subsets] six hold; for the queries
    [{1,4}], [{1,3,5}], [{1,3,5,111}], [{1,4,8}], [{2,3,4,5}] and
    [{2,3,5,6}] the test expects [[{1,4}]], [[{1,3},{1,3,5}]],
    [[{1,3},{1,3,5}]], [[{1,4}]], [[{2,3,5},{2,4}]] and [[{2,3,5}]], and
    [subsets] returns the empty list. *)
Example test_subsets :
  subsets fixture
    <$> [[1;2;4;11]; [1;2;4]; [1;2]; [1;2;3;4;5]; [0;1;3;5]; [1;2;5];
         [1;4]; [1;3;5]; [1;3;5;111]; [1;4;8]; [2;3;4;5]; [2;3;5;6]]%Z
  = [ [{[1;2;4]}; {[1;4]}; {[2;4]}];
      [{[1;2;4]}; {[1;4]}; {[2;4]}];
      [];
      [{[1;2;4]}; {[1;3]}; {[1;3;5]}; {[1;4]}; {[2;3;5]}; {[2;4]}];
      [{[1;3]}; {[1;3;5]}];
      [];
      []; []; []; []; []; [] ]%Z.
Proof. vm_compute. reflexivity. Qed.

(** The fixture as objects: the store that [_add] builds from an empty
    root at reference [1], and queries on it. *)
Example heap_fixture :
  let σ0 : gmap positive (Heap.Obj unit) :=
    {[1%positive := Heap.mkObj None false None []]} in
  let σ := foldl (λ σ s, (Heap._add 1%positive (sorted s) σ).2) σ0
             [[1;3]; [1;3;5]; [1;4]; [1;2;4]; [2;4]; [2;3;5]]%Z in
  Heap._iter 4 1%positive [] σ = (Some (aslist fixture), σ) ∧
  Heap._itersupersets 4 1%positive [3;5]%Z 0 [] σ
  = (Some (supersets fixture [3;5]%Z), σ) ∧
  Heap._itersubsets 4 1%positive [1;4;8]%Z 0 [] σ = (Some [], σ) ∧
  (Heap._contains 1%positive [1;4]%Z σ).1 = Some true ∧
  (Heap._hassubset 1%positive [1;4;8]%Z 0 σ).1 = Some true ∧
  (Heap._hassuperset 4 1%positive [2;4;5]%Z 0 σ).1 = Some false.
Proof. vm_compute. repeat split. Qed.

Lemma words_eq d fl cs :
  words (mkNode d fl cs) = (if fl then [[]] else []) ++ cwords cs.
Proof. reflexivity. Qed.

Lemma cwords_cons c cs : cwords (c :: cs) = kwords c ++ cwords cs.
Proof. done. Qed.

Lemma cwords_app cs1 cs2 : cwords (cs1 ++ cs2) = cwords cs1 ++ cwords cs2.
Proof. unfold cwords. apply bind_app. Qed.

Lemma wf_eq d fl cs :
  wf (mkNode d fl cs) ↔
    Forall (olt d) (data <$> cs) ∧ StronglySorted olt (data <$> cs) ∧
    Forall wf cs ∧ Forall live cs.
Proof.
  simpl. rewrite StronglySorted_cons.
  assert ((fix all (cs : list Node) : Prop :=
             match cs with
             | [] => True
             | c :: cs' => (wf c ∧ live c) ∧ all cs'
             end) cs ↔ Forall wf cs ∧ Forall live cs) as ->.
  { induction cs as [|c cs IH]; [by split; [split; constructor|]|].
    rewrite IH, !Forall_cons. tauto. }
  tauto.
Qed.

Lemma path_append_app path d w :
  path_append path d ++ w = path ++ opt_cons d w.
Proof. destruct d; simpl; [by rewrite <-app_assoc|done]. Qed.

(** [_iter] enumerates [words]. *)
Lemma _iter_words n path :
  _iter n path = (λ w, list_to_set (path_append path (data n) ++ w)) <$> words n.
Proof.
  revert path. induction n as [d fl cs IH] using Node_ind. intros path.
  rewrite words_eq, fmap_app. simpl. f_equal.
  { destruct fl; simpl; [by rewrite app_nil_r|done]. }
  generalize (path_append path d). intros p.
  induction IH as [|c cs Hc _ IHcs]; [done|].
  rewrite cwords_cons, fmap_app, <-IHcs, Hc. f_equal.
  unfold kwords. rewrite <-list_fmap_compose. apply list_fmap_ext.
  intros _ w _. simpl. by rewrite path_append_app.
Qed.

(** ** The sorted list of children of a well-formed node *)

Lemma olt_Some d k : olt d (Some k) ↔ match d with Some x => (x < k)%Z | None => True end.
Proof. done. Qed.

Lemma olt_is_Some a b : olt a b → is_Some b.
Proof. destruct b; [eauto|done]. Qed.

Global Instance olt_trans : Transitive olt.
Proof. intros [x|] [y|] [z|]; simpl; try done. lia. Qed.

(** Where the key [x] is, or belongs, in a sorted list of nodes of either
    class, compared through their [data] as [Node.__lt__] and [Node.__eq__]
    do. *)
Section locate.
Context {A : Type} (key : A → option Z).
Let nlt (a b : A) : bool := py_lt (key a) (key b).
Let neq (a b : A) : bool := py_eq (key a) (key b).

Lemma locate_gen d (cs : list A) x (probe : A) :
  key probe = Some x →
  Forall (olt d) (key <$> cs) → StronglySorted olt (key <$> cs) →
  ∃ l1 l2,
    Forall (λ c, kbelow (key c) x) l1 ∧
    Forall (λ c, kabove (key c) x) l2 ∧
    ((∃ c0, key c0 = Some x ∧ cs = l1 ++ c0 :: l2 ∧
            SortedList_index nlt neq cs probe = Some (length l1)) ∨
     (cs = l1 ++ l2 ∧
      SortedList_index nlt neq cs probe = None ∧
      ∀ v, key v = Some x → SortedList_add nlt cs v = l1 ++ v :: l2)).
Proof.
  intros Hp. induction cs as [|c cs IH]; intros Hd Hs.
  { exists [], []. split; [constructor|]. split; [constructor|]. right. done. }
  rewrite fmap_cons in Hd, Hs.
  apply Forall_cons in Hd as [Hc Hd]. apply StronglySorted_cons in Hs as [Hcs Hs].
  destruct (olt_is_Some _ _ Hc) as [k Hk].
  destruct (Z.lt_total k x) as [Hlt|[->|Hgt]].
  - destruct (IH Hd Hs) as (l1 & l2 & Hl1 & Hl2 & Hcase).
    exists (c :: l1), l2. repeat split; [|done|].
    { constructor; [unfold kbelow; by rewrite Hk|done]. }
    assert (nlt c probe = true) as Hlt'.
    { unfold nlt. rewrite Hk, Hp. simpl. by apply Z.ltb_lt. }
    destruct Hcase as [(c0 & Hc0 & -> & Hi)|(-> & Hi & Hadd)]; [left|right].
    + exists c0. repeat split; [done|]. simpl. by rewrite Hlt', Hi.
    + repeat split; [simpl; by rewrite Hlt', Hi|].
      intros v Hv. simpl. rewrite (Hadd v Hv).
      unfold nlt. rewrite Hv, Hk. simpl.
      by destruct (Z.ltb_spec x k); [lia|].
  - exists [], cs. repeat split; [by constructor| |].
    { rewrite Forall_fmap in Hcs. eapply Forall_impl; [exact Hcs|].
      intros c' Hc'. simpl in Hc'. rewrite Hk in Hc'. unfold kabove.
      by destruct (key c'). }
    left. exists c. repeat split; [done|]. simpl.
    unfold nlt, neq, py_eq. rewrite Hk, Hp. simpl.
    rewrite Z.ltb_irrefl. by rewrite bool_decide_eq_true_2.
  - exists [], (c :: cs). repeat split; [by constructor| |].
    { constructor; [unfold kabove; by rewrite Hk|].
      rewrite Forall_fmap in Hcs. eapply Forall_impl; [exact Hcs|].
      intros c' Hc'. simpl in Hc'. rewrite Hk in Hc'. unfold kabove.
      destruct (key c'); simpl in *; [lia|done]. }
    right. repeat split.
    + simpl. unfold nlt, neq, py_eq. rewrite Hk, Hp. simpl.
      destruct (Z.ltb_spec k x); [lia|].
      rewrite bool_decide_eq_false_2; [done|]. intros [=]. lia.
    + intros v Hv. simpl. unfold nlt. rewrite Hv, Hk. simpl.
      by destruct (Z.ltb_spec x k); [|lia].
Qed.

(** The node with key [x] is found between smaller and other nodes. *)
Lemma index_middle (l1 l2 : list A) c x probe :
  key probe = Some x → key c = Some x →
  Forall (λ c, kbelow (key c) x) l1 →
  SortedList_index nlt neq (l1 ++ c :: l2) probe = Some (length l1).
Proof.
  intros Hp Hc. induction 1 as [|a l1 Ha _ IH]; simpl.
  - unfold nlt, neq, py_eq. rewrite Hc, Hp. simpl.
    rewrite Z.ltb_irrefl. by rewrite bool_decide_eq_true_2.
  - unfold kbelow in Ha. destruct (key a) as [k|] eqn:Hk; [|done].
    assert (nlt a probe = true) as ->.
    { unfold nlt. rewrite Hk, Hp. simpl. by apply Z.ltb_lt. }
    by rewrite IH.
Qed.
End locate.

(** Where the key [x] is, or belongs, among sorted children: [c0] is the
    child with key [x], or the fresh node that [_add] inserts. *)
Lemma locate d cs x :
  Forall (olt d) (data <$> cs) → StronglySorted olt (data <$> cs) →
  ∃ l1 c0 l2,
    data c0 = Some x ∧
    Forall (λ c, key_lt c x) l1 ∧
    Forall (λ c, key_gt c x) l2 ∧
    ((cs = l1 ++ c0 :: l2 ∧
      SortedList_index Node_lt Node_eq cs (Node_new (Some x)) = Some (length l1)) ∨
     (cs = l1 ++ l2 ∧ c0 = Node_new (Some x) ∧
      SortedList_index Node_lt Node_eq cs (Node_new (Some x)) = None ∧
      ∀ v, data v = Some x → SortedList_add Node_lt cs v = l1 ++ v :: l2)).
Proof.
  intros Hd Hs.
  destruct (locate_gen data d cs x (Node_new (Some x)) eq_refl Hd Hs)
    as (l1 & l2 & Hl1 & Hl2 & [(c0 & Hc0 & Hcs & Hi)|(Hcs & Hi & Hadd)]).
  - exists l1, c0, l2. repeat split; [done..|]. left. done.
  - exists l1, (Node_new (Some x)), l2. repeat split; [done..|]. right. done.
Qed.

(** ** [_add] *)

Lemma _add_data n it : data (_add n it) = data n.
Proof.
  destruct it as [|x it]; [done|]. simpl.
  destruct (SortedList_index _ _ _ _); [|done].
  by destruct (children n !! _).
Qed.

(** One step of [_add] on a well-formed node: the child [c0] with key [x],
    or a fresh one put in its place, takes the rest of the set. *)
Lemma _add_cons d fl cs x it :
  Forall (olt d) (data <$> cs) → StronglySorted olt (data <$> cs) →
  ∃ l1 c0 l2,
    _add (mkNode d fl cs) (x :: it) = mkNode d fl (l1 ++ _add c0 it :: l2) ∧
    data c0 = Some x ∧
    Forall (λ c, key_lt c x) l1 ∧
    Forall (λ c, key_gt c x) l2 ∧
    (cs = l1 ++ c0 :: l2 ∨ (cs = l1 ++ l2 ∧ c0 = Node_new (Some x))).
Proof.
  intros Hd Hs.
  destruct (locate d cs x Hd Hs) as (l1 & c0 & l2 & Hc0 & Hl1 & Hl2 & Hcase).
  exists l1, c0, l2. repeat split; [|done..|].
  - destruct Hcase as [[-> Hi]|(-> & -> & Hi & Hadd)]; simpl in *; rewrite Hi.
    + rewrite list_lookup_middle by done.
      rewrite insert_app_r_alt by done.
      by rewrite Nat.sub_diag.
    + rewrite Hadd; [done|]. by rewrite _add_data.
  - destruct Hcase as [[-> _]|(-> & -> & _)]; auto.
Qed.

Lemma words_Node_new d : words (Node_new d) = [].
Proof. done. Qed.

Lemma wf_Node_new d : wf (Node_new d).
Proof. apply wf_eq. repeat split; constructor. Qed.

Lemma cwords_middle l1 c l2 :
  cwords (l1 ++ c :: l2) = cwords l1 ++ kwords c ++ cwords l2.
Proof. by rewrite cwords_app, cwords_cons. Qed.

Lemma elem_of_kwords c w :
  w ∈ kwords c ↔ ∃ w', w = opt_cons (data c) w' ∧ w' ∈ words c.
Proof. apply list_elem_of_fmap. Qed.

(** The sequences stored after [_add] are the old ones and the new one. *)
Lemma _add_words it : ∀ n w,
  wf n → w ∈ words (_add n it) ↔ w = it ∨ w ∈ words n.
Proof.
  induction it as [|x it IH]; intros [d fl cs] w Hwf.
  { simpl _add. rewrite !words_eq, !elem_of_app.
    destruct fl; rewrite ?list_elem_of_singleton, ?elem_of_nil; tauto. }
  apply wf_eq in Hwf as (Hd & Hs & Hwfs & Hlive).
  destruct (_add_cons d fl cs x it Hd Hs)
    as (l1 & c0 & l2 & -> & Hc0 & _ & _ & Hcase).
  assert (wf c0 ∧ cwords cs = cwords l1 ++ kwords c0 ++ cwords l2) as [Hwf0 Hcs].
  { destruct Hcase as [->|[-> ->]].
    - split; [|apply cwords_middle].
      apply Forall_app in Hwfs as [_ Hwfs]. by apply Forall_cons in Hwfs as [? _].
    - split; [apply wf_Node_new|]. by rewrite cwords_app. }
  rewrite !words_eq, Hcs, cwords_middle, !elem_of_app.
  rewrite !elem_of_kwords, _add_data, Hc0.
  setoid_rewrite (IH c0 _ Hwf0). simpl. split.
  - intros [?|[?|[(w' & -> & [->|?])|?]]]; eauto 10.
  - intros [->|[?|[?|[(w' & -> & ?)|?]]]]; eauto 10.
Qed.

Lemma _add_live it n : wf n → live (_add n it).
Proof.
  destruct n as [d fl cs]. intros Hwf. destruct it as [|x it]; [by left|].
  apply wf_eq in Hwf as (Hd & Hs & _).
  destruct (_add_cons d fl cs x it Hd Hs) as (l1 & c0 & l2 & -> & _).
  right. simpl. by destruct l1.
Qed.

Lemma wf_split {A} (l1 : list A) c l2 P :
  Forall P (l1 ++ c :: l2) ↔ Forall P l1 ∧ P c ∧ Forall P l2.
Proof. by rewrite Forall_app, Forall_cons. Qed.

Lemma sorted_middle (l1 l2 : list Node) x c :
  data c = Some x →
  Forall (λ c, key_lt c x) l1 →
  Forall (λ c, key_gt c x) l2 →
  StronglySorted olt (data <$> l1) → StronglySorted olt (data <$> l2) →
  StronglySorted olt (data <$> (l1 ++ c :: l2)).
Proof.
  intros Hc Hl1 Hl2 Hs1 Hs2. rewrite fmap_app, fmap_cons, Hc.
  apply StronglySorted_app_2; [|done|].
  - intros a b Ha Hb. apply list_elem_of_fmap in Ha as (ca & -> & Ha).
    rewrite Forall_forall in Hl1. specialize (Hl1 _ Ha).
    assert (olt (data ca) (Some x)) as Hax.
    { unfold key_lt in Hl1. by destruct (data ca). }
    apply elem_of_cons in Hb as [->|Hb]; [done|].
    apply list_elem_of_fmap in Hb as (cb & -> & Hb).
    rewrite Forall_forall in Hl2. specialize (Hl2 _ Hb).
    etrans; [exact Hax|]. unfold key_gt in Hl2. by destruct (data cb).
  - apply StronglySorted_cons. split; [|done]. apply Forall_fmap.
    eapply Forall_impl; [exact Hl2|]. intros cb Hcb. unfold key_gt in Hcb.
    simpl. by destruct (data cb).
Qed.

(** [_add] of an ascending sequence keeps the invariant. *)
Lemma _add_wf it : ∀ n,
  wf n → ascending it → above (data n) it → wf (_add n it).
Proof.
  induction it as [|x it IH]; intros [d fl cs] Hwf Hasc Habove.
  { apply (wf_eq d true cs). by apply wf_eq in Hwf. }
  apply wf_eq in Hwf as (Hd & Hs & Hwfs & Hlive).
  destruct (_add_cons d fl cs x it Hd Hs)
    as (l1 & c0 & l2 & -> & Hc0 & Hl1 & Hl2 & Hcase).
  apply StronglySorted_cons in Hasc as [Hx Hasc].
  apply Forall_cons in Habove as [Hdx _].
  assert (Forall (olt d) (data <$> l1) ∧ Forall (olt d) (data <$> l2) ∧
          StronglySorted olt (data <$> l1) ∧ StronglySorted olt (data <$> l2) ∧
          Forall wf l1 ∧ Forall wf l2 ∧ Forall live l1 ∧ Forall live l2 ∧ wf c0)
    as (Hd1 & Hd2 & Hs1 & Hs2 & Hw1 & Hw2 & Hv1 & Hv2 & Hwf0).
  { destruct Hcase as [->|[-> ->]].
    - rewrite fmap_app, fmap_cons in Hd, Hs.
      apply Forall_app in Hd as [? Hd]. apply Forall_cons in Hd as [_ ?].
      apply StronglySorted_app in Hs as (_ & ? & Hs).
      apply StronglySorted_cons in Hs as [_ ?].
      apply wf_split in Hwfs as (? & ? & ?). apply wf_split in Hlive as (? & _ & ?).
      done.
    - rewrite fmap_app in Hd, Hs.
      apply Forall_app in Hd as [? ?]. apply StronglySorted_app in Hs as (_ & ? & ?).
      apply Forall_app in Hwfs as [? ?]. apply Forall_app in Hlive as [? ?].
      repeat split; try done. apply wf_Node_new. }
  assert (data (_add c0 it) = Some x) as Hc' by (by rewrite _add_data).
  apply wf_eq. repeat split.
  - rewrite fmap_app, fmap_cons, Hc'. by apply Forall_app, conj, Forall_cons.
  - by apply (sorted_middle _ _ x).
  - apply wf_split. repeat split; [done| |done].
    apply IH; [done..|]. rewrite Hc0. done.
  - apply wf_split. repeat split; [done| |done]. by apply _add_live.
Qed.

(** ** The stored sequences of a well-formed node *)

Lemma elem_of_cwords cs w :
  w ∈ cwords cs ↔ ∃ c w', c ∈ cs ∧ w' ∈ words c ∧ w = opt_cons (data c) w'.
Proof.
  unfold cwords. rewrite list_elem_of_bind. split.
  - intros (c & Hw & Hc). apply elem_of_kwords in Hw as (w' & -> & Hw'). eauto.
  - intros (c & w' & Hc & Hw' & ->). exists c. split; [|done].
    apply elem_of_kwords. eauto.
Qed.

Lemma olt_above_trans d k w : olt d (Some k) → above (Some k) w → above d w.
Proof.
  intros Hdk Hw. unfold above in *. eapply Forall_impl; [exact Hw|].
  intros y Hy. simpl in Hy. by etrans.
Qed.

(** Every stored sequence is strictly ascending and lies above the key of
    the node it hangs from. *)
Lemma words_ascending n :
  wf n → ∀ w, w ∈ words n → ascending w ∧ above (data n) w.
Proof.
  induction n as [d fl cs IH] using Node_ind. intros Hwf w.
  apply wf_eq in Hwf as (Hd & _ & Hwfs & _).
  rewrite words_eq, elem_of_app, elem_of_cwords. intros [Hw|(c & w' & Hc & Hw' & ->)].
  { destruct fl; [apply list_elem_of_singleton in Hw as ->|by apply elem_of_nil in Hw].
    split; constructor. }
  rewrite Forall_forall in IH, Hwfs.
  destruct (IH c Hc (Hwfs c Hc) w' Hw') as [Hasc Hab].
  rewrite Forall_fmap, Forall_forall in Hd. specialize (Hd c Hc). simpl in Hd.
  destruct (olt_is_Some _ _ Hd) as [k Hk]. rewrite Hk in *. simpl. split.
  - apply StronglySorted_cons. split; [|done].
    eapply Forall_impl; [exact Hab|]. by intros y Hy.
  - constructor; [done|]. by eapply olt_above_trans.
Qed.

(** The children of a well-formed node hold keys, never [None]: the order
    comparisons of [py_lt] and the like are only made on keys. *)
Lemma wf_children_data n :
  wf n → Forall (λ c, is_Some (data c) ∧ wf c) (children n).
Proof.
  destruct n as [d fl cs]. intros (Hd & _ & Hwfs & _)%wf_eq. simpl.
  rewrite Forall_fmap in Hd. apply Forall_forall. intros c Hc.
  rewrite Forall_forall in Hd, Hwfs. split; [|by apply Hwfs].
  eapply olt_is_Some. by apply (Hd c).
Qed.

(** A live node stores at least one sequence. *)
Lemma words_live n : wf n → live n → ∃ w, w ∈ words n.
Proof.
  induction n as [d fl cs IH] using Node_ind. intros Hwf Hlive.
  apply wf_eq in Hwf as (_ & _ & Hwfs & Hlives).
  destruct fl; [exists []; rewrite words_eq; by left|].
  destruct Hlive as [?|Hne]; [done|]. destruct cs as [|c cs]; [done|].
  apply Forall_cons in IH as [IHc _]. apply Forall_cons in Hwfs as [Hc _].
  apply Forall_cons in Hlives as [Hl _].
  destruct (IHc Hc Hl) as [w Hw]. exists (opt_cons (data c) w).
  rewrite words_eq, elem_of_app, elem_of_cwords. right. exists c, w.
  split; [by left|done].
Qed.

(** Among sorted children only the located child holds sequences that
    start with [x]. *)
Lemma cwords_located cs x l1 c0 l2 w :
  data c0 = Some x →
  Forall (λ c, key_lt c x) l1 →
  Forall (λ c, key_gt c x) l2 →
  cs = l1 ++ c0 :: l2 ∨ (cs = l1 ++ l2 ∧ c0 = Node_new (Some x)) →
  x :: w ∈ cwords cs ↔ w ∈ words c0.
Proof.
  intros Hc0 Hl1 Hl2 Hcase.
  assert (∀ l, Forall (λ c, key_lt c x ∨ key_gt c x) l →
               x :: w ∉ cwords l) as Hno.
  { intros l Hl (c & w' & Hc & _ & Hw)%elem_of_cwords.
    rewrite Forall_forall in Hl. specialize (Hl c Hc). unfold key_lt, key_gt in Hl.
    destruct (data c) as [k|]; simpl in *; [|tauto].
    injection Hw as -> _. lia. }
  assert (x :: w ∉ cwords l1) as Hn1.
  { apply Hno. eapply Forall_impl; [exact Hl1|]. auto. }
  assert (x :: w ∉ cwords l2) as Hn2.
  { apply Hno. eapply Forall_impl; [exact Hl2|]. auto. }
  assert (x :: w ∈ kwords c0 ↔ w ∈ words c0) as Hk.
  { rewrite elem_of_kwords, Hc0. simpl. split; [by intros (w' & [= ->] & ?)|eauto]. }
  destruct Hcase as [->|[-> ->]].
  - rewrite cwords_middle, !elem_of_app. tauto.
  - rewrite cwords_app, elem_of_app, words_Node_new, elem_of_nil. tauto.
Qed.

Lemma cwords_nonempty d cs :
  Forall (olt d) (data <$> cs) → [] ∉ cwords cs.
Proof.
  intros Hd (c & w' & Hc & _ & Hw)%elem_of_cwords.
  rewrite Forall_fmap, Forall_forall in Hd. specialize (Hd c Hc). simpl in Hd.
  destruct (olt_is_Some _ _ Hd) as [k Hk]. by rewrite Hk in Hw.
Qed.

(** ** [_contains] *)

Lemma _contains_words it : ∀ n,
  wf n → _contains n it = true ↔ it ∈ words n.
Proof.
  induction it as [|x it IH]; intros [d fl cs] Hwf;
    apply wf_eq in Hwf as (Hd & Hs & Hwfs & _); rewrite words_eq, elem_of_app.
  { simpl. pose proof (cwords_nonempty d cs Hd) as Hne.
    destruct fl; rewrite ?list_elem_of_singleton, ?elem_of_nil;
      [tauto|split; [done|tauto]]. }
  destruct (locate d cs x Hd Hs) as (l1 & c0 & l2 & Hc0 & Hl1 & Hl2 & Hcase).
  rewrite (cwords_located cs x l1 c0 l2 it Hc0 Hl1 Hl2)
    by (destruct Hcase as [[? _]|(? & ? & _)]; auto).
  assert (x :: it ∉ (if fl then [[]] else [])) as Hno.
  { destruct fl; [by intros ?%list_elem_of_singleton|by intros ?%elem_of_nil]. }
  destruct Hcase as [[-> Hi]|(-> & -> & Hi & _)]; simpl; rewrite Hi.
  - rewrite list_lookup_middle by done.
    apply wf_split in Hwfs as (_ & Hwf0 & _). rewrite (IH c0 Hwf0). tauto.
  - rewrite elem_of_nil. split; [done|tauto].
Qed.

(** ** Order of the stored sequences *)

Lemma lex_lt_irrefl w : ¬ lex_lt w w.
Proof. induction w as [|x w IH]; simpl; [tauto|]. intros [?|[_ ?]]; [lia|tauto]. Qed.

Lemma lex_lt_cons k a b : lex_lt a b → lex_lt (k :: a) (k :: b).
Proof. intros H. simpl. by right. Qed.

Lemma StronglySorted_NoDup {A} (R : relation A) l :
  (∀ x, ¬ R x x) → StronglySorted R l → NoDup l.
Proof.
  intros Hirr. induction 1 as [|x l _ IH Hx]; constructor; [|done].
  intros Hin. rewrite Forall_forall in Hx. by apply (Hirr x), Hx.
Qed.

Lemma cwords_lex cs :
  StronglySorted olt (data <$> cs) →
  Forall (λ c, is_Some (data c)) cs →
  Forall (λ c, StronglySorted lex_lt (words c)) cs →
  StronglySorted lex_lt (cwords cs).
Proof.
  induction cs as [|c cs IH]; intros Hs Hsome Hws; [constructor|].
  rewrite fmap_cons in Hs. apply StronglySorted_cons in Hs as [Hc Hs].
  apply Forall_cons in Hsome as [[k Hk] Hsome]. apply Forall_cons in Hws as [Hw Hws].
  rewrite cwords_cons. apply StronglySorted_app_2; [| |by apply IH].
  - intros a b (a' & -> & _)%elem_of_kwords (c' & b' & Hc' & _ & ->)%elem_of_cwords.
    rewrite Forall_fmap, Forall_forall in Hc. specialize (Hc c' Hc'). simpl in Hc.
    rewrite Hk in *. destruct (data c'); simpl in *; [by left|done].
  - unfold kwords. rewrite Hk. eapply StronglySorted_fmap; [|exact Hw].
    intros a b. apply lex_lt_cons.
Qed.

(** The stored sequences are in strict lexicographic order. *)
Lemma words_lex n : wf n → StronglySorted lex_lt (words n).
Proof.
  induction n as [d fl cs IH] using Node_ind. intros Hwf.
  apply wf_eq in Hwf as (Hd & Hs & Hwfs & _).
  rewrite words_eq. apply StronglySorted_app_2.
  - intros a b Ha Hb. destruct b as [|y b].
    { by apply (cwords_nonempty d cs Hd) in Hb. }
    destruct fl; [by apply list_elem_of_singleton in Ha as ->|by apply elem_of_nil in Ha].
  - destruct fl; repeat constructor.
  - apply cwords_lex; [done| |].
    + rewrite Forall_fmap in Hd. eapply Forall_impl; [exact Hd|].
      intros c Hc. by eapply olt_is_Some.
    + rewrite Forall_forall in IH, Hwfs. apply Forall_forall. auto.
Qed.

Lemma words_NoDup n : wf n → NoDup (words n).
Proof.
  intros Hwf. eapply StronglySorted_NoDup; [apply lex_lt_irrefl|by apply words_lex].
Qed.

(** ** [sorted] *)

Lemma sorted_Permutation l : sorted l ≡ₚ l.
Proof. apply merge_sort_Permutation. Qed.

Lemma le_NoDup_ascending l : StronglySorted Z.le l → NoDup l → ascending l.
Proof.
  induction 1 as [|x l _ IH Hx]; intros Hnd; [constructor|].
  apply NoDup_cons in Hnd as [Hnin Hnd]. constructor; [by apply IH|].
  rewrite Forall_forall in *. intros y Hy. specialize (Hx y Hy).
  assert (x ≠ y) by (by intros ->). lia.
Qed.

Lemma ascending_le l : ascending l → StronglySorted Z.le l.
Proof.
  induction 1 as [|x l _ IH Hx]; constructor; [done|].
  eapply Forall_impl; [exact Hx|]. intros; simpl in *; lia.
Qed.

Lemma sorted_ascending l : NoDup l → ascending (sorted l).
Proof.
  intros Hnd. apply le_NoDup_ascending.
  - apply StronglySorted_merge_sort; apply _.
  - by rewrite sorted_Permutation.
Qed.

(** The ascending sequence of a set is unique. *)
Lemma sorted_unique l w : ascending w → l ≡ₚ w → sorted l = w.
Proof.
  intros Hw Hp. apply (StronglySorted_unique Z.le).
  - apply StronglySorted_merge_sort; apply _.
  - by apply ascending_le.
  - by rewrite sorted_Permutation.
Qed.

Lemma ascending_NoDup w : ascending w → NoDup w.
Proof. apply StronglySorted_NoDup. intros x. lia. Qed.

Lemma sorted_elements_list_to_set w :
  ascending w → sorted (elements (list_to_set w : gset Z)) = w.
Proof.
  intros Hw. apply sorted_unique; [done|].
  apply elements_list_to_set. by apply ascending_NoDup.
Qed.

Lemma list_to_set_sorted_elements (S : gset Z) :
  list_to_set (sorted (elements S)) = S.
Proof.
  apply set_eq. intros x.
  by rewrite elem_of_list_to_set, sorted_Permutation, elem_of_elements.
Qed.

Lemma sorted_elements_ascending (S : gset Z) : ascending (sorted (elements S)).
Proof. apply sorted_ascending, NoDup_elements. Qed.

(** ** Tries built from sets *)

Lemma above_None l : above None l.
Proof. apply Forall_forall. intros x _. done. Qed.

Lemma wf_trie_new : wf_trie SetTrie_new.
Proof. split; [done|apply wf_Node_new]. Qed.

Lemma add_wf t (S : gset Z) : wf_trie t → wf_trie (add t (elements S)).
Proof.
  intros [Hd Hwf]. split; simpl.
  - by rewrite _add_data.
  - apply _add_wf; [done|apply sorted_elements_ascending|].
    rewrite Hd. apply above_None.
Qed.

Lemma add_stored t (S : gset Z) w :
  wf_trie t →
  w ∈ stored (add t (elements S)) ↔ w = sorted (elements S) ∨ w ∈ stored t.
Proof. intros [_ Hwf]. by apply _add_words. Qed.

Lemma SetTrie_init_snoc (ss : list (gset Z)) (S : gset Z) :
  SetTrie_init (elements <$> (ss ++ [S]))
  = add (SetTrie_init (elements <$> ss)) (elements S).
Proof. unfold SetTrie_init. by rewrite fmap_app, foldl_app. Qed.

Lemma init_wf (ss : list (gset Z)) : wf_trie (SetTrie_init (elements <$> ss)).
Proof.
  induction ss as [|S ss IH] using rev_ind; [apply wf_trie_new|].
  rewrite SetTrie_init_snoc. by apply add_wf.
Qed.

(** The stored sequences are the ascending sequences of the sets added. *)
Lemma init_stored (ss : list (gset Z)) w :
  w ∈ stored (SetTrie_init (elements <$> ss)) ↔
  ∃ S, S ∈ ss ∧ w = sorted (elements S).
Proof.
  induction ss as [|S ss IH] using rev_ind.
  { split; [by intros ?%elem_of_nil|by intros (? & ?%elem_of_nil & _)]. }
  rewrite SetTrie_init_snoc, add_stored by apply init_wf.
  rewrite IH. setoid_rewrite elem_of_app. setoid_rewrite list_elem_of_singleton.
  split.
  - intros [-> | (S' & HS' & ->)]; eauto.
  - intros (S' & [HS' | ->] & ->); eauto.
Qed.

Lemma aslist_stored t :
  data (root t) = None → aslist t = list_to_set <$> stored t.
Proof.
  intros Hd. unfold aslist, iter, stored. rewrite _iter_words, Hd. done.
Qed.

Lemma stored_ascending t w : wf_trie t → w ∈ stored t → ascending w.
Proof. intros [_ Hwf] Hw. by apply (words_ascending _ Hwf). Qed.

Lemma list_to_set_ascending_inj (w1 w2 : list Z) :
  ascending w1 → ascending w2 →
  list_to_set w1 =@{gset Z} list_to_set w2 → w1 = w2.
Proof.
  intros H1 H2 Heq.
  rewrite <-(sorted_elements_list_to_set w1), <-(sorted_elements_list_to_set w2)
    by done.
  by rewrite Heq.
Qed.

(** [aslist] tells the sets apart: no set is listed twice. *)
Lemma aslist_NoDup t : wf_trie t → NoDup (aslist t).
Proof.
  intros Hwf. rewrite aslist_stored by apply Hwf.
  apply NoDup_fmap_2_strong; [|apply words_NoDup, Hwf].
  intros w1 w2 H1 H2. apply list_to_set_ascending_inj; by eapply stored_ascending.
Qed.

Lemma elem_of_aslist t (S : gset Z) :
  wf_trie t → S ∈ aslist t ↔ sorted (elements S) ∈ stored t.
Proof.
  intros Hwf. rewrite aslist_stored by apply Hwf. rewrite list_elem_of_fmap. split.
  - intros (w & -> & Hw). rewrite sorted_elements_list_to_set; [done|].
    by eapply stored_ascending.
  - intros Hw. exists (sorted (elements S)).
    by rewrite list_to_set_sorted_elements.
Qed.

Lemma contains_stored t (l : list Z) :
  wf_trie t → contains t l = true ↔ sorted l ∈ stored t.
Proof. intros [_ Hwf]. by apply _contains_words. Qed.

(** The sets of a trie built from [ss] are the sets of [ss]. *)
Lemma init_aslist (ss : list (gset Z)) (S : gset Z) :
  S ∈ aslist (SetTrie_init (elements <$> ss)) ↔ S ∈ ss.
Proof.
  rewrite elem_of_aslist, init_stored by apply init_wf. split.
  - intros (S' & HS' & Heq).
    assert (S = S') as ->; [|done].
    by rewrite <-(list_to_set_sorted_elements S), Heq, list_to_set_sorted_elements.
  - eauto.
Qed.

Lemma lex_lt_asym a : ∀ b, lex_lt a b → lex_lt b a → False.
Proof.
  induction a as [|x a IH]; intros [|y b]; simpl; try tauto.
  intros [?|[-> ?]] [?|[? ?]]; try lia. eauto.
Qed.

(** Two well-formed tries that store the same sequences list them alike. *)
Lemma stored_ext t1 t2 :
  wf_trie t1 → wf_trie t2 →
  (∀ w, w ∈ stored t1 ↔ w ∈ stored t2) → stored t1 = stored t2.
Proof.
  intros [_ H1] [_ H2] Hiff. apply (StronglySorted_unique_strong lex_lt).
  - intros a b _ _ Hab Hba. destruct (lex_lt_asym a b Hab Hba).
  - by apply words_lex.
  - by apply words_lex.
  - apply NoDup_Permutation; [by apply words_NoDup..|done].
Qed.

Lemma filter_eq_once {A} `{EqDecision A} (l : list A) (x : A) :
  NoDup l → x ∈ l → length (filter (λ y, y = x) l) = 1%nat.
Proof.
  induction 1 as [|y l Hy Hnd IH]; [by intros ?%elem_of_nil|].
  intros Hx. destruct (decide (y = x)) as [->|Hne].
  - rewrite filter_cons_True by done. simpl. f_equal.
    apply length_zero_iff_nil. apply elem_of_nil_inv. intros z Hz.
    apply list_elem_of_filter in Hz as [-> ?]. done.
  - rewrite filter_cons_False by done. apply IH.
    apply elem_of_cons in Hx as [->|?]; done.
Qed.

Lemma add_times_wf n t (S : gset Z) :
  wf_trie t → wf_trie (Nat.iter n (λ t, add t (elements S)) t).
Proof. intros Hwf. induction n as [|n IH]; [done|]. simpl. by apply add_wf. Qed.

Lemma add_times_stored n t (S : gset Z) w :
  wf_trie t → (1 ≤ n)%nat →
  w ∈ stored (Nat.iter n (λ t, add t (elements S)) t) ↔
  w = sorted (elements S) ∨ w ∈ stored t.
Proof.
  intros Hwf Hn. induction n as [|n IH]; [lia|]. simpl.
  rewrite add_stored by by apply add_times_wf.
  destruct n as [|n]; [done|]. rewrite IH by lia. tauto.
Qed.

(** ** The cursor [idx] into [setarr] *)

Lemma exhausted_spec setarr idx :
  (exhausted setarr idx = true ∧ drop idx setarr = []) ∨
  (exhausted setarr idx = false ∧
   drop idx setarr = (setarr !!! idx) :: drop (S idx) setarr).
Proof.
  unfold exhausted. case_bool_decide as Hlt; [left|right]; (split; [done|]).
  - apply drop_ge. lia.
  - destruct (lookup_lt_is_Some_2 setarr idx) as [x Hx]; [lia|].
    rewrite (list_lookup_total_correct _ _ _ Hx). by apply drop_S.
Qed.

Lemma drop_0_eq (l : list Z) : drop 0 l = l.
Proof. done. Qed.

(** ** Inclusion between ascending sequences *)

Lemma not_subseteq_above (x : Z) q w :
  above (Some x) w → ¬ (x :: q ⊆ w).
Proof.
  intros Hw Hsub. assert (x ∈ w) as Hx by (apply Hsub; by left).
  unfold above in Hw. rewrite Forall_forall in Hw. specialize (Hw x Hx).
  simpl in Hw. lia.
Qed.

Lemma subseteq_cons_eq (x : Z) q w :
  Forall (Z.lt x) q → x :: q ⊆ x :: w ↔ q ⊆ w.
Proof.
  intros Hq. rewrite Forall_forall in Hq. split; intros Hsub y Hy.
  - assert (y ∈ x :: w) as Hyw by (apply Hsub; by right).
    apply elem_of_cons in Hyw as [->|?]; [|done].
    specialize (Hq _ Hy). lia.
  - apply elem_of_cons in Hy as [->|Hy]; [by left|right; by apply Hsub].
Qed.

Lemma subseteq_cons_lt (k x : Z) q w :
  (k < x)%Z → Forall (Z.lt x) q → x :: q ⊆ k :: w ↔ x :: q ⊆ w.
Proof.
  intros Hk Hq. rewrite Forall_forall in Hq. split; intros Hsub y Hy.
  - assert (y ∈ k :: w) as Hyw by by apply Hsub.
    apply elem_of_cons in Hyw as [->|?]; [|done].
    apply elem_of_cons in Hy as [->|Hy]; [lia|]. specialize (Hq _ Hy). lia.
  - right. by apply Hsub.
Qed.

Lemma filter_fmap_in {A B} (f : A → B) (P : B → Prop) (Q : A → Prop)
    `{∀ y, Decision (P y)} `{∀ x, Decision (Q x)} (l : list A) :
  (∀ x, x ∈ l → P (f x) ↔ Q x) → filter P (f <$> l) = f <$> filter Q l.
Proof.
  induction l as [|a l IH]; intros Hiff; [done|]. csimpl.
  assert (filter P (f <$> l) = f <$> filter Q l) as IH'.
  { apply IH. intros x Hx. apply Hiff. by right. }
  destruct (decide (Q a)) as [Ha|Ha].
  - rewrite (filter_cons_True Q), (filter_cons_True P) by (done || by apply Hiff; [left|]).
    csimpl. by rewrite IH'.
  - rewrite (filter_cons_False Q), (filter_cons_False P);
      [done| |done]. rewrite Hiff; [done|by left].
Qed.

Lemma filter_none {A} (P : A → Prop) `{∀ x, Decision (P x)} (l : list A) :
  (∀ x, x ∈ l → ¬ P x) → filter P l = [].
Proof.
  intros Hno. apply elem_of_nil_inv. intros x [? ?]%list_elem_of_filter.
  by eapply Hno.
Qed.

Lemma filter_all {A} (P : A → Prop) `{∀ x, Decision (P x)} (l : list A) :
  (∀ x, x ∈ l → P x) → filter P l = l.
Proof.
  induction l as [|a l IH]; intros Hall; [done|].
  rewrite filter_cons_True by (apply Hall; by left).
  f_equal. apply IH. intros x Hx. apply Hall. by right.
Qed.

(** The sequences below children whose keys are above [d]. *)
Lemma cwords_above d cs w :
  Forall (olt d) (data <$> cs) → Forall wf cs → w ∈ cwords cs → above d w.
Proof.
  intros Hd Hwfs (c & w' & Hc & Hw' & ->)%elem_of_cwords.
  rewrite Forall_fmap, Forall_forall in Hd. specialize (Hd c Hc). simpl in Hd.
  rewrite Forall_forall in Hwfs.
  destruct (words_ascending c (Hwfs c Hc) w' Hw') as [_ Hab].
  destruct (olt_is_Some _ _ Hd) as [k Hk]. rewrite Hk in *. simpl.
  constructor; [done|]. by eapply olt_above_trans.
Qed.

(** ** [_itersupersets] *)

Lemma olt_children_above (x : Z) c cs :
  olt (Some x) (data c) → Forall (olt (data c)) (data <$> cs) →
  Forall (olt (Some x)) (data <$> c :: cs).
Proof.
  intros Hc Hcs. rewrite fmap_cons. constructor; [done|].
  eapply Forall_impl; [exact Hcs|]. intros b Hb. by etrans.
Qed.

Lemma ascending_cons_inv x q :
  ascending (x :: q) → Forall (Z.lt x) q ∧ ascending q ∧ above (Some x) q.
Proof. intros [Hx Hq]%StronglySorted_cons. done. Qed.

Lemma above_lt k x q :
  (k < x)%Z → ascending (x :: q) → above (Some k) (x :: q).
Proof.
  intros Hk (Hx & _ & _)%ascending_cons_inv. constructor; [done|].
  eapply Forall_impl; [exact Hx|]. intros y Hy. simpl in *. lia.
Qed.

(** [_itersupersets] yields, in the order of [words], the stored sequences
    that include the rest of the query. *)
Lemma _itersupersets_words n : ∀ setarr idx path,
  wf n → ascending (drop idx setarr) → above (data n) (drop idx setarr) →
  _itersupersets n setarr idx path
  = (λ w, list_to_set (path_append path (data n) ++ w))
      <$> filter (λ w, drop idx setarr ⊆ w) (words n).
Proof.
  induction n as [d fl cs IH] using Node_ind. intros setarr idx path Hwf Hasc Hab.
  apply wf_eq in Hwf as (Hd & Hs & Hwfs & _).
  rewrite words_eq, filter_app, fmap_app. simpl.
  generalize (path_append path d). intros p.
  destruct (exhausted_spec setarr idx) as [[He Hq]|[He Hq]]; rewrite He; simpl.
  - (* no element left: the whole subtree *)
    f_equal.
    { rewrite filter_all; [destruct fl; simpl; by rewrite ?app_nil_r|].
      intros w _. rewrite Hq.
      intros y Hy. by apply elem_of_nil in Hy. }
    clear Hd Hs. induction cs as [|c cs IHcs]; [done|].
    apply Forall_cons in IH as [IHc IH]. apply Forall_cons in Hwfs as [Hc Hwfs].
    rewrite cwords_cons, filter_app, fmap_app, <-IHcs by done. f_equal.
    rewrite IHc; [|done|rewrite Hq; constructor..].
    unfold kwords. rewrite Hq.
    rewrite !filter_all by (intros w _ y Hy; by apply elem_of_nil in Hy).
    rewrite <-list_fmap_compose. apply list_fmap_ext. intros _ w _. simpl.
    by rewrite path_append_app.
  - (* the element [x] is still to be found *)
    set (x := setarr !!! idx) in *. set (q := drop (S idx) setarr) in *.
    rewrite Hq in Hasc.
    destruct (ascending_cons_inv _ _ Hasc) as (Hxq & Hascq & Habq).
    f_equal.
    { rewrite andb_false_r, filter_none; [done|].
      intros w Hw. rewrite Hq. intros Hsub.
      assert (x ∈ w) as Hx by (apply Hsub; by left).
      destruct fl; [apply list_elem_of_singleton in Hw as ->|];
        by apply elem_of_nil in Hx || by apply elem_of_nil in Hw. }
    clear Hab. revert Hd Hs Hwfs IH. induction cs as [|c cs IHcs]; [done|].
    intros Hd Hs Hwfs IH. rewrite fmap_cons in Hd, Hs.
    apply Forall_cons in Hd as [Hdc Hd]. apply StronglySorted_cons in Hs as [Hcs Hs].
    apply Forall_cons in IH as [IHc IH]. apply Forall_cons in Hwfs as [Hc Hwfs].
    destruct (olt_is_Some _ _ Hdc) as [k Hk].
    rewrite Hk.
    destruct (Z.ltb_spec x k) as [Hlt|Hge].
    { rewrite filter_none; [done|]. intros w Hw. rewrite Hq.
      apply not_subseteq_above. eapply (cwords_above _ (c :: cs)); [|by constructor|done].
      apply olt_children_above; [by rewrite Hk|done]. }
    rewrite IHcs by done. rewrite cwords_cons, filter_app, fmap_app. f_equal.
    unfold kwords. rewrite Hk. simpl. unfold py_eq.
    case_bool_decide as Heq.
    + injection Heq as ->.
      rewrite IHc; [|done|by fold q|fold q; by rewrite Hk].
      fold q. rewrite Hq, Hk.
      rewrite (filter_fmap_in _ _ (λ w, q ⊆ w)).
      * rewrite <-list_fmap_compose. apply list_fmap_ext. intros _ w _. simpl.
        by rewrite <-app_assoc.
      * intros w _. by apply subseteq_cons_eq.
    + assert (k < x)%Z as Hkx.
      { destruct (Z.eq_dec k x) as [->|?]; [done|lia]. }
      rewrite IHc; [|done|by rewrite Hq|rewrite Hq, Hk; by apply above_lt].
      rewrite Hq, Hk.
      rewrite (filter_fmap_in _ _ (λ w, x :: q ⊆ w)).
      * rewrite <-list_fmap_compose. apply list_fmap_ext. intros _ w _. simpl.
        by rewrite <-app_assoc.
      * intros w _. by apply subseteq_cons_lt.
Qed.

Lemma subseteq_sorted_elements (Q : gset Z) (w : list Z) :
  sorted (elements Q) ⊆ w ↔ Q ⊆ list_to_set w.
Proof.
  split; intros Hsub x Hx.
  - apply elem_of_list_to_set, Hsub. by rewrite sorted_Permutation, elem_of_elements.
  - rewrite sorted_Permutation, elem_of_elements in Hx.
    by apply (elem_of_list_to_set (C:=gset Z)), Hsub.
Qed.

(** [itersupersets] is the brute-force filter of [aslist], in its order. *)
Lemma itersupersets_filter t (Q : gset Z) :
  wf_trie t →
  itersupersets t (elements Q) = filter (λ S, Q ⊆ S) (aslist t).
Proof.
  intros [Hd Hwf]. rewrite aslist_stored by done. unfold itersupersets, stored.
  rewrite _itersupersets_words;
    [|done|apply sorted_elements_ascending|rewrite Hd; apply above_None].
  rewrite Hd, drop_0_eq. simpl. symmetry. apply filter_fmap_in.
  intros w _. symmetry. apply subseteq_sorted_elements.
Qed.

(** ** [_hassuperset] *)

Lemma _hassuperset_words n : ∀ setarr idx,
  wf n → ascending (drop idx setarr) → above (data n) (drop idx setarr) →
  _hassuperset n setarr idx = true ↔
  drop idx setarr = [] ∨ ∃ w, w ∈ words n ∧ drop idx setarr ⊆ w.
Proof.
  induction n as [d fl cs IH] using Node_ind. intros setarr idx Hwf Hasc Hab.
  apply wf_eq in Hwf as (Hd & Hs & Hwfs & Hlive). rewrite words_eq. simpl.
  destruct (exhausted_spec setarr idx) as [[He Hq]|[He Hq]]; rewrite He, Hq.
  { split; auto. }
  set (x := setarr !!! idx) in *. set (q := drop (S idx) setarr) in *.
  rewrite Hq in Hasc.
  destruct (ascending_cons_inv _ _ Hasc) as (Hxq & Hascq & Habq).
  transitivity (∃ w, w ∈ cwords cs ∧ x :: q ⊆ w).
  2:{ setoid_rewrite elem_of_app. split.
      - intros (w & Hw & Hsub). eauto.
      - intros [?|(w & [Hw|Hw] & Hsub)]; [done| |eauto].
        assert (x ∈ w) as Hx by (apply Hsub; by left).
        destruct fl; [apply list_elem_of_singleton in Hw as ->|];
          by apply elem_of_nil in Hx || by apply elem_of_nil in Hw. }
  clear Hab. revert Hd Hs Hwfs Hlive IH. induction cs as [|c cs IHcs].
  { intros _ _ _ _ _. split; [done|]. by intros (w & ?%elem_of_nil & _). }
  intros Hd Hs Hwfs Hlive IH. rewrite fmap_cons in Hd, Hs.
  apply Forall_cons in Hd as [Hdc Hd]. apply StronglySorted_cons in Hs as [Hcs Hs].
  apply Forall_cons in IH as [IHc IH]. apply Forall_cons in Hwfs as [Hc Hwfs].
  apply Forall_cons in Hlive as [Hlc Hlive].
  destruct (olt_is_Some _ _ Hdc) as [k Hk]. rewrite Hk.
  destruct (Z.ltb_spec x k) as [Hlt|Hge].
  { split; [done|]. intros (w & Hw & Hsub). exfalso.
    eapply not_subseteq_above; [|exact Hsub].
    eapply (cwords_above _ (c :: cs)); [|by constructor|done].
    apply olt_children_above; [by rewrite Hk|done]. }
  assert ((if py_eq (Some k) (Some x)
           then _hassuperset c setarr (S idx)
           else _hassuperset c setarr idx) = true ↔
          ∃ w, w ∈ kwords c ∧ x :: q ⊆ w) as Hfound.
  { setoid_rewrite elem_of_kwords. rewrite Hk. simpl. unfold py_eq.
    case_bool_decide as Heq.
    - injection Heq as ->.
      rewrite IHc; [|done|by fold q|fold q; by rewrite Hk]. fold q. split.
      + intros [Hnil|(w & Hw & Hsub)].
        * destruct (words_live c Hc Hlc) as [w Hw]. exists (x :: w).
          split; [eauto|]. apply subseteq_cons_eq; [done|]. rewrite Hnil.
          intros y Hy. by apply elem_of_nil in Hy.
        * exists (x :: w). split; [eauto|]. by apply subseteq_cons_eq.
      + intros (w & (w' & -> & Hw') & Hsub). right. exists w'.
        split; [done|]. by apply (subseteq_cons_eq x).
    - assert (k < x)%Z as Hkx.
      { destruct (Z.eq_dec k x) as [->|?]; [done|lia]. }
      rewrite IHc; [|done|by rewrite Hq|rewrite Hq, Hk; by apply above_lt].
      rewrite Hq. split.
      + intros [?|(w & Hw & Hsub)]; [done|]. exists (k :: w).
        split; [eauto|]. by apply subseteq_cons_lt.
      + intros (w & (w' & -> & Hw') & Hsub). right. exists w'.
        split; [done|]. by apply (subseteq_cons_lt k). }
  rewrite cwords_cons. setoid_rewrite elem_of_app.
  destruct (if py_eq (Some k) (Some x) then _ else _) eqn:Hf.
  - split; [|done]. intros _. destruct (proj1 Hfound eq_refl) as (w & Hw & Hsub). eauto.
  - rewrite IHcs by done. split.
    + intros (w & Hw & Hsub). eauto.
    + intros (w & [Hw|Hw] & Hsub); [|eauto].
      assert (false = true); [|done]. apply Hfound. eauto.
Qed.

(** ** [_hassubset] *)

(** The body of [SetTrie._hassubset]. *)
Lemma _hassubset_eq node setarr idx :
  _hassubset node setarr idx =
  if flag_last node then true
  else if exhausted setarr idx then false
  else
    let found :=
      match SortedList_index Node_lt Node_eq (children node)
              (Node_new (Some (setarr !!! idx))) with
      | Some c =>
          match children node !! c with
          | Some child => _hassubset child setarr (S idx)
          | None => false
          end
      | None => false
      end in
    if negb found then _hassubset node setarr (S idx) else true.
Proof.
  unfold _hassubset. destruct (length setarr - idx)%nat as [|k] eqn:Hk; simpl.
  - destruct (flag_last node); [done|].
    destruct (exhausted_spec setarr idx) as [[-> _]|[He Hq]]; [done|].
    apply (f_equal length) in Hq. rewrite length_drop in Hq. simpl in Hq. lia.
  - by replace (length setarr - S idx)%nat with k by lia.
Qed.

Lemma subseteq_nil_inv (w : list Z) : w ⊆ [] → w = [].
Proof.
  intros Hsub. apply elem_of_nil_inv. intros x Hx. by apply Hsub, elem_of_nil in Hx.
Qed.

Lemma _hassubset_words setarr : ∀ k n idx,
  k = (length setarr - idx)%nat → wf n → ascending (drop idx setarr) →
  _hassubset_rec k n setarr idx = true ↔
  ∃ w, w ∈ words n ∧ w ⊆ drop idx setarr.
Proof.
  induction k as [|k IH]; intros [d fl cs] idx Hk Hwf Hasc;
    rewrite words_eq; simpl;
    (destruct fl; [split; [intros _|done]; exists []; split;
                     [by left|by intros y ?%elem_of_nil]|]);
    pose proof Hwf as (Hd & Hs & Hwfs & _)%wf_eq;
    rewrite ?app_nil_l;
    (destruct (exhausted_spec setarr idx) as [[He Hq]|[He Hq]]; rewrite He, Hq;
      [split; [done|]; intros (w & Hw & ->%subseteq_nil_inv);
       by apply (cwords_nonempty d cs Hd) in Hw|]).
  { apply (f_equal length) in Hq. rewrite length_drop in Hq. simpl in Hq. lia. }
  set (x := setarr !!! idx) in *. set (q := drop (S idx) setarr) in *.
  rewrite Hq in Hasc.
  destruct (ascending_cons_inv _ _ Hasc) as (Hxq & Hascq & Habq).
  destruct (locate d cs x Hd Hs) as (l1 & c0 & l2 & Hc0 & Hl1 & Hl2 & Hcase).
  pose proof (λ w, cwords_located cs x l1 c0 l2 w Hc0 Hl1 Hl2) as Hloc.
  assert (_hassubset_rec k (mkNode d false cs) setarr (S idx) = true ↔
          ∃ w, w ∈ cwords cs ∧ w ⊆ q) as Hskip.
  { rewrite IH; [|lia|done|done]. by rewrite words_eq, app_nil_l. }
  assert (∀ w, w ∈ cwords cs → w ⊆ x :: q →
               (∃ w', w = x :: w' ∧ w' ∈ words c0 ∧ w' ⊆ q) ∨ w ⊆ q) as Hsplit.
  { intros w Hw Hsub.
    destruct (words_ascending (mkNode d false cs) Hwf w) as [Haw _].
    { by rewrite words_eq, app_nil_l. }
    destruct w as [|y w]; [right; by intros z ?%elem_of_nil|].
    apply StronglySorted_cons in Haw as [Hyw _]. rewrite Forall_forall in Hyw.
    destruct (decide (y = x)) as [->|Hne].
    - left. exists w. split; [done|]. split.
      + apply Hloc; [|done]. destruct Hcase as [[? _]|(? & ? & _)]; auto.
      + intros z Hz. specialize (Hyw z Hz).
        assert (z ∈ x :: q) as Hzq by (apply Hsub; by right).
        apply elem_of_cons in Hzq as [Hzx|?]; [lia|done].
    - right. assert (y ∈ q) as Hyq.
      { assert (y ∈ x :: q) as Hyq by (apply Hsub; by left).
        by apply elem_of_cons in Hyq as [?|?]. }
      rewrite Forall_forall in Hxq. specialize (Hxq y Hyq).
      intros z Hz. assert (z ∈ x :: q) as Hzq by by apply Hsub.
      apply elem_of_cons in Hzq as [Hzx|?]; [|done].
      apply elem_of_cons in Hz as [Hzy|Hz]; [congruence|].
      specialize (Hyw z Hz). lia. }
  destruct Hcase as [[Hcs Hi]|(Hcs & -> & Hi & _)]; rewrite Hi.
  - rewrite Hcs at 1. rewrite list_lookup_middle by done.
    assert (_hassubset_rec k c0 setarr (S idx) = true ↔
            ∃ w', w' ∈ words c0 ∧ w' ⊆ q) as Hfound.
    { apply IH; [lia| |done]. rewrite Hcs in Hwfs.
      by apply wf_split in Hwfs as (_ & ? & _). }
    destruct (_hassubset_rec k c0 setarr (S idx)) eqn:Hf; simpl.
    + split; [intros _|done]. destruct (proj1 Hfound eq_refl) as (w' & Hw' & Hsub).
      exists (x :: w'). split; [apply Hloc; auto|].
      intros z [->|Hz]%elem_of_cons; [by left|right; by apply Hsub].
    + rewrite Hskip. split.
      * intros (w & Hw & Hsub). exists w. split; [done|].
        intros z Hz. right. by apply Hsub.
      * intros (w & Hw & Hsub).
        destruct (Hsplit w Hw Hsub) as [(w' & -> & Hw' & Hsub')|Hsub']; [|eauto].
        assert (false = true); [|done]. apply Hfound. eauto.
  - simpl. rewrite Hskip. split.
    + intros (w & Hw & Hsub). exists w. split; [done|].
      intros z Hz. right. by apply Hsub.
    + intros (w & Hw & Hsub).
      destruct (Hsplit w Hw Hsub) as [(w' & -> & Hw' & Hsub')|Hsub']; [|eauto].
      by rewrite words_Node_new in Hw'; apply elem_of_nil in Hw'.
Qed.

(** ** [_itersubsets]: what it yields is right *)

Lemma filter_sublist_mono {A} (P1 P2 : A → Prop)
    `{∀ x, Decision (P1 x)} `{∀ x, Decision (P2 x)} (l : list A) :
  (∀ x, P1 x → P2 x) → filter P1 l `sublist_of` filter P2 l.
Proof.
  intros Himp. induction l as [|a l IH]; [done|].
  destruct (decide (P1 a)) as [Ha|Ha].
  - rewrite (filter_cons_True P1), (filter_cons_True P2) by auto.
    by apply sublist_skip.
  - rewrite (filter_cons_False P1) by done. rewrite filter_cons.
    destruct (decide (P2 a)); [by apply sublist_cons|done].
Qed.

Lemma drop_subseteq_le (l : list Z) i j : (i ≤ j)%nat → drop j l ⊆ drop i l.
Proof.
  intros Hij. replace j with (i + (j - i))%nat by lia. rewrite <-drop_drop.
  apply sublist_subseteq, sublist_drop.
Qed.

Lemma lookup_total_elem_of_drop (l : list Z) i j :
  (i ≤ j)%nat → (j < length l)%nat → l !!! j ∈ drop i l.
Proof.
  intros Hij Hj. destruct (lookup_lt_is_Some_2 l j Hj) as [x Hx].
  rewrite (list_lookup_total_correct _ _ _ Hx).
  apply (list_elem_of_lookup_2 _ (j - i)). rewrite lookup_drop.
  by replace (i + (j - i))%nat with j by lia.
Qed.

(** The subsets found below a child whose key is in the query are subsets
    found below its parent. *)
Lemma kwords_subsets_sublist c k p (setarr : list Z) idx j :
  data c = Some k → k ∈ drop idx setarr → (idx ≤ j)%nat →
  (λ w, list_to_set (path_append p (data c) ++ w))
    <$> filter (λ w, w ⊆ drop j setarr) (words c)
  `sublist_of`
  (λ w, list_to_set (p ++ w) : gset Z)
    <$> filter (λ w, w ⊆ drop idx setarr) (kwords c).
Proof.
  intros Hk Hin Hij. unfold kwords. rewrite Hk. simpl.
  rewrite (filter_fmap_in _ _ (λ w, k :: w ⊆ drop idx setarr)) by done.
  assert (∀ X : list (list Z),
            (λ w, list_to_set ((p ++ [k]) ++ w)) <$> X
            =@{list (gset Z)} (λ w, list_to_set (p ++ w)) <$> (cons k <$> X)) as ->.
  { intros X. rewrite <-list_fmap_compose. apply list_fmap_ext.
    intros _ w _. simpl. by rewrite <-app_assoc. }
  do 2 apply fmap_sublist. apply filter_sublist_mono.
  intros w Hw x [->|Hx]%elem_of_cons; [done|].
  by apply (drop_subseteq_le setarr idx j), Hw.
Qed.

(** [_itersubsets] yields stored sequences included in the rest of the
    query, in the order of [words] and without repetition; it may leave
    some out, as [test_subsets] shows. *)
Lemma _itersubsets_sound n : ∀ setarr idx path,
  _itersubsets n setarr idx path
  `sublist_of`
  (λ w, list_to_set (path_append path (data n) ++ w))
    <$> filter (λ w, w ⊆ drop idx setarr) (words n).
Proof.
  induction n as [d fl cs IH] using Node_ind. intros setarr idx path.
  rewrite words_eq, filter_app, fmap_app. simpl.
  generalize (path_append path d). intros p. apply sublist_app.
  { rewrite filter_all by (intros w Hw; destruct fl;
      [apply list_elem_of_singleton in Hw as ->; by intros y ?%elem_of_nil
      |by apply elem_of_nil in Hw]).
    destruct fl; simpl; by rewrite ?app_nil_r. }
  assert (∀ i, (idx ≤ i)%nat →
    (fix loop (cs0 : list Node) (idx0 : nat) {struct cs0} : list (gset Z) :=
       match cs0 with
       | [] => []
       | child :: cs' =>
           if exhausted setarr idx0 then []
           else if py_eq (data child) (Some (setarr !!! idx0))
           then _itersubsets child setarr (S idx0) p ++ loop cs' idx0
           else
             let '(ys, idx') :=
               (fix while (k idx1 : nat) {struct k} : list (gset Z) * nat :=
                  if bool_decide (idx1 < length setarr)%nat
                     && py_ge (data child) (Some (setarr !!! idx1))
                  then
                    if py_eq (data child) (Some (setarr !!! idx1))
                    then (_itersubsets child setarr idx1 p, idx1)
                    else match k with
                         | O => ([], idx1)
                         | S k' => while k' (S idx1)
                         end
                  else ([], idx1))
                 (length setarr - S idx0)%nat (S idx0) in
             ys ++ loop cs' idx'
       end) cs i
    `sublist_of`
    (λ w, list_to_set (p ++ w)) <$> filter (λ w, w ⊆ drop idx setarr) (cwords cs))
    as Hloop; [|by apply Hloop].
  induction cs as [|c cs IHcs]; intros i Hi; [done|].
  apply Forall_cons in IH as [IHc IH]. specialize (IHcs IH).
  rewrite cwords_cons, filter_app, fmap_app.
  unfold exhausted. case_bool_decide as Hex; [apply sublist_nil_l|].
  assert (i < length setarr)%nat as Hilt by lia.
  unfold py_eq at 1. case_bool_decide as Heq.
  { apply sublist_app; [|by apply IHcs].
    etrans; [apply IHc|].
    apply (kwords_subsets_sublist c (setarr !!! i)); [done| |lia].
    by apply lookup_total_elem_of_drop. }
  match goal with
  | |- (let '(_, _) := ?pw ?k0 ?i0 in _) `sublist_of` _ =>
      assert (∀ k j, (idx ≤ j)%nat →
                (idx ≤ (pw k j).2)%nat ∧
                (pw k j).1 `sublist_of`
                  (λ w, list_to_set (p ++ w))
                    <$> filter (λ w, w ⊆ drop idx setarr) (kwords c)) as Hw;
      [|destruct (Hw k0 i0) as [Hle Hsub]; [lia|];
        destruct (pw k0 i0) as [ys idx']]
  end.
  { induction k as [|k IHk]; intros j Hj; simpl.
    - case_bool_decide as Hjlt; simpl; [|split; [done|apply sublist_nil_l]].
      destruct (py_ge _ _); [|split; [done|apply sublist_nil_l]].
      unfold py_eq. case_bool_decide as Hjeq; [|split; [done|apply sublist_nil_l]].
      split; [done|]. simpl. etrans; [apply IHc|].
      apply (kwords_subsets_sublist c (setarr !!! j)); [done| |done].
      by apply lookup_total_elem_of_drop.
    - case_bool_decide as Hjlt; simpl; [|split; [done|apply sublist_nil_l]].
      destruct (py_ge _ _); [|split; [done|apply sublist_nil_l]].
      unfold py_eq. case_bool_decide as Hjeq.
      + split; [done|]. simpl. etrans; [apply IHc|].
        apply (kwords_subsets_sublist c (setarr !!! j)); [done| |done].
        by apply lookup_total_elem_of_drop.
      + apply IHk. lia. }
  simpl in *. apply sublist_app; [done|]. by apply IHcs.
Qed.

(** On a trie built from sets, [itersubsets] yields stored subsets of the
    query only, each once and in the order of [aslist]. *)
Lemma itersubsets_sound (ss : list (gset Z)) (Q : gset Z) :
  let t := SetTrie_init (elements <$> ss) in
  itersubsets t (elements Q) `sublist_of` filter (λ S, S ⊆ Q) (aslist t).
Proof.
  intros t. destruct (init_wf ss) as [Hd Hwf]. fold t in Hd, Hwf.
  rewrite aslist_stored by done. unfold itersubsets, stored.
  etrans; [apply _itersubsets_sound|]. rewrite Hd, drop_0_eq. simpl.
  rewrite (filter_fmap_in list_to_set (λ S, S ⊆ Q)
             (λ w, w ⊆ sorted (elements Q))); [done|].
  intros w _. split.
  - intros Hsub x Hx. rewrite sorted_Permutation, elem_of_elements.
    by apply Hsub, elem_of_list_to_set.
  - intros Hsub x Hx%elem_of_list_to_set.
    apply Hsub in Hx. by rewrite sorted_Permutation, elem_of_elements in Hx.
Qed.

(** ** Queries on tries built from sets *)

Lemma sorted_elements_subseteq (S Q : gset Z) :
  sorted (elements S) ⊆ sorted (elements Q) ↔ S ⊆ Q.
Proof. by rewrite subseteq_sorted_elements, list_to_set_sorted_elements. Qed.

Lemma sorted_elements_nil (Q : gset Z) : sorted (elements Q) = [] ↔ Q = ∅.
Proof.
  split; intros H.
  - rewrite <-(list_to_set_sorted_elements Q), H. done.
  - subst Q. by rewrite elements_empty.
Qed.

Lemma hassubset_init (ss : list (gset Z)) (Q : gset Z) :
  hassubset (SetTrie_init (elements <$> ss)) (elements Q) = true ↔
  ∃ S, S ∈ ss ∧ S ⊆ Q.
Proof.
  unfold hassubset, _hassubset.
  rewrite _hassubset_words;
    [|done|apply init_wf|rewrite drop_0_eq; apply sorted_elements_ascending].
  rewrite drop_0_eq. fold (stored (SetTrie_init (elements <$> ss))).
  setoid_rewrite init_stored. split.
  - intros (w & (S & HS & ->) & Hsub). exists S. split; [done|].
    by apply sorted_elements_subseteq.
  - intros (S & HS & Hsub). exists (sorted (elements S)). split; [eauto|].
    by apply sorted_elements_subseteq.
Qed.

(** [hassuperset] answers [True] for the empty query and otherwise tells
    whether a stored set includes the query. *)
Lemma hassuperset_init (ss : list (gset Z)) (Q : gset Z) :
  hassuperset (SetTrie_init (elements <$> ss)) (elements Q) = true ↔
  Q = ∅ ∨ ∃ S, S ∈ ss ∧ Q ⊆ S.
Proof.
  pose proof (init_wf ss) as [Hd Hwf]. unfold hassuperset.
  rewrite _hassuperset_words;
    [|done|rewrite drop_0_eq; apply sorted_elements_ascending
     |rewrite Hd; apply above_None].
  rewrite drop_0_eq, sorted_elements_nil.
  fold (stored (SetTrie_init (elements <$> ss))).
  setoid_rewrite init_stored. split.
  - intros [?|(w & (S & HS & ->) & Hsub)]; [by left|right]. exists S.
    split; [done|]. by apply sorted_elements_subseteq.
  - intros [?|(S & HS & Hsub)]; [by left|right]. exists (sorted (elements S)).
    split; [eauto|]. by apply sorted_elements_subseteq.
Qed.

Lemma hassuperset_nil (t : SetTrie) : hassuperset t [] = true.
Proof. unfold hassuperset. by destruct (root t). Qed.

Lemma Map_hassuperset_nil {V} (m : SetTrieMap.SetTrieMap V) :
  SetTrieMap.hassuperset m [] = true.
Proof. unfold SetTrieMap.hassuperset. by destruct (SetTrieMap.root m). Qed.

(** ** SetTrieMap: the trie of its keys *)

Section sorted_list_fmap.
Context {A B : Type} (f : A → B).
Context (lt eq : A → A → bool) (lt' eq' : B → B → bool).
Context (Hlt : ∀ a b, lt' (f a) (f b) = lt a b).
Context (Heq : ∀ a b, eq' (f a) (f b) = eq a b).

Lemma SortedList_index_fmap cs v :
  SortedList_index lt' eq' (f <$> cs) (f v) = SortedList_index lt eq cs v.
Proof.
  induction cs as [|c cs IH]; [done|]. csimpl. by rewrite Hlt, Heq, IH.
Qed.

Lemma SortedList_add_fmap cs v :
  SortedList_add lt' (f <$> cs) (f v) = f <$> SortedList_add lt cs v.
Proof.
  induction cs as [|c cs IH]; [done|]. csimpl. rewrite Hlt.
  destruct (lt v c); [done|]. csimpl. by rewrite IH.
Qed.
End sorted_list_fmap.

Section map_proofs.
Context {V : Type}.
Implicit Types (n c : SetTrieMap.Node V) (cs : list (SetTrieMap.Node V)).
Implicit Types (m : SetTrieMap.SetTrieMap V) (val : option V).

Lemma MNode_ind (P : SetTrieMap.Node V → Prop) :
  (∀ d fl v cs, Forall P cs → P (SetTrieMap.mkNode d fl v cs)) → ∀ n, P n.
Proof.
  intros H. fix IH 1. intros [d fl v cs]. apply H.
  induction cs as [|c cs IHcs]; constructor; [apply IH | apply IHcs].
Qed.

Lemma erase_eq d fl v cs :
  erase (SetTrieMap.mkNode d fl v cs) = mkNode d fl (erase <$> cs).
Proof. reflexivity. Qed.

Lemma erase_data n : data (erase n) = SetTrieMap.data n.
Proof. by destruct n. Qed.

Lemma erase_flag_last n : flag_last (erase n) = SetTrieMap.flag_last n.
Proof. by destruct n. Qed.

Lemma erase_children n : children (erase n) = erase <$> SetTrieMap.children n.
Proof. by destruct n. Qed.

Lemma erase_keys cs : data <$> (erase <$> cs) = SetTrieMap.data <$> cs.
Proof.
  rewrite <-list_fmap_compose. apply list_fmap_ext. intros _ c _. apply erase_data.
Qed.

Lemma erase_index cs v :
  SortedList_index Node_lt Node_eq (erase <$> cs) (erase v)
  = SortedList_index SetTrieMap.Node_lt SetTrieMap.Node_eq cs v.
Proof.
  apply SortedList_index_fmap; intros a b;
    unfold Node_lt, Node_eq, SetTrieMap.Node_lt, SetTrieMap.Node_eq;
    by rewrite !erase_data.
Qed.

Lemma erase_add cs v :
  SortedList_add Node_lt (erase <$> cs) (erase v)
  = erase <$> SortedList_add SetTrieMap.Node_lt cs v.
Proof.
  apply SortedList_add_fmap; intros a b;
    unfold Node_lt, SetTrieMap.Node_lt; by rewrite !erase_data.
Qed.

(** [_assign] acts on the keys as [_add] does. *)
Lemma erase_assign it : ∀ n val,
  erase (SetTrieMap._assign n it val) = _add (erase n) it.
Proof.
  induction it as [|x it IH]; intros [d fl v cs] val; [done|].
  cbn [SetTrieMap._assign _add]. rewrite erase_children, erase_data, erase_flag_last.
  cbn [SetTrieMap.children SetTrieMap.data SetTrieMap.flag_last].
  change (Node_new (Some x)) with (erase (SetTrieMap.Node_new (V:=V) (Some x))).
  rewrite erase_index.
  destruct (SortedList_index _ _ cs _) as [i|].
  - rewrite list_lookup_fmap. destruct (cs !! i) as [c|]; [|done].
    by rewrite erase_eq, list_fmap_insert, IH.
  - by rewrite erase_eq, <-(IH _ val), erase_add.
Qed.

Lemma key_trie_new : key_trie (V:=V) SetTrieMap.SetTrieMap_new = SetTrie_new.
Proof. done. Qed.

Lemma key_trie_assign m akey val :
  key_trie (SetTrieMap.assign m akey val) = add (key_trie m) akey.
Proof. unfold key_trie, add. simpl. by rewrite erase_assign. Qed.

End map_proofs.

(** ** SetTrieMap: keys with their values *)

Section map_values.
Context {V : Type}.
Implicit Types (n c : SetTrieMap.Node V) (cs : list (SetTrieMap.Node V)).
Implicit Types (m : SetTrieMap.SetTrieMap V) (val : option V).

Lemma mwords_eq d fl v cs :
  mwords (SetTrieMap.mkNode d fl v cs) = (if fl then [([], v)] else []) ++ cmwords cs.
Proof. reflexivity. Qed.

Lemma cmwords_middle (l1 : list (SetTrieMap.Node V)) c l2 :
  cmwords (l1 ++ c :: l2) = cmwords l1 ++ kmwords c ++ cmwords l2.
Proof. unfold cmwords. by rewrite bind_app, bind_cons. Qed.

Lemma cmwords_app (l1 l2 : list (SetTrieMap.Node V)) :
  cmwords (l1 ++ l2) = cmwords l1 ++ cmwords l2.
Proof. unfold cmwords. by rewrite bind_app. Qed.

Lemma elem_of_kmwords c w v :
  (w, v) ∈ kmwords c ↔
  ∃ w', w = opt_cons (SetTrieMap.data c) w' ∧ (w', v) ∈ mwords c.
Proof.
  unfold kmwords. rewrite list_elem_of_fmap. split.
  - intros ([w' v'] & [= -> ->] & Hin). eauto.
  - intros (w' & -> & Hin). by exists (w', v).
Qed.

Lemma elem_of_cmwords cs w v :
  (w, v) ∈ cmwords cs ↔
  ∃ c w', c ∈ cs ∧ (w', v) ∈ mwords c ∧ w = opt_cons (SetTrieMap.data c) w'.
Proof.
  unfold cmwords. rewrite list_elem_of_bind. split.
  - intros (c & (w' & -> & Hw)%elem_of_kmwords & Hc). eauto.
  - intros (c & w' & Hc & Hw & ->). exists c. split; [|done].
    apply elem_of_kmwords. eauto.
Qed.

(** The sequences of [mwords] are those of the trie of the keys. *)
Lemma mwords_fst n : (mwords n).*1 = words (erase n).
Proof.
  induction n as [d fl v cs IH] using MNode_ind.
  rewrite mwords_eq, erase_eq, words_eq, fmap_app. f_equal; [by destruct fl|].
  induction IH as [|c cs Hc _ IHcs]; [done|].
  unfold cmwords, cwords in *. rewrite fmap_cons, !bind_cons, fmap_app, IHcs. f_equal.
  unfold kmwords, kwords. rewrite <-Hc, erase_data, <-!list_fmap_compose.
  apply list_fmap_ext. by intros _ [w v'] _.
Qed.

(** [_iter] enumerates [mwords], projected by [mode]. *)
Lemma Map_iter_mwords n path mode :
  SetTrieMap._iter n path mode
  = (λ wv, SetTrieMap.yield_item mode
             (path_append path (SetTrieMap.data n) ++ wv.1) wv.2) <$> mwords n.
Proof.
  revert path. induction n as [d fl v cs IH] using MNode_ind. intros path.
  rewrite mwords_eq, fmap_app. simpl. f_equal.
  { destruct fl; simpl; [by rewrite app_nil_r|done]. }
  generalize (path_append path d). intros p.
  induction IH as [|c cs Hc _ IHcs]; [done|].
  unfold cmwords in *. rewrite bind_cons, fmap_app, <-IHcs, Hc. f_equal.
  unfold kmwords. rewrite <-list_fmap_compose. apply list_fmap_ext.
  intros _ [w v'] _. simpl. by rewrite path_append_app.
Qed.

Lemma Map_assign_data n it val :
  SetTrieMap.data (SetTrieMap._assign n it val) = SetTrieMap.data n.
Proof. by rewrite <-!erase_data, erase_assign, _add_data. Qed.

(** One step of [_assign] on a node whose children are sorted. *)
Lemma _assign_cons d fl v cs x it val :
  Forall (olt d) (SetTrieMap.data <$> cs) →
  StronglySorted olt (SetTrieMap.data <$> cs) →
  ∃ l1 c0 l2,
    SetTrieMap._assign (SetTrieMap.mkNode d fl v cs) (x :: it) val
    = SetTrieMap.mkNode d fl v (l1 ++ SetTrieMap._assign c0 it val :: l2) ∧
    SetTrieMap.data c0 = Some x ∧
    Forall (λ c, kbelow (SetTrieMap.data c) x) l1 ∧
    Forall (λ c, kabove (SetTrieMap.data c) x) l2 ∧
    (cs = l1 ++ c0 :: l2 ∨ (cs = l1 ++ l2 ∧ c0 = SetTrieMap.Node_new (Some x))).
Proof.
  intros Hd Hs.
  destruct (locate_gen SetTrieMap.data d cs x (SetTrieMap.Node_new (Some x))
              eq_refl Hd Hs)
    as (l1 & l2 & Hl1 & Hl2 & [(c0 & Hc0 & -> & Hi)|(-> & Hi & Hadd)]).
  - exists l1, c0, l2. repeat split; [|done..|by left].
    cbn [SetTrieMap._assign SetTrieMap.children SetTrieMap.data
         SetTrieMap.flag_last SetTrieMap.value].
    unfold SetTrieMap.Node_lt, SetTrieMap.Node_eq. rewrite Hi.
    rewrite list_lookup_middle by done.
    rewrite insert_app_r_alt by done. by rewrite Nat.sub_diag.
  - exists l1, (SetTrieMap.Node_new (Some x)), l2. repeat split; [|done..|by right].
    cbn [SetTrieMap._assign SetTrieMap.children SetTrieMap.data
         SetTrieMap.flag_last SetTrieMap.value].
    unfold SetTrieMap.Node_lt, SetTrieMap.Node_eq. rewrite Hi.
    rewrite Hadd; [done|]. by rewrite Map_assign_data.
Qed.

Lemma wf_erase_children d fl v cs :
  wf (erase (SetTrieMap.mkNode d fl v cs)) →
  Forall (olt d) (SetTrieMap.data <$> cs) ∧
  StronglySorted olt (SetTrieMap.data <$> cs) ∧
  Forall (λ c, wf (erase c)) cs.
Proof.
  rewrite erase_eq. intros (Hd & Hs & Hwfs & _)%wf_eq.
  rewrite erase_keys in Hd, Hs. by rewrite Forall_fmap in Hwfs.
Qed.

(** [get] after [assign] with the same key returns the value assigned. *)
Lemma _get_assign it : ∀ n val default,
  wf (erase n) →
  SetTrieMap._get (SetTrieMap._assign n it val) it default = val.
Proof.
  induction it as [|x it IH]; intros [d fl v cs] val default Hwf; [done|].
  destruct (wf_erase_children _ _ _ _ Hwf) as (Hd & Hs & Hwfs).
  destruct (_assign_cons d fl v cs x it val Hd Hs)
    as (l1 & c0 & l2 & -> & Hc0 & Hl1 & _ & Hcase).
  cbn [SetTrieMap._get SetTrieMap.children].
  unfold SetTrieMap.Node_lt, SetTrieMap.Node_eq.
  rewrite (index_middle SetTrieMap.data l1 l2 _ x);
    [|done|by rewrite Map_assign_data|done].
  rewrite list_lookup_middle by done. apply IH.
  destruct Hcase as [->|[_ ->]]; [|apply wf_Node_new].
  by apply wf_split in Hwfs as (_ & ? & _).
Qed.

End map_values.

Section map_assign.
Context {V : Type}.
Implicit Types (n c : SetTrieMap.Node V) (cs : list (SetTrieMap.Node V)).
Implicit Types (m : SetTrieMap.SetTrieMap V) (val : option V).

Lemma cmwords_head cs w v :
  Forall (λ c, is_Some (SetTrieMap.data c)) cs →
  (w, v) ∈ cmwords cs →
  ∃ c k w', c ∈ cs ∧ SetTrieMap.data c = Some k ∧ w = k :: w'.
Proof.
  intros Hs (c & w' & Hc & _ & ->)%elem_of_cmwords.
  rewrite Forall_forall in Hs. destruct (Hs c Hc) as [k Hk].
  exists c, k, w'. by rewrite Hk.
Qed.

Lemma kbelow_is_Some k x : kbelow k x → is_Some k.
Proof. destruct k; [eauto|done]. Qed.

Lemma kabove_is_Some k x : kabove k x → is_Some k.
Proof. destruct k; [eauto|done]. Qed.

(** The pairs stored after [_assign]: the new pair, and the old pairs with
    other keys. *)
Lemma _assign_mwords it : ∀ n val w v,
  wf (erase n) →
  (w, v) ∈ mwords (SetTrieMap._assign n it val) ↔
  (w = it ∧ v = val) ∨ (w ≠ it ∧ (w, v) ∈ mwords n).
Proof.
  induction it as [|x it IH]; intros [d fl v0 cs] val w v Hwf;
    destruct (wf_erase_children _ _ _ _ Hwf) as (Hd & Hs & Hwfs).
  { cbn [SetTrieMap._assign SetTrieMap.data SetTrieMap.children].
    rewrite !mwords_eq, !elem_of_app, list_elem_of_singleton.
    assert ((w, v) ∈ cmwords cs → w ≠ []) as Hne.
    { intros (c & k & w' & _ & _ & ->)%cmwords_head; [done|].
      rewrite Forall_fmap in Hd. eapply Forall_impl; [exact Hd|].
      intros c Hc. by eapply olt_is_Some. }
    split.
    - intros [[= -> ->]|Hin]; [by left|right]. split; [by apply Hne|by right].
    - intros [[-> ->]|[Hw [Hin|Hin]]]; [by left| |by right].
      destruct fl; [by apply list_elem_of_singleton in Hin as [= -> ->]|
                    by apply elem_of_nil in Hin]. }
  destruct (_assign_cons d fl v0 cs x it val Hd Hs)
    as (l1 & c0 & l2 & -> & Hc0 & Hl1 & Hl2 & Hcase).
  assert (wf (erase c0) ∧ cmwords cs = cmwords l1 ++ kmwords c0 ++ cmwords l2)
    as [Hwf0 Hcs].
  { destruct Hcase as [->|[-> ->]].
    - split; [|apply cmwords_middle]. by apply wf_split in Hwfs as (_ & ? & _).
    - split; [apply wf_Node_new|]. by rewrite cmwords_app. }
  rewrite !mwords_eq, Hcs, cmwords_middle, !elem_of_app.
  assert ((w, v) ∈ (if fl then [([], v0)] else []) → w ≠ x :: it) as F1.
  { destruct fl; [by intros [= -> ->]%list_elem_of_singleton|by intros ?%elem_of_nil]. }
  assert ((w, v) ∈ cmwords l1 → w ≠ x :: it) as F2.
  { intros (c & k & w' & Hc & Hk & ->)%cmwords_head.
    - rewrite Forall_forall in Hl1. specialize (Hl1 c Hc). rewrite Hk in Hl1.
      simpl in Hl1. intros [= -> _]. lia.
    - eapply Forall_impl; [exact Hl1|]. intros c. apply kbelow_is_Some. }
  assert ((w, v) ∈ cmwords l2 → w ≠ x :: it) as F3.
  { intros (c & k & w' & Hc & Hk & ->)%cmwords_head.
    - rewrite Forall_forall in Hl2. specialize (Hl2 c Hc). rewrite Hk in Hl2.
      simpl in Hl2. intros [= -> _]. lia.
    - eapply Forall_impl; [exact Hl2|]. intros c. apply kabove_is_Some. }
  rewrite !elem_of_kmwords, Map_assign_data, Hc0. simpl.
  setoid_rewrite (IH c0 val _ v Hwf0). split.
  - intros [Hin|[Hin|[(w' & -> & [[-> ->]|[Hne Hin]])|Hin]]]; auto 10.
    right. split; [congruence|]. eauto 10.
  - intros [[-> ->]|[Hne [Hin|[Hin|[(w' & -> & Hin)|Hin]]]]]; auto 10.
    + right. right. left. exists it. auto.
    + right. right. left. exists w'. split; [done|]. right. split; [congruence|done].
Qed.

Lemma key_trie_foldl (kvs : list (gset Z * option V)) : ∀ m,
  key_trie (foldl (λ t kv, SetTrieMap.assign t kv.1 kv.2) m
              ((λ kv, (elements kv.1, kv.2)) <$> kvs))
  = foldl add (key_trie m) (elements <$> kvs.*1).
Proof.
  induction kvs as [|[K v] kvs IH]; intros m; [done|]. csimpl.
  by rewrite IH, key_trie_assign.
Qed.

(** The keys of a map built from set-keyed pairs form a trie built from
    those sets. *)
Lemma key_trie_init (kvs : list (gset Z * option V)) :
  key_trie (SetTrieMap.SetTrieMap_init ((λ kv, (elements kv.1, kv.2)) <$> kvs))
  = SetTrie_init (elements <$> kvs.*1).
Proof. unfold SetTrieMap.SetTrieMap_init. by rewrite key_trie_foldl. Qed.

Lemma Map_keys_aslist m :
  wf_trie (key_trie m) →
  SetTrieMap.keys m = SetTrieMap.ItemKey <$> aslist (key_trie m).
Proof.
  intros [Hd Hwf]. rewrite aslist_stored by done.
  unfold SetTrieMap.keys, SetTrieMap.iter, stored, key_trie in *. simpl in *.
  rewrite Map_iter_mwords, <-mwords_fst, <-!list_fmap_compose.
  rewrite erase_data in Hd. rewrite Hd. done.
Qed.

Lemma Map_items_mwords m :
  wf_trie (key_trie m) →
  SetTrieMap.items m
  = (λ wv, SetTrieMap.ItemPair (list_to_set wv.1) wv.2)
      <$> mwords (SetTrieMap.root m).
Proof.
  intros [Hd Hwf]. unfold SetTrieMap.items, SetTrieMap.iter, key_trie in *.
  simpl in *. rewrite Map_iter_mwords. rewrite erase_data in Hd. rewrite Hd. done.
Qed.

End map_assign.

(** ** The queries on the store *)

Section heap_frame.
Context {V : Type}.
Implicit Types (σ : gmap positive (Heap.Obj V)).

Lemma preserves_ret {A} (a : A) : Heap.preserves (V:=V) (Heap.ret a).
Proof. by intros σ. Qed.

Lemma preserves_raise {A} : Heap.preserves (V:=V) (Heap.raise (A:=A)).
Proof. by intros σ. Qed.

Lemma preserves_load l : Heap.preserves (V:=V) (Heap.load l).
Proof. by intros σ. Qed.

(** A new object takes a reference that the store does not hold. *)
Lemma preserves_new o : Heap.preserves (V:=V) (Heap.new o).
Proof.
  intros σ. simpl. apply insert_subseteq, not_elem_of_dom, is_fresh.
Qed.

Lemma preserves_bind {A B} (c : Heap.M V A) (k : A → Heap.M V B) :
  Heap.preserves c → (∀ a, Heap.preserves (k a)) → Heap.preserves (Heap.bind c k).
Proof.
  intros Hc Hk σ. unfold Heap.bind. specialize (Hc σ).
  destruct (c σ) as [[a|] σ']; simpl in *; [|done].
  etrans; [exact Hc|apply Hk].
Qed.

Lemma preserves_Node d : Heap.preserves (V:=V) (Heap.Node d).
Proof. apply preserves_new. Qed.

End heap_frame.

Create HintDb frame discriminated.
#[export] Hint Resolve preserves_ret preserves_raise preserves_load
  preserves_new preserves_Node : frame.

(** Splits a computation at its binds and branches. *)
Ltac frame_step :=
  match goal with
  | |- Heap.preserves (Heap.bind _ _) => apply preserves_bind; [|intros ?]
  | |- Heap.preserves (if ?b then _ else _) => destruct b
  | |- Heap.preserves (match ?x with Some _ => _ | None => _ end) => destruct x
  | |- Heap.preserves (match ?x with O => _ | S _ => _ end) => destruct x
  | |- Heap.preserves _ => solve [auto with frame]
  end.
Ltac frame := repeat frame_step.

Section heap_queries.
Context {V : Type}.

Lemma preserves_index ls probe :
  Heap.preserves (V:=V) (Heap.SortedList_index ls probe).
Proof. induction ls as [|l ls IH]; simpl; frame. Qed.

Lemma preserves_contains it : ∀ node,
  Heap.preserves (V:=V) (Heap._contains node it).
Proof.
  pose proof preserves_index.
  induction it as [|d it IH]; intros node; simpl; frame.
Qed.

Lemma preserves_get it : ∀ node default,
  Heap.preserves (V:=V) (Heap._get node it default).
Proof.
  pose proof preserves_index.
  induction it as [|d it IH]; intros node default; simpl; frame.
Qed.

Lemma preserves_hassuperset fuel : ∀ node setarr idx,
  Heap.preserves (V:=V) (Heap._hassuperset fuel node setarr idx).
Proof.
  induction fuel as [|fuel IH]; intros node setarr idx; simpl; frame.
  generalize (Heap.obj_children a). intros ls.
  induction ls as [|child ls IHls]; frame.
Qed.

Lemma preserves_itersupersets fuel : ∀ node setarr idx path,
  Heap.preserves (V:=V) (Heap._itersupersets fuel node setarr idx path).
Proof.
  induction fuel as [|fuel IH]; intros node setarr idx path; simpl; frame.
  - generalize (Heap.obj_children a). intros ls.
    induction ls as [|child ls IHls]; frame.
  - generalize (Heap.obj_children a). intros ls.
    induction ls as [|child ls IHls]; frame.
Qed.

Lemma preserves_hassubset_rec k : ∀ node setarr idx,
  Heap.preserves (V:=V) (Heap._hassubset_rec k node setarr idx).
Proof.
  pose proof preserves_index.
  induction k as [|k IH]; intros node setarr idx; simpl; frame.
Qed.

Lemma preserves_itersubsets fuel : ∀ node setarr idx path,
  Heap.preserves (V:=V) (Heap._itersubsets fuel node setarr idx path).
Proof.
  induction fuel as [|fuel IH]; intros node setarr idx path; simpl; frame.
  generalize (Heap.obj_children a). intros ls. revert idx.
  induction ls as [|child ls IHls]; intros idx; frame.
  generalize (length setarr - S idx)%nat. intros k. generalize (S idx).
  induction k as [|k IHk]; intros i; simpl; frame.
Qed.

Lemma preserves_iter fuel : ∀ node path,
  Heap.preserves (V:=V) (Heap._iter fuel node path).
Proof.
  induction fuel as [|fuel IH]; intros node path; simpl; frame.
  generalize (Heap.obj_children a). intros ls.
  induction ls as [|child ls IHls]; frame.
Qed.

End heap_queries.

(** ** The store and the trees *)

Section heap_repr.
Context {V : Type}.
Implicit Types (σ : gmap positive (Heap.Obj V)) (n c : SetTrieMap.Node V).
Implicit Types (cs : list (SetTrieMap.Node V)) (ls : list positive).

Lemma repr_eq σ l d fl v cs :
  Heap.repr σ l (SetTrieMap.mkNode d fl v cs) ↔
  ∃ ls, σ !! l = Some (Heap.mkObj d fl v ls) ∧ Forall2 (Heap.repr σ) ls cs.
Proof.
  simpl. f_equiv. intros ls. f_equiv. revert cs.
  induction ls as [|l' ls IH]; intros [|c cs]; split;
    try done; try by inv 1.
  - intros [Hc Hcs]. constructor; [done|]. by apply IH.
  - inv 1. split; [done|]. by apply IH.
Qed.

Lemma height_eq d fl v cs :
  Heap.height (SetTrieMap.mkNode d fl v cs)
  = S (foldr (λ c h, Nat.max (Heap.height c) h) O cs).
Proof. reflexivity. Qed.

Lemma height_children cs fuel :
  (foldr (λ c h, Nat.max (Heap.height c) h) O cs < fuel)%nat →
  Forall (λ c, (Heap.height c < fuel)%nat) cs.
Proof.
  induction cs as [|c cs IH]; simpl; intros Hlt; constructor; [lia|].
  apply IH. lia.
Qed.

(** The trees held by a store are held by every larger store. *)
Lemma repr_mono σ σ' n : ∀ l, σ ⊆ σ' → Heap.repr σ l n → Heap.repr σ' l n.
Proof.
  induction n as [d fl v cs IH] using MNode_ind. intros l Hsub.
  rewrite !repr_eq. intros (ls & Hl & Hcs). exists ls. split.
  - by eapply lookup_weaken.
  - clear Hl. induction Hcs as [|l' c ls cs Hc _ IHcs]; constructor.
    + apply Forall_cons in IH as [IHc _]. by apply IHc.
    + apply Forall_cons in IH as [_ IH]. by apply IHcs.
Qed.

Lemma Forall2_repr_mono σ σ' ls cs :
  σ ⊆ σ' → Forall2 (Heap.repr σ) ls cs → Forall2 (Heap.repr σ') ls cs.
Proof.
  intros Hsub Hcs. eapply Forall2_impl; [exact Hcs|].
  intros l c. by apply repr_mono.
Qed.

End heap_repr.

(** ** The queries on the store compute what the queries on trees do *)

Section heap_agree.
Context {V : Type}.
Implicit Types (σ : gmap positive (Heap.Obj V)) (n c : SetTrieMap.Node V).
Implicit Types (cs : list (SetTrieMap.Node V)) (ls : list positive).

Lemma bind_Some {A B} (c : Heap.M V A) (k : A → Heap.M V B) σ σ' a :
  c σ = (Some a, σ') → Heap.bind c k σ = k a σ'.
Proof. intros H. unfold Heap.bind. by rewrite H. Qed.

Lemma load_Some σ l o : σ !! l = Some o → Heap.load l σ = (Some o, σ).
Proof. intros H. unfold Heap.load. by rewrite H. Qed.

Lemma repr_load σ l n :
  Heap.repr σ l n →
  ∃ ls, σ !! l = Some (Heap.mkObj (SetTrieMap.data n) (SetTrieMap.flag_last n)
                         (SetTrieMap.value n) ls) ∧
        Forall2 (Heap.repr σ) ls (SetTrieMap.children n).
Proof. destruct n as [d fl v cs]. by rewrite repr_eq. Qed.

Lemma _iter_agree n : ∀ fuel l path σ,
  Heap.repr σ l n → (Heap.height n < fuel)%nat →
  Heap._iter fuel l path σ = (Some (_iter (erase n) path), σ).
Proof.
  induction n as [d fl v cs IH] using MNode_ind. intros [|fuel] l path σ Hr Hh;
    [lia|].
  apply repr_eq in Hr as (ls & Hl & Hcs). rewrite height_eq in Hh.
  apply Nat.succ_lt_mono, height_children in Hh.
  rewrite erase_eq. simpl.
  rewrite (bind_Some _ _ _ _ _ (load_Some _ _ _ Hl)). simpl.
  generalize (path_append path d). intros p.
  erewrite bind_Some; [reflexivity|].
  clear Hl. induction Hcs as [|l' c ls cs Hc _ IHcs]; [done|].
  apply Forall_cons in IH as [IHc IH]. apply Forall_cons in Hh as [Hhc Hh].
  rewrite (bind_Some _ _ _ _ _ (IHc fuel l' p σ Hc Hhc)).
  rewrite (bind_Some _ _ _ _ _ (IHcs IH Hh)). done.
Qed.

Lemma repr_load_data σ l c :
  Heap.repr σ l c →
  ∃ o, σ !! l = Some o ∧ Heap.obj_data o = data (erase c).
Proof.
  intros (ls & Hl & _)%repr_load. eexists. split; [exact Hl|].
  by rewrite erase_data.
Qed.

Lemma _hassuperset_agree n : ∀ fuel l setarr idx σ,
  Heap.repr σ l n → (Heap.height n < fuel)%nat →
  Heap._hassuperset fuel l setarr idx σ
  = (Some (_hassuperset (erase n) setarr idx), σ).
Proof.
  induction n as [d fl v cs IH] using MNode_ind.
  intros [|fuel] l setarr idx σ Hr Hh; [lia|].
  apply repr_eq in Hr as (ls & Hl & Hcs). rewrite height_eq in Hh.
  apply Nat.succ_lt_mono, height_children in Hh.
  rewrite erase_eq. simpl. destruct (exhausted setarr idx); [done|].
  rewrite (bind_Some _ _ _ _ _ (load_Some _ _ _ Hl)). simpl.
  clear Hl. induction Hcs as [|l' c ls cs Hc _ IHcs]; [done|].
  apply Forall_cons in IH as [IHc IH]. apply Forall_cons in Hh as [Hhc Hh].
  destruct (repr_load_data σ l' c Hc) as (o & Hl' & Ho).
  rewrite (bind_Some _ _ _ _ _ (load_Some _ _ _ Hl')). csimpl. rewrite Ho.
  destruct (data (erase c)) as [k|];
    [destruct (setarr !!! idx <? k)%Z; [done|]|];
    (destruct (py_eq _ _);
     [rewrite (bind_Some _ _ _ _ _ (IHc fuel l' setarr (S idx) σ Hc Hhc))
     |rewrite (bind_Some _ _ _ _ _ (IHc fuel l' setarr idx σ Hc Hhc))];
     (destruct (_hassuperset (erase c) _ _); [done|by apply IHcs])).
Qed.

Lemma _itersupersets_agree n : ∀ fuel l setarr idx path σ,
  Heap.repr σ l n → (Heap.height n < fuel)%nat →
  Heap._itersupersets fuel l setarr idx path σ
  = (Some (_itersupersets (erase n) setarr idx path), σ).
Proof.
  induction n as [d fl v cs IH] using MNode_ind.
  intros [|fuel] l setarr idx path σ Hr Hh; [lia|].
  apply repr_eq in Hr as (ls & Hl & Hcs). rewrite height_eq in Hh.
  apply Nat.succ_lt_mono, height_children in Hh.
  rewrite erase_eq. simpl.
  rewrite (bind_Some _ _ _ _ _ (load_Some _ _ _ Hl)). simpl.
  generalize (path_append path d). intros p.
  erewrite bind_Some; [reflexivity|]. clear Hl.
  destruct (exhausted setarr idx); simpl.
  - induction Hcs as [|l' c ls cs Hc _ IHcs]; [done|].
    apply Forall_cons in IH as [IHc IH]. apply Forall_cons in Hh as [Hhc Hh].
    rewrite (bind_Some _ _ _ _ _ (IHc fuel l' setarr idx p σ Hc Hhc)).
    by rewrite (bind_Some _ _ _ _ _ (IHcs IH Hh)).
  - induction Hcs as [|l' c ls cs Hc _ IHcs]; [done|].
    apply Forall_cons in IH as [IHc IH]. apply Forall_cons in Hh as [Hhc Hh].
    destruct (repr_load_data σ l' c Hc) as (o & Hl' & Ho).
    rewrite (bind_Some _ _ _ _ _ (load_Some _ _ _ Hl')). csimpl. rewrite Ho.
    destruct (data (erase c)) as [k|];
      [destruct (setarr !!! idx <? k)%Z; [done|]|];
      (destruct (py_eq _ _);
       [rewrite (bind_Some _ _ _ _ _ (IHc fuel l' setarr (S idx) p σ Hc Hhc))
       |rewrite (bind_Some _ _ _ _ _ (IHc fuel l' setarr idx p σ Hc Hhc))];
       by rewrite (bind_Some _ _ _ _ _ (IHcs IH Hh))).
Qed.

Lemma _itersubsets_agree n : ∀ fuel l setarr idx path σ,
  Heap.repr σ l n → (Heap.height n < fuel)%nat →
  Heap._itersubsets fuel l setarr idx path σ
  = (Some (_itersubsets (erase n) setarr idx path), σ).
Proof.
  induction n as [d fl v cs IH] using MNode_ind.
  intros [|fuel] l setarr idx path σ Hr Hh; [lia|].
  apply repr_eq in Hr as (ls & Hl & Hcs). rewrite height_eq in Hh.
  apply Nat.succ_lt_mono, height_children in Hh.
  rewrite erase_eq. simpl.
  rewrite (bind_Some _ _ _ _ _ (load_Some _ _ _ Hl)). simpl.
  generalize (path_append path d). intros p.
  erewrite bind_Some; [reflexivity|]. clear Hl. revert idx.
  induction Hcs as [|l' c ls cs Hc _ IHcs]; intros idx; [done|].
  apply Forall_cons in IH as [IHc IH]. apply Forall_cons in Hh as [Hhc Hh].
  csimpl. destruct (exhausted setarr idx); [done|].
  destruct (repr_load_data σ l' c Hc) as (o & Hl' & Ho).
  rewrite (bind_Some _ _ _ _ _ (load_Some _ _ _ Hl')). rewrite Ho.
  destruct (py_eq (data (erase c)) _).
  { rewrite (bind_Some _ _ _ _ _ (IHc fuel l' setarr (S idx) p σ Hc Hhc)).
    by rewrite (bind_Some _ _ _ _ _ (IHcs IH Hh idx)). }
  match goal with
  | |- Heap.bind (?hw ?k0 ?i0) _ σ = (Some (let '(_, _) := ?pw ?k0 ?i0 in _), σ) =>
      assert (∀ k i, hw k i σ = (Some (pw k i), σ)) as Hw;
      [|rewrite (bind_Some _ _ _ _ _ (Hw k0 i0)); destruct (pw k0 i0) as [ys idx']]
  end.
  { induction k as [|k IHk]; intros i; simpl.
    - destruct (_ && _); [|reflexivity].
      destruct (py_eq _ _); [|reflexivity].
      by rewrite (bind_Some _ _ _ _ _ (IHc fuel l' setarr i p σ Hc Hhc)).
    - destruct (_ && _); [|reflexivity].
      destruct (py_eq _ _); [|apply IHk].
      by rewrite (bind_Some _ _ _ _ _ (IHc fuel l' setarr i p σ Hc Hhc)). }
  simpl. by rewrite (bind_Some _ _ _ _ _ (IHcs IH Hh idx')).
Qed.

Lemma index_agree σ ls cs probe o x :
  Forall2 (Heap.repr σ) ls cs →
  σ !! probe = Some o → Heap.obj_data o = Some x →
  Heap.SortedList_index ls probe σ
  = (Some (SortedList_index SetTrieMap.Node_lt SetTrieMap.Node_eq cs
             (SetTrieMap.Node_new (Some x))), σ).
Proof.
  intros Hcs Hp Hx. induction Hcs as [|l c ls cs Hc _ IH]; [done|].
  destruct (repr_load_data σ l c Hc) as (oc & Hl & Hoc). csimpl.
  rewrite (bind_Some _ _ _ _ _ (load_Some _ _ _ Hl)).
  rewrite (bind_Some _ _ _ _ _ (load_Some _ _ _ Hp)).
  unfold SetTrieMap.Node_lt, SetTrieMap.Node_eq. simpl.
  rewrite Hoc, Hx, erase_data.
  destruct (py_lt _ _); [by rewrite (bind_Some _ _ _ _ _ IH)|].
  by destruct (py_eq _ _).
Qed.

(** Creating the probe node leaves the trees in place. *)
Lemma Node_new_repr σ d ls cs :
  Forall2 (Heap.repr σ) ls cs →
  ∃ p σ', Heap.Node d σ = (Some p, σ') ∧ σ ⊆ σ' ∧
    σ' !! p = Some (Heap.mkObj d false None []) ∧
    Forall2 (Heap.repr σ') ls cs.
Proof.
  intros Hcs. exists (fresh (dom σ)), (<[fresh (dom σ) := Heap.mkObj d false None []]> σ).
  assert (σ ⊆ <[fresh (dom σ) := Heap.mkObj d false None []]> σ) as Hsub.
  { apply insert_subseteq, not_elem_of_dom, is_fresh. }
  repeat split; [done|apply lookup_insert_eq|by eapply Forall2_repr_mono].
Qed.

Lemma _contains_agree it : ∀ n l σ,
  Heap.repr σ l n →
  ∃ σ', Heap._contains l it σ = (Some (_contains (erase n) it), σ').
Proof.
  induction it as [|d it IH]; intros n l σ Hr;
    destruct (repr_load σ l n Hr) as (ls & Hl & Hcs); simpl;
    rewrite (bind_Some _ _ _ _ _ (load_Some _ _ _ Hl)); simpl.
  { exists σ. by rewrite erase_flag_last. }
  destruct (Node_new_repr σ (Some d) _ _ Hcs) as (p & σ1 & Hn & _ & Hp & Hcs1).
  rewrite (bind_Some _ _ _ _ _ Hn).
  rewrite (bind_Some _ _ _ _ _ (index_agree σ1 _ _ p _ d Hcs1 Hp eq_refl)).
  change (Node_new (Some d)) with (erase (SetTrieMap.Node_new (V:=V) (Some d))).
  rewrite erase_children, erase_index.
  destruct (SortedList_index _ _ _ _) as [i|]; [|by exists σ1].
  rewrite list_lookup_fmap.
  destruct (ls !! i) as [li|] eqn:Hli.
  - destruct (Forall2_lookup_l _ _ _ _ _ Hcs1 Hli) as (ci & -> & Hci). simpl.
    by apply IH.
  - apply lookup_ge_None in Hli. rewrite (Forall2_length _ _ _ Hcs1) in Hli.
    apply lookup_ge_None in Hli. rewrite Hli. by exists σ1.
Qed.

Lemma _get_agree it : ∀ n l default σ,
  Heap.repr σ l n →
  ∃ σ', Heap._get l it default σ = (Some (SetTrieMap._get n it default), σ').
Proof.
  induction it as [|d it IH]; intros n l default σ Hr;
    destruct (repr_load σ l n Hr) as (ls & Hl & Hcs); simpl;
    rewrite (bind_Some _ _ _ _ _ (load_Some _ _ _ Hl)); simpl.
  { by exists σ. }
  destruct (Node_new_repr σ (Some d) _ _ Hcs) as (p & σ1 & Hn & _ & Hp & Hcs1).
  rewrite (bind_Some _ _ _ _ _ Hn).
  rewrite (bind_Some _ _ _ _ _ (index_agree σ1 _ _ p _ d Hcs1 Hp eq_refl)).
  destruct (SortedList_index _ _ _ _) as [i|]; [|by exists σ1].
  destruct (ls !! i) as [li|] eqn:Hli.
  - destruct (Forall2_lookup_l _ _ _ _ _ Hcs1 Hli) as (ci & -> & Hci).
    by apply IH.
  - apply lookup_ge_None in Hli. rewrite (Forall2_length _ _ _ Hcs1) in Hli.
    apply lookup_ge_None in Hli. rewrite Hli. by exists σ1.
Qed.

Lemma _hassubset_rec_agree setarr k : ∀ n l idx σ,
  Heap.repr σ l n →
  ∃ σ', Heap._hassubset_rec k l setarr idx σ
        = (Some (_hassubset_rec k (erase n) setarr idx), σ').
Proof.
  induction k as [|k IH]; intros n l idx σ Hr;
    destruct (repr_load σ l n Hr) as (ls & Hl & Hcs); simpl;
    rewrite (bind_Some _ _ _ _ _ (load_Some _ _ _ Hl)); simpl;
    rewrite erase_flag_last;
    (destruct (SetTrieMap.flag_last n); [by exists σ|]);
    (destruct (exhausted setarr idx); [by exists σ|]).
  { by exists σ. }
  set (x := setarr !!! idx).
  destruct (Node_new_repr σ (Some x) _ _ Hcs) as (p & σ1 & Hn & Hsub1 & Hp & Hcs1).
  change (Node_new (Some x)) with (erase (SetTrieMap.Node_new (V:=V) (Some x))).
  rewrite erase_children, erase_index.
  assert (∃ σ2, σ1 ⊆ σ2 ∧
    Heap.bind (Heap.Node (Some x))
      (λ probe, Heap.bind (Heap.SortedList_index ls probe)
         (λ r, match r with
               | Some c => match ls !! c with
                           | Some child => Heap._hassubset_rec k child setarr (S idx)
                           | None => Heap.ret false
                           end
               | None => Heap.ret false
               end)) σ
    = (Some match SortedList_index SetTrieMap.Node_lt SetTrieMap.Node_eq
                    (SetTrieMap.children n) (SetTrieMap.Node_new (Some x)) with
            | Some c => match (erase <$> SetTrieMap.children n) !! c with
                        | Some child => _hassubset_rec k child setarr (S idx)
                        | None => false
                        end
            | None => false
            end, σ2)) as (σ2 & Hsub2 & Hfound).
  { rewrite (bind_Some _ _ _ _ _ Hn).
    rewrite (bind_Some _ _ _ _ _ (index_agree σ1 _ _ p _ x Hcs1 Hp eq_refl)).
    destruct (SortedList_index _ _ _ _) as [i|]; [|by exists σ1].
    rewrite list_lookup_fmap. destruct (ls !! i) as [li|] eqn:Hli.
    - destruct (Forall2_lookup_l _ _ _ _ _ Hcs1 Hli) as (ci & -> & Hci). simpl.
      destruct (IH ci li (S idx) σ1 Hci) as (σ2 & Heq). exists σ2.
      split; [|done].
      pose proof (preserves_hassubset_rec k li setarr (S idx) σ1) as Hp2.
      by rewrite Heq in Hp2.
    - apply lookup_ge_None in Hli. rewrite (Forall2_length _ _ _ Hcs1) in Hli.
      apply lookup_ge_None in Hli. rewrite Hli. by exists σ1. }
  rewrite (bind_Some _ _ _ _ _ Hfound).
  destruct (match SortedList_index _ _ _ _ with Some _ => _ | None => _ end);
    simpl; [by exists σ2|].
  apply IH. eapply repr_mono; [|exact Hr]. by etrans.
Qed.

End heap_agree.

Section heap_results.
Context {V : Type}.
Implicit Types (σ : gmap positive (Heap.Obj V)) (n c : SetTrieMap.Node V).

(** A store holds one tree at a reference. *)
Lemma repr_inj σ n : ∀ n' l, Heap.repr σ l n → Heap.repr σ l n' → n = n'.
Proof.
  induction n as [d fl v cs IH] using MNode_ind. intros [d' fl' v' cs'] l.
  rewrite !repr_eq. intros (ls & Hl & Hcs) (ls' & Hl' & Hcs').
  rewrite Hl in Hl'. injection Hl' as <- <- <- <-. f_equal.
  clear Hl. revert cs' Hcs'. induction Hcs as [|l1 c ls cs Hc _ IHcs]; intros cs' Hcs'.
  { by inv Hcs'. }
  inv Hcs'. apply Forall_cons in IH as [IHc IH]. f_equal; [by eapply IHc|].
  by apply IHcs.
Qed.

(** With fuel above the height of the tree, the queries on the store
    return what the queries on the tree return; those that build no probe
    node leave the store as it is. *)
Lemma heap_queries_agree σ root n fuel it setarr idx path default :
  Heap.repr σ root n → (Heap.height n < fuel)%nat →
  (∃ σ', Heap._contains root it σ = (Some (_contains (erase n) it), σ')) ∧
  (∃ σ', Heap._get root it default σ
         = (Some (SetTrieMap._get n it default), σ')) ∧
  Heap._hassuperset fuel root setarr idx σ
  = (Some (_hassuperset (erase n) setarr idx), σ) ∧
  (∃ σ', Heap._hassubset root setarr idx σ
         = (Some (_hassubset (erase n) setarr idx), σ')) ∧
  Heap._itersupersets fuel root setarr idx path σ
  = (Some (_itersupersets (erase n) setarr idx path), σ) ∧
  Heap._itersubsets fuel root setarr idx path σ
  = (Some (_itersubsets (erase n) setarr idx path), σ) ∧
  Heap._iter fuel root path σ = (Some (_iter (erase n) path), σ).
Proof.
  intros Hr Hh. repeat split.
  - by apply _contains_agree.
  - by apply _get_agree.
  - by apply _hassuperset_agree.
  - by apply _hassubset_rec_agree.
  - by apply _itersupersets_agree.
  - by apply _itersubsets_agree.
  - by apply _iter_agree.
Qed.

End heap_results.

(** [_add] does write: it sets [flag_last] of the node that ends the set. *)
Example heap_add_writes :
  let σ : gmap positive (Heap.Obj unit) := {[1%positive := Heap.mkObj None false None []]} in
  (Heap._add 1%positive [] σ).2 !! 1%positive = Some (Heap.mkObj None true None []) ∧
  ¬ σ ⊆ (Heap._add 1%positive [] σ).2.
Proof.
  intros σ. split; [done|]. intros Hsub.
  assert (σ !! 1%positive = Some (Heap.mkObj None false None [])) as H1 by done.
  by apply (lookup_weaken _ _ _ _ H1) in Hsub.
Qed.

(** ** The shape of a trie is determined by the sets it stores *)

Lemma app_eq_split {A} (P : A → Prop) `{∀ x, Decision (P x)} (l1 r1 l2 r2 : list A) :
  Forall P l1 → Forall P l2 →
  Forall (λ x, ¬ P x) r1 → Forall (λ x, ¬ P x) r2 →
  l1 ++ r1 = l2 ++ r2 → l1 = l2 ∧ r1 = r2.
Proof.
  intros Hl1 Hl2 Hr1 Hr2 Heq.
  assert (∀ l r, Forall P l → Forall (λ x, ¬ P x) r → filter P (l ++ r) = l) as Hf.
  { intros l r Hl Hr. rewrite filter_app.
    rewrite (filter_all P l) by by apply Forall_forall.
    rewrite (filter_none P r); [by rewrite app_nil_r|by apply Forall_forall]. }
  assert (l1 = l2) as ->.
  { by rewrite <-(Hf l1 r1), <-(Hf l2 r2), Heq. }
  split; [done|]. by apply app_inv_head in Heq.
Qed.

Lemma kwords_nonempty c : wf c → live c → kwords c ≠ [].
Proof.
  intros Hwf Hl Hnil. destruct (words_live c Hwf Hl) as [w Hw].
  assert (opt_cons (data c) w ∈ kwords c) as Hin by (apply elem_of_kwords; eauto).
  rewrite Hnil in Hin. by apply elem_of_nil in Hin.
Qed.

(** The words below a list of sorted children, split at the first key. *)
Lemma cwords_first_key (k : Z) c cs :
  data c = Some k → Forall (olt (Some k)) (data <$> cs) →
  Forall (λ w, head w = Some k) (kwords c) ∧
  Forall (λ w, ¬ head w = Some k) (cwords cs).
Proof.
  intros Hk Hcs. split; apply Forall_forall; intros w.
  - intros (w' & -> & _)%elem_of_kwords. by rewrite Hk.
  - intros (c' & w' & Hc' & _ & ->)%elem_of_cwords.
    rewrite Forall_fmap, Forall_forall in Hcs. specialize (Hcs c' Hc'). simpl in Hcs.
    destruct (data c') as [k'|]; simpl in *; [|done]. intros [=]. lia.
Qed.

Lemma children_words_inj cs1 : ∀ cs2,
  Forall (λ c, ∀ c', wf c → wf c' → data c = data c' → words c = words c' → c = c') cs1 →
  StronglySorted olt (data <$> cs1) → StronglySorted olt (data <$> cs2) →
  Forall (λ c, is_Some (data c)) cs1 → Forall (λ c, is_Some (data c)) cs2 →
  Forall wf cs1 → Forall wf cs2 → Forall live cs1 → Forall live cs2 →
  cwords cs1 = cwords cs2 → cs1 = cs2.
Proof.
  induction cs1 as [|c1 cs1 IHcs]; intros [|c2 cs2] IH Hs1 Hs2 Hk1 Hk2 Hw1 Hw2 Hl1 Hl2 Heq.
  - done.
  - apply Forall_cons in Hw2 as [Hw2 _]. apply Forall_cons in Hl2 as [Hl2 _].
    rewrite cwords_cons in Heq. symmetry in Heq. apply app_eq_nil in Heq as [Heq _].
    by apply kwords_nonempty in Heq.
  - apply Forall_cons in Hw1 as [Hw1 _]. apply Forall_cons in Hl1 as [Hl1 _].
    rewrite cwords_cons in Heq. apply app_eq_nil in Heq as [Heq _].
    by apply kwords_nonempty in Heq.
  - apply Forall_cons in IH as [IHc IH].
    rewrite fmap_cons in Hs1, Hs2.
    apply StronglySorted_cons in Hs1 as [Hc1 Hs1].
    apply StronglySorted_cons in Hs2 as [Hc2 Hs2].
    apply Forall_cons in Hk1 as [[k1 Hk1] Hks1]. apply Forall_cons in Hk2 as [[k2 Hk2] Hks2].
    apply Forall_cons in Hw1 as [Hw1 Hws1]. apply Forall_cons in Hw2 as [Hw2 Hws2].
    apply Forall_cons in Hl1 as [Hl1 Hls1]. apply Forall_cons in Hl2 as [Hl2 Hls2].
    rewrite Hk1 in Hc1. rewrite Hk2 in Hc2.
    destruct (cwords_first_key k1 c1 cs1 Hk1 Hc1) as [Ha1 Hb1].
    destruct (cwords_first_key k2 c2 cs2 Hk2 Hc2) as [Ha2 Hb2].
    rewrite !cwords_cons in Heq.
    assert (k1 = k2) as <-.
    { pose proof (kwords_nonempty c1 Hw1 Hl1) as Hn1.
      pose proof (kwords_nonempty c2 Hw2 Hl2) as Hn2.
      destruct (kwords c1) as [|w1 l1]; [done|]. destruct (kwords c2) as [|w2 l2]; [done|].
      apply Forall_cons in Ha1 as [Ha1 _]. apply Forall_cons in Ha2 as [Ha2 _].
      injection Heq as -> _. congruence. }
    apply (app_eq_split (λ w, head w = Some k1)) in Heq as [Hkw Hcw]; [|done..].
    assert (c1 = c2) as <-.
    { apply IHc; [done|done|congruence|].
      unfold kwords in Hkw. rewrite Hk1, Hk2 in Hkw. simpl in Hkw.
      by apply (inj (fmap (cons k1))) in Hkw. }
    f_equal. by apply IHcs.
Qed.

(** Two well-formed nodes with the same key that store the same sequences
    are the same tree. *)
Lemma words_inj n : ∀ n',
  wf n → wf n' → data n = data n' → words n = words n' → n = n'.
Proof.
  induction n as [d fl cs IH] using Node_ind. intros [d' fl' cs'] Hwf Hwf' Hd Heq.
  simpl in Hd. subst d'.
  pose proof (wf_children_data _ Hwf) as Hk. pose proof (wf_children_data _ Hwf') as Hk'.
  simpl in Hk, Hk'.
  apply wf_eq in Hwf as (Hd & Hs & Hwfs & Hlive).
  apply wf_eq in Hwf' as (Hd' & Hs' & Hwfs' & Hlive').
  rewrite !words_eq in Heq.
  pose proof (cwords_nonempty d cs Hd) as Hne.
  pose proof (cwords_nonempty d cs' Hd') as Hne'.
  assert (fl = fl' ∧ cwords cs = cwords cs') as [<- Hcw].
  { destruct fl, fl'; simpl in Heq.
    - by injection Heq.
    - exfalso. apply Hne'. rewrite <-Heq. by left.
    - exfalso. apply Hne. rewrite Heq. by left.
    - done. }
  f_equal. apply children_words_inj; try done.
  - eapply Forall_impl; [exact Hk|]. by intros c [? _].
  - eapply Forall_impl; [exact Hk'|]. by intros c [? _].
Qed.

(** Two well-formed tries that store the same sequences are equal. *)
Lemma trie_ext t1 t2 :
  wf_trie t1 → wf_trie t2 →
  (∀ w, w ∈ stored t1 ↔ w ∈ stored t2) → t1 = t2.
Proof.
  intros Hwf1 Hwf2 Hiff. pose proof (stored_ext t1 t2 Hwf1 Hwf2 Hiff) as Heq.
  destruct t1 as [n1], t2 as [n2]. f_equal.
  destruct Hwf1 as [Hd1 Hw1], Hwf2 as [Hd2 Hw2]. simpl in *.
  apply words_inj; [done|done|congruence|done].
Qed.

(** ** More on the queries on tries built from sets *)

Lemma not_nil_elem_of {A} (l : list A) : l ≠ [] ↔ ∃ x, x ∈ l.
Proof.
  destruct l as [|a l]; split; try done.
  - by intros [x ?%elem_of_nil].
  - intros _. exists a. by left.
Qed.

Lemma supersets_init (ss : list (gset Z)) (Q S : gset Z) :
  S ∈ supersets (SetTrie_init (elements <$> ss)) (elements Q) ↔ S ∈ ss ∧ Q ⊆ S.
Proof.
  unfold supersets. rewrite itersupersets_filter by apply init_wf.
  by rewrite list_elem_of_filter, init_aslist, (comm and).
Qed.

Lemma sorted_list_to_set (l : list Z) :
  NoDup l → sorted (elements (list_to_set l : gset Z)) = sorted l.
Proof.
  intros Hnd. apply sorted_unique; [by apply sorted_ascending|].
  rewrite sorted_Permutation. by apply elements_list_to_set.
Qed.

Lemma sorted_nil (l : list Z) : sorted l = [] ↔ l = [].
Proof.
  split; [|by intros ->]. intros H. apply Permutation_nil_r.
  rewrite <-H. symmetry. apply sorted_Permutation.
Qed.

Lemma _hassubset_rec_leaf k d s : ∀ i, _hassubset_rec k (Node_new d) s i = false.
Proof.
  induction k as [|k IH]; intros i; simpl; destruct (exhausted s i); auto.
Qed.

(** ** [_itersubsets]: where it finds every subset *)

Lemma ascending_lookup_lt (s : list Z) i j a b :
  ascending s → (i < j)%nat → s !! i = Some a → s !! j = Some b → (a < b)%Z.
Proof.
  intros Hs. revert i j. induction Hs as [|x s Hs IH Hx]; intros i j Hij Hi Hj.
  { by rewrite lookup_nil in Hi. }
  destruct j as [|j]; [lia|]. simpl in Hj. destruct i as [|i]; simpl in Hi.
  - injection Hi as ->. rewrite Forall_forall in Hx. apply Hx.
    by eapply list_elem_of_lookup_2.
  - apply (IH i j); [lia|done..].
Qed.

(** An element of the query above [setarr[j]] lies beyond position [j]. *)
Lemma elem_of_drop_above (s : list Z) i j y :
  ascending s → (j < length s)%nat → y ∈ drop i s → (s !!! j < y)%Z →
  y ∈ drop (S j) s.
Proof.
  intros Hs Hj Hy Hlt.
  apply list_elem_of_lookup in Hy as [m Hm]. rewrite lookup_drop in Hm.
  destruct (lookup_lt_is_Some_2 s j Hj) as [b Hb].
  rewrite (list_lookup_total_correct _ _ _ Hb) in Hlt.
  destruct (decide (i + m ≤ j)%nat) as [Hle|Hgt].
  - destruct (decide (i + m = j)%nat) as [Heq|Hne].
    + rewrite Heq in Hm. simplify_eq. lia.
    + pose proof (ascending_lookup_lt s (i + m) j y b Hs) as H.
      specialize (H ltac:(lia) Hm Hb). lia.
  - apply (list_elem_of_lookup_2 _ (i + m - S j)). rewrite lookup_drop.
    by replace (S j + (i + m - S j))%nat with (i + m)%nat by lia.
Qed.

Lemma words_above_key c k w y :
  wf c → data c = Some k → w ∈ words c → y ∈ w → (k < y)%Z.
Proof.
  intros Hwf Hk Hw Hy. destruct (words_ascending c Hwf w Hw) as [_ Hab].
  unfold above in Hab. rewrite Forall_forall in Hab. specialize (Hab y Hy).
  by rewrite Hk in Hab.
Qed.

Lemma _itersubsets_complete n : ∀ setarr idx path,
  wf n → ascending setarr →
  (∀ w, w ∈ words n → w ⊆ drop idx setarr) →
  _itersubsets n setarr idx path = _iter n path.
Proof.
  induction n as [d fl cs IH] using Node_ind. intros setarr idx path Hwf Hs Hall.
  apply wf_eq in Hwf as (Hd & Hsd & Hwfs & Hlive).
  simpl. f_equal. generalize (path_append path d). intros p.
  assert (∀ w, w ∈ cwords cs → w ⊆ drop idx setarr) as Hcw.
  { intros w Hw. apply Hall. rewrite words_eq. apply elem_of_app. by right. }
  clear Hall. revert idx Hcw.
  induction cs as [|c cs IHcs]; intros i Hcw; [done|].
  rewrite fmap_cons in Hd, Hsd. apply Forall_cons in Hd as [Hdc Hd].
  apply StronglySorted_cons in Hsd as [Hkc Hsd].
  apply Forall_cons in Hwfs as [Hwc Hwfs]. apply Forall_cons in Hlive as [Hlc Hlive].
  apply Forall_cons in IH as [IHc IH].
  specialize (IHcs IH Hd Hsd Hwfs Hlive).
  destruct (words_live c Hwc Hlc) as [w0 Hw0].
  destruct (olt_is_Some _ _ Hdc) as [k Hk]. rewrite Hk in Hkc.
  assert (∀ w, w ∈ words c → k :: w ⊆ drop i setarr) as Hkw.
  { intros w Hw. apply Hcw. rewrite cwords_cons. apply elem_of_app. left.
    apply elem_of_kwords. exists w. by rewrite Hk. }
  assert (k ∈ drop i setarr) as Hkin by (apply (Hkw w0 Hw0); by left).
  assert (∀ j w y, (j < length setarr)%nat → setarr !!! j = k →
                   w ∈ words c → y ∈ w → y ∈ drop (S j) setarr) as Hbelow.
  { intros j w y Hj Hjk Hw Hy. apply (elem_of_drop_above setarr i); [done..| |].
    - apply (Hkw w Hw). by right.
    - rewrite Hjk. by apply (words_above_key c k w). }
  assert (∀ j w, (j < length setarr)%nat → setarr !!! j = k →
                 w ∈ cwords cs → w ⊆ drop (S j) setarr) as Hrest.
  { intros j w Hj Hjk Hw y Hy. apply (elem_of_drop_above setarr i); [done..| |].
    - apply (Hcw w); [|done]. rewrite cwords_cons. apply elem_of_app. by right.
    - rewrite Hjk. apply elem_of_cwords in Hw as (c' & w' & Hc' & Hw' & ->).
      rewrite Forall_forall in Hkc. rewrite Forall_forall in Hwfs.
      assert (olt (Some k) (data c')) as Hkc'.
      { apply Hkc. apply list_elem_of_fmap. eauto. }
      destruct (data c') as [k'|] eqn:Hk'; [|done]. simpl in Hkc'. simpl.
      apply elem_of_cons in Hy as [->|Hy]; [done|].
      pose proof (words_above_key c' k' w' y (Hwfs c' Hc') Hk' Hw' Hy). lia. }
  destruct (exhausted_spec setarr i) as [[He Hq]|[He Hq]]; rewrite He.
  { rewrite Hq in Hkin. by apply elem_of_nil in Hkin. }
  assert (i < length setarr)%nat as Hi.
  { apply (f_equal length) in Hq. rewrite length_drop in Hq. simpl in Hq. lia. }
  rewrite Hk. unfold py_eq at 1. case_bool_decide as Heq.
  { injection Heq as Heq. f_equal.
    - apply IHc; [done..|]. intros w Hw y Hy. by apply (Hbelow i w).
    - apply IHcs. intros w Hw y Hy. apply (drop_subseteq_le setarr i (S i)); [lia|].
      by apply (Hrest i w). }
  (* the key is further on in the query, at position [j] *)
  assert (∃ j, (S i ≤ j)%nat ∧ setarr !! j = Some k) as (j & Hij & Hj).
  { rewrite Hq in Hkin. apply elem_of_cons in Hkin as [->|Hkin]; [done|].
    apply list_elem_of_lookup in Hkin as [m Hm]. rewrite lookup_drop in Hm.
    exists (S i + m)%nat. split; [lia|done]. }
  assert (j < length setarr)%nat as Hjlen by (by eapply lookup_lt_Some).
  assert (setarr !!! j = k) as Hjk by (by apply list_lookup_total_correct).
  match goal with
  | |- (let '(_, _) := ?pw ?k0 ?i0 in _) = _ =>
      assert (∀ fuel j0, (j0 ≤ j)%nat → (j - j0 ≤ fuel)%nat →
                pw fuel j0 = (_itersubsets c setarr j p, j)) as Hwhile;
      [|rewrite (Hwhile k0 i0) by lia]
  end.
  { induction fuel as [|fuel IHf]; intros j0 Hj0 Hfuel.
    - assert (j0 = j) as -> by lia. simpl.
      rewrite bool_decide_eq_true_2 by done. rewrite Hjk. simpl.
      rewrite Z.leb_refl. unfold py_eq. by rewrite bool_decide_eq_true_2.
    - simpl. destruct (decide (j0 = j)) as [->|Hne].
      + rewrite bool_decide_eq_true_2 by done. rewrite Hjk. simpl.
        rewrite Z.leb_refl. unfold py_eq. by rewrite bool_decide_eq_true_2.
      + rewrite bool_decide_eq_true_2 by lia.
        destruct (lookup_lt_is_Some_2 setarr j0) as [a Ha]; [lia|].
        rewrite (list_lookup_total_correct _ _ _ Ha).
        pose proof (ascending_lookup_lt setarr j0 j a k Hs ltac:(lia) Ha Hj) as Hlt.
        simpl. destruct (Z.leb_spec a k); [|lia]. unfold py_eq.
        rewrite bool_decide_eq_false_2 by (intros [=]; lia).
        apply IHf; lia. }
  f_equal.
  - apply IHc; [done..|]. intros w Hw y Hy.
    apply (drop_subseteq_le setarr j (S j)); [lia|]. by apply (Hbelow j w).
  - apply IHcs. intros w Hw y Hy. apply (drop_subseteq_le setarr j (S j)); [lia|].
    by apply (Hrest j w).
Qed.

(** ** SetTrieMap: its queries and the queries on the trie of its keys *)

Section map_queries.
Context {V : Type}.
Implicit Types (n c : SetTrieMap.Node V) (cs : list (SetTrieMap.Node V)).
Implicit Types (m : SetTrieMap.SetTrieMap V) (val : option V).

Lemma Map_contains_erase it : ∀ n,
  SetTrieMap._contains n it = _contains (erase n) it.
Proof.
  induction it as [|x it IH]; intros [d fl v cs]; [done|].
  cbn [SetTrieMap._contains _contains]. rewrite erase_children.
  cbn [SetTrieMap.children].
  change (Node_new (Some x)) with (erase (SetTrieMap.Node_new (V:=V) (Some x))).
  rewrite erase_index.
  destruct (SortedList_index _ _ cs _) as [i|]; [|done].
  rewrite list_lookup_fmap. destruct (cs !! i) as [c|]; [|done]. apply IH.
Qed.

Lemma Map_hassuperset_erase n : ∀ setarr idx,
  SetTrieMap._hassuperset n setarr idx = _hassuperset (erase n) setarr idx.
Proof.
  induction n as [d fl v cs IH] using MNode_ind. intros setarr idx.
  rewrite erase_eq. simpl. destruct (exhausted setarr idx); [done|].
  induction IH as [|c cs Hc _ IHcs]; [done|].
  rewrite fmap_cons, erase_data, <-!Hc, IHcs. done.
Qed.

Lemma Map_hassubset_erase k : ∀ n setarr idx,
  SetTrieMap._hassubset_rec k n setarr idx = _hassubset_rec k (erase n) setarr idx.
Proof.
  induction k as [|k IH]; intros n setarr idx; simpl; rewrite erase_flag_last;
    [done|].
  destruct (SetTrieMap.flag_last n); [done|].
  destruct (exhausted setarr idx); [done|].
  rewrite erase_children.
  change (Node_new (Some (setarr !!! idx)))
    with (erase (SetTrieMap.Node_new (V:=V) (Some (setarr !!! idx)))).
  rewrite erase_index.
  destruct (SortedList_index _ _ _ _) as [i|]; [|by rewrite IH].
  rewrite list_lookup_fmap. destruct (SetTrieMap.children n !! i) as [c|]; simpl;
    by rewrite !IH.
Qed.

Lemma yield_item_keys path val :
  SetTrieMap.yield_item (Some "keys") path val = SetTrieMap.ItemKey (list_to_set path).
Proof. done. Qed.

Lemma Map_itersupersets_keys n : ∀ setarr idx path,
  SetTrieMap._itersupersets n setarr idx path (Some "keys")
  = SetTrieMap.ItemKey <$> _itersupersets (erase n) setarr idx path.
Proof.
  induction n as [d fl v cs IH] using MNode_ind. intros setarr idx path.
  rewrite erase_eq. cbn [SetTrieMap._itersupersets _itersupersets].
  rewrite fmap_app, yield_item_keys. f_equal; [by destruct (_ && _)|].
  generalize (path_append path d). intros p.
  destruct (negb (exhausted setarr idx)).
  - induction IH as [|c cs Hc _ IHcs]; [done|].
    rewrite fmap_cons, erase_data. destruct (py_gt _ _); [done|].
    rewrite fmap_app, <-IHcs. f_equal. destruct (py_eq _ _); apply Hc.
  - induction IH as [|c cs Hc _ IHcs]; [done|].
    rewrite fmap_cons, fmap_app, <-IHcs, <-Hc. done.
Qed.

Lemma Map_itersubsets_keys n : ∀ setarr idx path,
  SetTrieMap._itersubsets n setarr idx path (Some "keys")
  = SetTrieMap.ItemKey <$> _itersubsets (erase n) setarr idx path.
Proof.
  induction n as [d fl v cs IH] using MNode_ind. intros setarr idx path.
  rewrite erase_eq. cbn [SetTrieMap._itersubsets _itersubsets].
  rewrite fmap_app, yield_item_keys. f_equal; [by destruct fl|].
  generalize (path_append path d). intros p. revert idx.
  induction IH as [|c cs Hc _ IHcs]; intros idx; [done|].
  rewrite fmap_cons, erase_data. destruct (exhausted setarr idx); [done|].
  destruct (py_eq _ _); [by rewrite fmap_app, <-IHcs, <-Hc|].
  match goal with
  | |- (let '(_, _) := ?w1 ?k0 ?i0 in _) = _ <$> (let '(_, _) := ?w2 _ _ in _) =>
      assert (∀ k j, (w1 k j).1 = SetTrieMap.ItemKey <$> (w2 k j).1 ∧
                     (w1 k j).2 = (w2 k j).2) as Hw;
      [|destruct (Hw k0 i0) as [H1 H2];
        destruct (w1 k0 i0) as [ys i1]; destruct (w2 k0 i0) as [ys' i2]]
  end.
  { induction k as [|k IHk]; intros j; simpl;
      (destruct (_ && _); [|done]); (destruct (py_eq _ _); [by rewrite Hc|]);
      [done|apply IHk]. }
  simpl in *. subst. by rewrite fmap_app, <-IHcs.
Qed.

Lemma yield_item_project mode path val :
  SetTrieMap.yield_item mode path val
  = item_project mode (SetTrieMap.yield_item None path val).
Proof. done. Qed.

Lemma Map_iter_project n : ∀ path mode,
  SetTrieMap._iter n path mode = item_project mode <$> SetTrieMap._iter n path None.
Proof.
  intros path mode. rewrite !Map_iter_mwords, <-list_fmap_compose.
  apply list_fmap_ext. intros _ [w v] _. apply yield_item_project.
Qed.

Lemma Map_itersupersets_project n : ∀ setarr idx path mode,
  SetTrieMap._itersupersets n setarr idx path mode
  = item_project mode <$> SetTrieMap._itersupersets n setarr idx path None.
Proof.
  induction n as [d fl v cs IH] using MNode_ind. intros setarr idx path mode.
  cbn [SetTrieMap._itersupersets].
  rewrite fmap_app, (yield_item_project mode). f_equal; [by destruct (_ && _)|].
  generalize (path_append path d). intros p.
  destruct (negb (exhausted setarr idx)).
  - induction IH as [|c cs Hc _ IHcs]; [done|].
    destruct (py_gt _ _); [done|].
    rewrite fmap_app, <-IHcs. f_equal. destruct (py_eq _ _); apply Hc.
  - induction IH as [|c cs Hc _ IHcs]; [done|].
    rewrite fmap_app, <-IHcs, <-Hc. done.
Qed.

Lemma Map_itersubsets_project n : ∀ setarr idx path mode,
  SetTrieMap._itersubsets n setarr idx path mode
  = item_project mode <$> SetTrieMap._itersubsets n setarr idx path None.
Proof.
  induction n as [d fl v cs IH] using MNode_ind. intros setarr idx path mode.
  cbn [SetTrieMap._itersubsets].
  rewrite fmap_app, (yield_item_project mode). f_equal; [by destruct fl|].
  generalize (path_append path d). intros p. revert idx.
  induction IH as [|c cs Hc _ IHcs]; intros idx; [done|].
  destruct (exhausted setarr idx); [done|].
  destruct (py_eq _ _); [by rewrite fmap_app, <-IHcs, <-Hc|].
  match goal with
  | |- (let '(_, _) := ?w1 ?k0 ?i0 in _) = _ <$> (let '(_, _) := ?w2 _ _ in _) =>
      assert (∀ k j, (w1 k j).1 = item_project mode <$> (w2 k j).1 ∧
                     (w1 k j).2 = (w2 k j).2) as Hw;
      [|destruct (Hw k0 i0) as [H1 H2];
        destruct (w1 k0 i0) as [ys i1]; destruct (w2 k0 i0) as [ys' i2]]
  end.
  { induction k as [|k IHk]; intros j; simpl;
      (destruct (_ && _); [|done]); (destruct (py_eq _ _); [by rewrite Hc|]);
      [done|apply IHk]. }
  simpl in *. subst. by rewrite fmap_app, <-IHcs.
Qed.

(** ** [get] *)

Lemma cmwords_no_key cs x w v :
  Forall (λ c, kbelow (SetTrieMap.data c) x ∨ kabove (SetTrieMap.data c) x) cs →
  (x :: w, v) ∉ cmwords cs.
Proof.
  intros Hcs (c & w' & Hc & _ & Hw)%elem_of_cmwords.
  rewrite Forall_forall in Hcs. specialize (Hcs c Hc).
  destruct (SetTrieMap.data c) as [k|]; simpl in *; [|tauto].
  injection Hw as -> _. lia.
Qed.

(** Among sorted children only the child with key [x] holds pairs whose
    sequence starts with [x]. *)
Lemma cmwords_located (l1 l2 : list (SetTrieMap.Node V)) c0 x w v :
  SetTrieMap.data c0 = Some x →
  Forall (λ c, kbelow (SetTrieMap.data c) x) l1 →
  Forall (λ c, kabove (SetTrieMap.data c) x) l2 →
  (x :: w, v) ∈ cmwords (l1 ++ c0 :: l2) ↔ (w, v) ∈ mwords c0.
Proof.
  intros Hc0 Hl1 Hl2. rewrite cmwords_middle, !elem_of_app.
  assert ((x :: w, v) ∉ cmwords l1) as Hn1.
  { apply cmwords_no_key. eapply Forall_impl; [exact Hl1|]. auto. }
  assert ((x :: w, v) ∉ cmwords l2) as Hn2.
  { apply cmwords_no_key. eapply Forall_impl; [exact Hl2|]. auto. }
  rewrite elem_of_kmwords, Hc0. simpl. split.
  - intros [?|[(w' & [= ->] & ?)|?]]; done.
  - intros ?. right. left. eauto.
Qed.

Lemma cmwords_nonempty d cs v :
  Forall (olt d) (SetTrieMap.data <$> cs) → ([], v) ∉ cmwords cs.
Proof.
  intros Hd (c & k & w' & _ & _ & Hw)%cmwords_head; [done|].
  rewrite Forall_fmap in Hd. eapply Forall_impl; [exact Hd|].
  intros c Hc. by eapply olt_is_Some.
Qed.

(** [_get] returns the value paired with the sequence, and the default
    when the sequence is paired with no value. *)
Lemma _get_mwords it : ∀ n default,
  wf (erase n) →
  (∀ v, (it, v) ∈ mwords n → SetTrieMap._get n it default = v) ∧
  ((∀ v, (it, v) ∉ mwords n) → SetTrieMap._get n it default = default).
Proof.
  induction it as [|x it IH]; intros [d fl v0 cs] default Hwf;
    destruct (wf_erase_children _ _ _ _ Hwf) as (Hd & Hs & Hwfs);
    rewrite mwords_eq.
  { simpl. split.
    - intros v [Hv|Hv]%elem_of_app; [|by apply (cmwords_nonempty d) in Hv].
      destruct fl; [by apply list_elem_of_singleton in Hv as [= ->]|
                    by apply elem_of_nil in Hv].
    - intros Hno. destruct fl; [|done]. destruct (Hno v0).
      apply elem_of_app. left. by left. }
  assert (∀ v, (x :: it, v) ∈ (if fl then [([], v0)] else []) ++ cmwords cs ↔
               (x :: it, v) ∈ cmwords cs) as Hin.
  { intros v. rewrite elem_of_app. split; [|by right]. intros [Hv|?]; [|done].
    destruct fl; [by apply list_elem_of_singleton in Hv|by apply elem_of_nil in Hv]. }
  setoid_rewrite Hin.
  cbn [SetTrieMap._get SetTrieMap.children].
  destruct (locate_gen SetTrieMap.data d cs x (SetTrieMap.Node_new (Some x))
              eq_refl Hd Hs)
    as (l1 & l2 & Hl1 & Hl2 & [(c0 & Hc0 & -> & Hi)|(-> & Hi & _)]);
    unfold SetTrieMap.Node_lt, SetTrieMap.Node_eq; rewrite Hi.
  - rewrite list_lookup_middle by done.
    apply wf_split in Hwfs as (_ & Hwf0 & _).
    destruct (IH c0 default Hwf0) as [IH1 IH2].
    setoid_rewrite (cmwords_located l1 l2 c0 x it _ Hc0 Hl1 Hl2). done.
  - split; [|done]. intros v Hv. exfalso. revert Hv. apply cmwords_no_key.
    apply Forall_app. split.
    + eapply Forall_impl; [exact Hl1|]. auto.
    + eapply Forall_impl; [exact Hl2|]. auto.
Qed.

Lemma mwords_key_dec n (w : list Z) :
  (∃ v, (w, v) ∈ mwords n) ∨ (∀ v, (w, v) ∉ mwords n).
Proof.
  destruct (decide (w ∈ (mwords n).*1)) as [Hin|Hnin].
  - left. apply list_elem_of_fmap in Hin as ([w' v] & -> & Hin). eauto.
  - right. intros v Hin. apply Hnin. apply list_elem_of_fmap. by exists (w, v).
Qed.

(** [_assign] leaves the values of the other keys as they were. *)
Lemma _get_assign_ne n it it' val default :
  wf (erase n) → wf (erase (SetTrieMap._assign n it val)) → it ≠ it' →
  SetTrieMap._get (SetTrieMap._assign n it val) it' default
  = SetTrieMap._get n it' default.
Proof.
  intros Hwf Hwf' Hne.
  destruct (_get_mwords it' n default Hwf) as [G1 G2].
  destruct (_get_mwords it' (SetTrieMap._assign n it val) default Hwf') as [G1' G2'].
  destruct (mwords_key_dec n it') as [[v Hv]|Hno].
  - rewrite (G1 v Hv). apply G1'. apply _assign_mwords; [done|]. right. done.
  - rewrite (G2 Hno). apply G2'. intros v Hv.
    apply _assign_mwords in Hv as [[? _]|[_ Hv]]; [done| |done]. by apply (Hno v).
Qed.

Lemma sorted_elements_inj (K K' : gset Z) :
  sorted (elements K) = sorted (elements K') → K = K'.
Proof.
  intros Heq.
  by rewrite <-(list_to_set_sorted_elements K), Heq, list_to_set_sorted_elements.
Qed.

(** [get] after [assign]: the value assigned for the key assigned, the
    former answer for every other key. *)
Lemma get_assign m (K K' : gset Z) val default :
  wf_trie (key_trie m) →
  SetTrieMap.get (SetTrieMap.assign m (elements K') val) (elements K) default
  = if decide (K = K') then val else SetTrieMap.get m (elements K) default.
Proof.
  intros Hwf.
  assert (wf_trie (key_trie (SetTrieMap.assign m (elements K') val))) as Hwf'.
  { rewrite key_trie_assign. by apply add_wf. }
  unfold SetTrieMap.get, SetTrieMap.assign. simpl.
  destruct (decide (K = K')) as [->|Hne].
  - apply _get_assign, Hwf.
  - apply _get_assign_ne; [apply Hwf|apply Hwf'|].
    intros Heq. apply Hne. symmetry. by apply sorted_elements_inj.
Qed.

Lemma Map_init_snoc (kvs : list (gset Z * option V)) K val :
  SetTrieMap.SetTrieMap_init ((λ kv, (elements kv.1, kv.2)) <$> (kvs ++ [(K, val)]))
  = SetTrieMap.assign
      (SetTrieMap.SetTrieMap_init ((λ kv, (elements kv.1, kv.2)) <$> kvs))
      (elements K) val.
Proof. unfold SetTrieMap.SetTrieMap_init. by rewrite fmap_app, foldl_app. Qed.

Lemma Map_init_wf (kvs : list (gset Z * option V)) :
  wf_trie (key_trie
    (SetTrieMap.SetTrieMap_init ((λ kv, (elements kv.1, kv.2)) <$> kvs))).
Proof. rewrite key_trie_init. apply init_wf. Qed.

(** ** [SetTrieMap._itersupersets] *)

Lemma cmwords_cons c cs : cmwords (c :: cs) = kmwords c ++ cmwords cs.
Proof. done. Qed.

Lemma cmwords_fst cs : (cmwords cs).*1 = cwords (erase <$> cs).
Proof.
  induction cs as [|c cs IH]; [done|].
  rewrite cmwords_cons, fmap_cons, cwords_cons, fmap_app, IH. f_equal.
  unfold kmwords, kwords. rewrite <-mwords_fst, erase_data, <-!list_fmap_compose.
  apply list_fmap_ext. by intros _ [w v] _.
Qed.

Lemma cmwords_above d cs w v :
  Forall (olt d) (SetTrieMap.data <$> cs) → Forall (λ c, wf (erase c)) cs →
  (w, v) ∈ cmwords cs → above d w.
Proof.
  intros Hd Hwfs Hin. apply (cwords_above d (erase <$> cs)).
  - by rewrite erase_keys.
  - by apply Forall_fmap.
  - rewrite <-cmwords_fst. apply list_elem_of_fmap. by exists (w, v).
Qed.

(** [_itersupersets] yields, in the order of [mwords], the stored pairs
    whose sequence includes the rest of the query. *)
Lemma Map_itersupersets_mwords n : ∀ setarr idx path mode,
  wf (erase n) → ascending (drop idx setarr) →
  above (SetTrieMap.data n) (drop idx setarr) →
  SetTrieMap._itersupersets n setarr idx path mode
  = (λ wv, SetTrieMap.yield_item mode
             (path_append path (SetTrieMap.data n) ++ wv.1) wv.2)
      <$> filter (λ wv, drop idx setarr ⊆ wv.1) (mwords n).
Proof.
  induction n as [d fl v cs IH] using MNode_ind.
  intros setarr idx path mode Hwf Hasc Hab.
  destruct (wf_erase_children _ _ _ _ Hwf) as (Hd & Hs & Hwfs). clear Hwf.
  rewrite mwords_eq, filter_app, fmap_app.
  cbn [SetTrieMap._itersupersets SetTrieMap.data].
  generalize (path_append path d). intros p.
  destruct (exhausted_spec setarr idx) as [[He Hq]|[He Hq]]; rewrite He; simpl.
  - f_equal.
    { rewrite filter_all; [destruct fl; simpl; by rewrite ?app_nil_r|].
      intros w _. rewrite Hq. intros y Hy. by apply elem_of_nil in Hy. }
    clear Hd Hs. induction cs as [|c cs IHcs]; [done|].
    apply Forall_cons in IH as [IHc IH]. apply Forall_cons in Hwfs as [Hc Hwfs].
    rewrite cmwords_cons, filter_app, fmap_app, <-IHcs by done. f_equal.
    rewrite IHc; [|done|rewrite Hq; constructor..].
    unfold kmwords. rewrite Hq.
    rewrite !filter_all by (intros w _ y Hy; by apply elem_of_nil in Hy).
    rewrite <-list_fmap_compose. apply list_fmap_ext. intros _ [w v'] _. simpl.
    by rewrite path_append_app.
  - set (x := setarr !!! idx) in *. set (q := drop (S idx) setarr) in *.
    rewrite Hq in Hasc.
    destruct (ascending_cons_inv _ _ Hasc) as (Hxq & Hascq & Habq).
    f_equal.
    { rewrite andb_false_r, filter_none; [done|].
      intros [w v'] Hw. rewrite Hq. simpl. intros Hsub.
      assert (x ∈ w) as Hx by (apply Hsub; by left).
      destruct fl; [apply list_elem_of_singleton in Hw as [= -> ->]|];
        by apply elem_of_nil in Hx || by apply elem_of_nil in Hw. }
    clear Hab. revert Hd Hs Hwfs IH. induction cs as [|c cs IHcs]; [done|].
    intros Hd Hs Hwfs IH. rewrite fmap_cons in Hd, Hs.
    apply Forall_cons in Hd as [Hdc Hd]. apply StronglySorted_cons in Hs as [Hcs Hs].
    apply Forall_cons in IH as [IHc IH]. apply Forall_cons in Hwfs as [Hc Hwfs].
    destruct (olt_is_Some _ _ Hdc) as [k Hk].
    rewrite Hk.
    destruct (Z.ltb_spec x k) as [Hlt|Hge].
    { rewrite filter_none; [done|]. intros [w v'] Hw. rewrite Hq. simpl.
      apply not_subseteq_above.
      eapply (cmwords_above _ (c :: cs)); [|by constructor|exact Hw].
      rewrite fmap_cons. constructor; [by rewrite Hk|].
      eapply Forall_impl; [exact Hcs|]. intros b Hb. etrans; [|exact Hb].
      by rewrite Hk. }
    rewrite IHcs by done. rewrite cmwords_cons, filter_app, fmap_app. f_equal.
    unfold kmwords. rewrite Hk. simpl. unfold py_eq.
    case_bool_decide as Heq.
    + injection Heq as ->.
      rewrite IHc; [|done|by fold q|fold q; by rewrite Hk].
      fold q. rewrite Hq, Hk.
      rewrite (filter_fmap_in _ _ (λ wv, q ⊆ wv.1)).
      * rewrite <-list_fmap_compose. apply list_fmap_ext. intros _ [w v'] _. simpl.
        by rewrite <-app_assoc.
      * intros [w v'] _. simpl. by apply subseteq_cons_eq.
    + assert (k < x)%Z as Hkx.
      { destruct (Z.eq_dec k x) as [->|?]; [done|lia]. }
      rewrite IHc; [|done|by rewrite Hq|rewrite Hq, Hk; by apply above_lt].
      rewrite Hq, Hk.
      rewrite (filter_fmap_in _ _ (λ wv, x :: q ⊆ wv.1)).
      * rewrite <-list_fmap_compose. apply list_fmap_ext. intros _ [w v'] _. simpl.
        by rewrite <-app_assoc.
      * intros [w v'] _. simpl. by apply subseteq_cons_lt.
Qed.

(** ** [SetTrieMap._itersubsets] *)

Lemma kmwords_subsets_sublist c k p (setarr : list Z) idx j mode :
  SetTrieMap.data c = Some k → k ∈ drop idx setarr → (idx ≤ j)%nat →
  (λ wv, SetTrieMap.yield_item mode
           (path_append p (SetTrieMap.data c) ++ wv.1) wv.2)
    <$> filter (λ wv, wv.1 ⊆ drop j setarr) (mwords c)
  `sublist_of`
  (λ wv, SetTrieMap.yield_item mode (p ++ wv.1) wv.2)
    <$> filter (λ wv, wv.1 ⊆ drop idx setarr) (kmwords c).
Proof.
  intros Hk Hin Hij. unfold kmwords. rewrite Hk. simpl.
  rewrite (filter_fmap_in _ _ (λ wv, k :: wv.1 ⊆ drop idx setarr)) by by intros [].
  assert (∀ X : list (list Z * option V),
            (λ wv, SetTrieMap.yield_item mode ((p ++ [k]) ++ wv.1) wv.2) <$> X
            = (λ wv, SetTrieMap.yield_item mode (p ++ wv.1) wv.2)
                <$> (prod_map (cons k) id <$> X)) as ->.
  { intros X. rewrite <-list_fmap_compose. apply list_fmap_ext.
    intros _ [w v] _. simpl. by rewrite <-app_assoc. }
  do 2 apply fmap_sublist. apply filter_sublist_mono.
  intros [w v] Hw x [->|Hx]%elem_of_cons; [done|].
  by apply (drop_subseteq_le setarr idx j), Hw.
Qed.

(** [_itersubsets] yields stored pairs whose sequence is included in the
    rest of the query, in the order of [mwords] and without repetition. *)
Lemma Map_itersubsets_sound n : ∀ setarr idx path mode,
  SetTrieMap._itersubsets n setarr idx path mode
  `sublist_of`
  (λ wv, SetTrieMap.yield_item mode
           (path_append path (SetTrieMap.data n) ++ wv.1) wv.2)
    <$> filter (λ wv, wv.1 ⊆ drop idx setarr) (mwords n).
Proof.
  induction n as [d fl v cs IH] using MNode_ind. intros setarr idx path mode.
  rewrite mwords_eq, filter_app, fmap_app.
  cbn [SetTrieMap._itersubsets SetTrieMap.data].
  generalize (path_append path d). intros p. apply sublist_app.
  { rewrite filter_all by (intros w Hw; destruct fl;
      [apply list_elem_of_singleton in Hw as ->; by intros y ?%elem_of_nil
      |by apply elem_of_nil in Hw]).
    destruct fl; simpl; by rewrite ?app_nil_r. }
  match goal with
  | |- ?loop cs idx `sublist_of` _ =>
      assert (∀ i, (idx ≤ i)%nat →
        loop cs i `sublist_of`
        (λ wv, SetTrieMap.yield_item mode (p ++ wv.1) wv.2)
          <$> filter (λ wv, wv.1 ⊆ drop idx setarr) (cmwords cs))
        as Hloop; [|by apply Hloop]
  end.
  induction cs as [|c cs IHcs]; intros i Hi; [done|].
  apply Forall_cons in IH as [IHc IH]. specialize (IHcs IH).
  rewrite cmwords_cons, filter_app, fmap_app.
  unfold exhausted. case_bool_decide as Hex; [apply sublist_nil_l|].
  assert (i < length setarr)%nat as Hilt by lia.
  unfold py_eq at 1. case_bool_decide as Heq.
  { apply sublist_app; [|by apply IHcs].
    etrans; [apply IHc|].
    apply (kmwords_subsets_sublist c (setarr !!! i)); [done| |lia].
    by apply lookup_total_elem_of_drop. }
  match goal with
  | |- (let '(_, _) := ?pw ?k0 ?i0 in _) `sublist_of` _ =>
      assert (∀ k j, (idx ≤ j)%nat →
                (idx ≤ (pw k j).2)%nat ∧
                (pw k j).1 `sublist_of`
                  (λ wv, SetTrieMap.yield_item mode (p ++ wv.1) wv.2)
                    <$> filter (λ wv, wv.1 ⊆ drop idx setarr) (kmwords c)) as Hw;
      [|destruct (Hw k0 i0) as [Hle Hsub]; [lia|];
        destruct (pw k0 i0) as [ys idx']]
  end.
  { induction k as [|k IHk]; intros j Hj; simpl.
    - case_bool_decide as Hjlt; simpl; [|split; [done|apply sublist_nil_l]].
      destruct (py_ge _ _); [|split; [done|apply sublist_nil_l]].
      unfold py_eq. case_bool_decide as Hjeq; [|split; [done|apply sublist_nil_l]].
      split; [done|]. simpl. etrans; [apply IHc|].
      apply (kmwords_subsets_sublist c (setarr !!! j)); [done| |done].
      by apply lookup_total_elem_of_drop.
    - case_bool_decide as Hjlt; simpl; [|split; [done|apply sublist_nil_l]].
      destruct (py_ge _ _); [|split; [done|apply sublist_nil_l]].
      unfold py_eq. case_bool_decide as Hjeq.
      + split; [done|]. simpl. etrans; [apply IHc|].
        apply (kmwords_subsets_sublist c (setarr !!! j)); [done| |done].
        by apply lookup_total_elem_of_drop.
      + apply IHk. lia. }
  simpl in *. apply sublist_app; [done|]. by apply IHcs.
Qed.

End map_queries.

Lemma contains_init (ss : list (gset Z)) (S : gset Z) :
  contains (SetTrie_init (elements <$> ss)) (elements S) = true ↔ S ∈ ss.
Proof.
  rewrite contains_stored by apply init_wf. rewrite init_stored. split.
  - intros (S' & HS' & Heq). by rewrite (sorted_elements_inj S S').
  - eauto.
Qed.

Section map_theorems.
Context {V : Type}.
Implicit Types (m : SetTrieMap.SetTrieMap V) (kvs : list (gset Z * option V)).

Lemma Map_keys_erase m :
  SetTrieMap.keys m = SetTrieMap.ItemKey <$> aslist (key_trie m).
Proof.
  unfold SetTrieMap.keys, SetTrieMap.iter, aslist, iter, key_trie. simpl.
  rewrite Map_iter_mwords, _iter_words, <-mwords_fst, erase_data.
  rewrite <-!list_fmap_compose. done.
Qed.

Lemma item_project_id (mode : option string) (x : SetTrieMap.Item V) :
  mode ≠ Some "keys" → mode ≠ Some "values" → item_project mode x = x.
Proof.
  intros H1 H2. destruct x; simpl; [done..|].
  by rewrite !decide_False.
Qed.

Lemma Map_root_data kvs :
  SetTrieMap.data (SetTrieMap.root
    (SetTrieMap.SetTrieMap_init ((λ kv, (elements kv.1, kv.2)) <$> kvs))) = None.
Proof. destruct (Map_init_wf kvs) as [Hd _]. by rewrite <-erase_data. Qed.

Lemma Map_root_wf kvs :
  wf (erase (SetTrieMap.root
    (SetTrieMap.SetTrieMap_init ((λ kv, (elements kv.1, kv.2)) <$> kvs)))).
Proof. by destruct (Map_init_wf kvs) as [_ Hwf]. Qed.

End map_theorems.

(** ** [printtree] *)

(** The assertion of [test_print] in [TestSetTrie]: the lines written for
    the fixture with the default [tabchr] and [tabsize]. *)
Example test_print :
  printtree fixture " " 2
  = ["None"; "  1"; "    2"; "      4#"; "    3#"; "      5#"; "    4#";
     "  2"; "    3"; "      5#"; "    4#"].
Proof. vm_compute. reflexivity. Qed.

Lemma last_char_String c s : s ≠ "" → last_char (String c s) = last_char s.
Proof. by destruct s. Qed.

Lemma last_char_app_r s1 s2 : s2 ≠ "" → last_char (s1 +:+ s2) = last_char s2.
Proof.
  intros Hne. induction s1 as [|c s1 IH]; [done|].
  change (String c s1 +:+ s2) with (String c (s1 +:+ s2)).
  rewrite last_char_String; [done|]. by destruct s1, s2.
Qed.

Lemma append_empty_r s : s +:+ "" = s.
Proof. induction s as [|c s IH]; [done|]. rewrite <-IH at 2. reflexivity. Qed.

Lemma last_char_pretty_N_go x : ∀ s,
  s ≠ "" → last_char (pretty_N_go x s) = last_char s.
Proof.
  induction (N.lt_wf_0 x) as [x _ IH]. intros s Hs.
  assert (x = 0 ∨ 0 < x)%N as [->|Hx] by lia.
  - by rewrite pretty_N_go_0.
  - rewrite pretty_N_go_step by done. rewrite IH.
    + by apply last_char_String.
    + by apply N.div_lt.
    + done.
Qed.

Lemma pretty_N_char_not_mark x : pretty_N_char x ≠ "#"%char.
Proof. unfold pretty_N_char. by repeat case_match. Qed.

Lemma last_char_pretty_N (x : N) :
  ∃ c, last_char (pretty x) = Some c ∧ c ≠ "#"%char.
Proof.
  unfold pretty, pretty_N. case_decide as Hx.
  - by exists "0"%char.
  - rewrite pretty_N_go_step by lia. rewrite last_char_pretty_N_go by done.
    eexists. split; [done|]. apply pretty_N_char_not_mark.
Qed.

Lemma last_char_py_str d : ∃ c, last_char (py_str d) = Some c ∧ c ≠ "#"%char.
Proof.
  destruct d as [[|p|p]|].
  - by exists "0"%char.
  - apply (last_char_pretty_N (Npos p)).
  - destruct (last_char_pretty_N (Npos p)) as (c & Hc & Hne).
    exists c. split; [|done].
    change (py_str (Some (Z.neg p))) with ("-" +:+ pretty (Npos p)).
    rewrite last_char_app_r; [exact Hc|]. intros Hnil. by rewrite Hnil in Hc.
  - by exists "e"%char.
Qed.

Lemma last_char_rjust s width c : s ≠ "" → last_char (rjust s width c) = last_char s.
Proof.
  intros Hs. unfold rjust. generalize (Z.to_nat (width - Z.of_nat (String.length s))).
  intros n. induction n as [|n IH]; [done|].
  change (Nat.iter (S n) (String c) s) with (String c (Nat.iter n (String c) s)).
  rewrite last_char_String; [done|]. clear IH. by destruct n, s.
Qed.

(** A line ends with [#] exactly when the node has [flag_last] set. *)
Lemma marked_line d (fl : bool) width c :
  marked (rjust (py_str d) width c +:+ (if fl then "#" else "")) = fl.
Proof.
  unfold marked. destruct fl.
  - rewrite last_char_app_r by done. by rewrite bool_decide_eq_true_2.
  - rewrite append_empty_r.
    destruct (last_char_py_str d) as (c' & Hc & Hne).
    rewrite last_char_rjust by (intros Hnil; by rewrite Hnil in Hc).
    rewrite Hc. apply bool_decide_eq_false_2. by intros [=].
Qed.

Lemma _printtree_marked n : ∀ level tabchr tabsize path,
  length (filter (λ line, marked line = true) (_printtree n level tabchr tabsize))
  = length (_iter n path).
Proof.
  induction n as [d fl cs IH] using Node_ind. intros level tabchr tabsize path.
  cbn [_printtree _iter]. rewrite filter_cons, marked_line, length_app.
  generalize (path_append path d). intros p.
  assert (length (filter (λ line, marked line = true)
            ((fix loop (cs : list Node) : list string :=
                match cs with
                | [] => []
                | child :: cs' =>
                    _printtree child (S level) tabchr tabsize ++ loop cs'
                end) cs))
          = length ((fix loop (cs : list Node) : list (gset Z) :=
                       match cs with
                       | [] => []
                       | child :: cs' => _iter child p ++ loop cs'
                       end) cs)) as Hcs.
  { induction IH as [|c cs Hc _ IHcs]; [done|].
    by rewrite filter_app, !length_app, IHcs, (Hc _ _ _ p). }
  destruct fl; simpl; by rewrite Hcs.
Qed.

Lemma root_flag_last (ss : list (gset Z)) :
  flag_last (root (SetTrie_init (elements <$> ss))) = true ↔ ∅ ∈ ss.
Proof.
  destruct (init_wf ss) as [Hd Hwf].
  transitivity ([] ∈ stored (SetTrie_init (elements <$> ss))).
  - unfold stored. destruct (root _) as [d fl cs].
    apply wf_eq in Hwf as (Hdc & _). rewrite words_eq, elem_of_app.
    pose proof (cwords_nonempty d cs Hdc) as Hne. simpl.
    destruct fl; rewrite ?list_elem_of_singleton, ?elem_of_nil;
      [tauto|split; [done|tauto]].
  - rewrite init_stored. split.
    + intros (S & HS & Heq). symmetry in Heq. apply sorted_elements_nil in Heq.
      by subst S.
    + intros HS. exists ∅. split; [done|]. symmetry. by apply sorted_elements_nil.
Qed.

Lemma aslist_length (ss : list (gset Z)) :
  length (aslist (SetTrie_init (elements <$> ss))) = length (remove_dups ss).
Proof.
  apply Permutation_length, NoDup_Permutation.
  - apply aslist_NoDup, init_wf.
  - apply NoDup_remove_dups.
  - intros S. by rewrite init_aslist, elem_of_remove_dups.
Qed.

(** ** [_add] on the store *)

Section heap_add.
Context {V : Type}.
Implicit Types (σ : gmap positive (Heap.Obj V)) (n c : SetTrieMap.Node V).
Implicit Types (cs : list (SetTrieMap.Node V)) (ls X : list positive).
Implicit Types (Xs : list (list positive)).

Lemma tree_eq σ l d fl v cs X :
  Heap.tree σ l (SetTrieMap.mkNode d fl v cs) X ↔
  ∃ ls Xs, σ !! l = Some (Heap.mkObj d fl v ls) ∧ X = l :: concat Xs ∧
           Forall3 (Heap.tree σ) ls cs Xs.
Proof.
  simpl. f_equiv. intros ls. f_equiv. intros Xs. do 2 f_equiv. revert cs Xs.
  induction ls as [|l' ls IH]; intros [|c cs] [|X' Xs]; split;
    try done; try (by inv 1); try (by intros; constructor).
  - intros [Hc Hcs]. constructor; [done|]. by apply IH.
  - inv 1. split; [done|]. by apply IH.
Qed.

Lemma tree_repr σ n : ∀ l X, Heap.tree σ l n X → Heap.repr σ l n.
Proof.
  induction n as [d fl v cs IH] using MNode_ind. intros l X.
  rewrite tree_eq, repr_eq. intros (ls & Xs & Hl & _ & Hcs). exists ls.
  split; [done|]. clear Hl.
  induction Hcs as [|l' c X' ls cs Xs Hc _ IHcs]; constructor.
  - apply Forall_cons in IH as [IHc _]. by eapply IHc.
  - apply Forall_cons in IH as [_ IH]. by apply IHcs.
Qed.

Lemma Forall3_tree_repr σ ls cs Xs :
  Forall3 (Heap.tree σ) ls cs Xs → Forall2 (Heap.repr σ) ls cs.
Proof.
  induction 1 as [|l' c X' ls cs Xs Hc _ IHcs]; constructor; [|done].
  by eapply tree_repr.
Qed.

(** The references of a tree are references of objects of the store. *)
Lemma tree_dom σ n : ∀ l X, Heap.tree σ l n X → Forall (λ l', is_Some (σ !! l')) X.
Proof.
  induction n as [d fl v cs IH] using MNode_ind. intros l X.
  rewrite tree_eq. intros (ls & Xs & Hl & -> & Hcs).
  constructor; [by eexists|]. apply Forall_concat. clear Hl.
  induction Hcs as [|l' c X' ls cs Xs Hc _ IHcs]; constructor.
  - apply Forall_cons in IH as [IHc _]. by eapply IHc.
  - apply Forall_cons in IH as [_ IH]. by apply IHcs.
Qed.

(** A tree is the same tree in every store that holds the same objects at
    its references. *)
Lemma tree_frame σ σ' n : ∀ l X,
  Heap.tree σ l n X → (∀ l', l' ∈ X → σ' !! l' = σ !! l') →
  Heap.tree σ' l n X.
Proof.
  induction n as [d fl v cs IH] using MNode_ind. intros l X.
  rewrite !tree_eq. intros (ls & Xs & Hl & -> & Hcs) Hag. exists ls, Xs.
  split; [rewrite Hag; [done|by left]|]. split; [done|].
  assert (∀ l', l' ∈ concat Xs → σ' !! l' = σ !! l') as Hag'.
  { intros l' Hl'. apply Hag. by right. }
  clear Hl Hag.
  induction Hcs as [|l' c X' ls cs Xs Hc _ IHcs]; constructor.
  - apply Forall_cons in IH as [IHc _]. apply IHc; [done|].
    intros l'' Hl''. apply Hag'. simpl. apply elem_of_app. by left.
  - apply Forall_cons in IH as [_ IH]. apply IHcs; [done|].
    intros l'' Hl''. apply Hag'. simpl. apply elem_of_app. by right.
Qed.

Lemma Forall3_tree_frame σ σ' ls cs Xs :
  Forall3 (Heap.tree σ) ls cs Xs →
  (∀ l', l' ∈ concat Xs → σ' !! l' = σ !! l') →
  Forall3 (Heap.tree σ') ls cs Xs.
Proof.
  induction 1 as [|l' c X' ls cs Xs Hc _ IHcs]; intros Hag; constructor.
  - eapply tree_frame; [done|]. intros l'' Hl''. apply Hag. simpl.
    apply elem_of_app. by left.
  - apply IHcs. intros l'' Hl''. apply Hag. simpl. apply elem_of_app. by right.
Qed.

(** [SortedList.add] on the store puts the reference where the tree
    operation puts the node. *)
Lemma heap_SortedList_add σ (ll1 ll2 : list positive) cl1 cl2 q oq x :
  Forall2 (Heap.repr σ) ll1 cl1 → Forall2 (Heap.repr σ) ll2 cl2 →
  σ !! q = Some oq → Heap.obj_data oq = Some x →
  Forall (λ c, kbelow (SetTrieMap.data c) x) cl1 →
  Forall (λ c, kabove (SetTrieMap.data c) x) cl2 →
  Heap.SortedList_add (ll1 ++ ll2) q σ = (Some (ll1 ++ q :: ll2), σ).
Proof.
  intros H1 H2 Hq Hx Hb Ha. induction H1 as [|l c ll1 cl1 Hc _ IH]; simpl.
  - destruct H2 as [|l c ll2 cl2 Hc _]; [done|]. simpl.
    rewrite (bind_Some _ _ _ _ _ (load_Some _ _ _ Hq)).
    destruct (repr_load_data σ l c Hc) as (oc & Hl & Hoc).
    rewrite (bind_Some _ _ _ _ _ (load_Some _ _ _ Hl)).
    apply Forall_cons in Ha as [Ha _]. rewrite Hx, Hoc, erase_data.
    destruct (SetTrieMap.data c) as [y|]; [|done]. simpl in *.
    by destruct (Z.ltb_spec x y); [|lia].
  - rewrite (bind_Some _ _ _ _ _ (load_Some _ _ _ Hq)).
    destruct (repr_load_data σ l c Hc) as (oc & Hl & Hoc).
    rewrite (bind_Some _ _ _ _ _ (load_Some _ _ _ Hl)).
    apply Forall_cons in Hb as [Hb Hbs]. rewrite Hx, Hoc, erase_data.
    destruct (SetTrieMap.data c) as [y|]; [|done]. simpl in *.
    destruct (Z.ltb_spec x y); [lia|].
    by rewrite (bind_Some _ _ _ _ _ (IH Hbs)).
Qed.

Lemma Node_fresh σ d :
  Heap.Node d σ
  = (Some (fresh (dom σ)), <[fresh (dom σ) := Heap.mkObj d false None []]> σ).
Proof. done. Qed.

Lemma fresh_lookup σ : σ !! fresh (dom σ) = None.
Proof. apply not_elem_of_dom, is_fresh. Qed.

Lemma NoDup_replace_middle {A} (a1 b b' a2 : list A) :
  NoDup (a1 ++ b ++ a2) → NoDup b' →
  (∀ x, x ∈ b' → x ∈ b ∨ ¬ (x ∈ a1 ∨ x ∈ a2)) →
  NoDup (a1 ++ b' ++ a2).
Proof.
  rewrite !NoDup_app. intros (H1 & H12 & _ & Hb2 & H2) Hb' Hin.
  split; [done|]. split; [|split; [done|split; [|done]]].
  - intros y Hy [Hyb|Hy2]%elem_of_app.
    + destruct (Hin y Hyb) as [Hb|Hn]; [|destruct Hn; by left].
      apply (H12 y Hy). apply elem_of_app. by left.
    + apply (H12 y Hy). apply elem_of_app. by right.
  - intros y Hyb Hy2. destruct (Hin y Hyb) as [Hb|Hn]; [|destruct Hn; by right].
    by apply (Hb2 y).
Qed.

(** [_add] on the store does to the tree at [l] what [_add] does to the
    tree; it returns without an exception, shares no object, and leaves
    the objects outside the tree as they were; the objects it adds to the
    tree are new. *)
Lemma _add_refines it : ∀ l n X σ,
  Heap.tree σ l n X → NoDup X → wf (erase n) →
  ∃ σ' n' X',
    Heap._add l it σ = (Some tt, σ') ∧
    Heap.tree σ' l n' X' ∧ NoDup X' ∧
    erase n' = _add (erase n) it ∧
    (∀ l' o, l' ∉ X → σ !! l' = Some o → σ' !! l' = Some o) ∧
    (∀ l', l' ∈ X' → l' ∈ X ∨ σ !! l' = None) ∧
    (∀ l', σ' !! l' = None → σ !! l' = None).
Proof.
  induction it as [|x it IH]; intros l [d fl v cs] X σ Ht Hnd Hwf;
    pose proof (tree_dom _ _ _ _ Ht) as Hdom;
    pose proof Ht as (ls & Xs & Hl & -> & Hcs)%tree_eq;
    apply NoDup_cons in Hnd as [Hlnot Hnd].
  - (* the end of the set: the flag is set *)
    exists (<[l := Heap.mkObj d true v ls]> σ), (SetTrieMap.mkNode d true v cs),
      (l :: concat Xs).
    split; [|split; [|split; [|split; [done|split; [|split]]]]].
    + simpl. by rewrite (bind_Some _ _ _ _ _ (load_Some _ _ _ Hl)).
    + apply tree_eq. exists ls, Xs. split; [apply lookup_insert_eq|].
      split; [done|]. eapply Forall3_tree_frame; [done|].
      intros l' Hin. apply lookup_insert_ne. by intros ->.
    + by apply NoDup_cons.
    + intros l' o Hn Ho. rewrite lookup_insert_ne; [done|].
      intros ->. apply Hn. by left.
    + intros l' Hin. by left.
    + intros l' Hn. destruct (decide (l' = l)) as [->|Hne].
      * by rewrite lookup_insert_eq in Hn.
      * by rewrite lookup_insert_ne in Hn.
  - destruct (wf_erase_children _ _ _ _ Hwf) as (Hd & Hs & Hwfs).
    apply Forall_cons in Hdom as [_ Hdom].
    set (p := fresh (dom σ)).
    set (σ1 := <[p := Heap.mkObj (Some x) false None []]> σ).
    assert (σ !! p = None) as Hp by apply fresh_lookup.
    assert (σ ⊆ σ1) as Hsub1 by (by apply insert_subseteq).
    assert (∀ l' o, σ !! l' = Some o → σ1 !! l' = Some o) as Hup1.
    { intros l' o Ho. by eapply lookup_weaken. }
    assert (∀ l', σ1 !! l' = None → σ !! l' = None) as Hdown1.
    { intros l' Hn. destruct (σ !! l') as [o|] eqn:Ho; [|done].
      by rewrite (Hup1 _ _ Ho) in Hn. }
    cbn [Heap._add]. rewrite (bind_Some _ _ _ _ _ (load_Some _ _ _ Hl)).
    rewrite (bind_Some _ _ _ _ _ (Node_fresh σ (Some x))). fold p. fold σ1.
    cbn [Heap.obj_children Heap.obj_data Heap.obj_flag_last Heap.obj_value].
    assert (Forall2 (Heap.repr σ1) ls cs) as Hr1.
    { eapply Forall2_repr_mono; [done|]. by eapply Forall3_tree_repr. }
    rewrite (bind_Some _ _ _ _ _
               (index_agree σ1 ls cs p _ x Hr1 (lookup_insert_eq _ _ _) eq_refl)).
    destruct (locate_gen SetTrieMap.data d cs x (SetTrieMap.Node_new (Some x))
                eq_refl Hd Hs)
      as (cl1 & cl2 & Hb & Ha & [(c0 & Hc0 & -> & Hi)|(-> & Hi & Hadd)]);
      unfold SetTrieMap.Node_lt, SetTrieMap.Node_eq; rewrite Hi.
    + (* the child with the key [x] takes the rest *)
      apply Forall3_app_inv_m in Hcs as (ll1 & ll2' & Xl1 & Xl2' & -> & -> & Hcs1 & Hcs2).
      apply Forall3_cons_inv_m in Hcs2 as (li & ll2 & Xi & Xl2 & -> & -> & Hci & Hcs2).
      rewrite concat_app, concat_cons in Hnd, Hdom, Hlnot.
      rewrite list_lookup_middle by (symmetry; by eapply Forall3_length_lm).
      apply wf_split in Hwfs as (_ & Hwf0 & _).
      apply Forall_app in Hdom as [Hdom1 Hdom2]. apply Forall_app in Hdom2 as [Hdomi Hdom2].
      assert (NoDup Xi) as Hndi.
      { apply NoDup_app in Hnd as (_ & _ & Hnd). by apply NoDup_app in Hnd as (? & _). }
      assert (Heap.tree σ1 li c0 Xi) as Hci1.
      { eapply tree_frame; [done|]. intros l' Hin.
        rewrite Forall_forall in Hdomi. destruct (Hdomi l' Hin) as [o Ho].
        by rewrite Ho, (Hup1 _ _ Ho). }
      destruct (IH li c0 Xi σ1 Hci1 Hndi Hwf0)
        as (σ2 & c0' & Xi' & Hadd2 & Ht2 & Hnd2 & He2 & Hfr2 & Hnew2 & Hdown2).
      assert (l ∉ Xi) as HlXi.
      { intros Hin. apply Hlnot. apply elem_of_app. right. apply elem_of_app. by left. }
      assert (∀ l', l' ∈ concat Xl1 ∨ l' ∈ concat Xl2 → l' ∉ Xi) as Hsib.
      { intros l' [Hin|Hin] Hi'.
        - apply NoDup_app in Hnd as (_ & Hnd & _). apply (Hnd l' Hin).
          apply elem_of_app. by left.
        - apply NoDup_app in Hnd as (_ & _ & Hnd).
          apply NoDup_app in Hnd as (_ & Hnd & _). by apply (Hnd l' Hi'). }
      assert (∀ l', l' ∈ concat Xl1 ∨ l' ∈ concat Xl2 → σ2 !! l' = σ !! l') as Hkeep.
      { intros l' Hin. rewrite Forall_forall in Hdom1, Hdom2.
        assert (is_Some (σ !! l')) as [o Ho] by (destruct Hin; auto).
        rewrite Ho. apply Hfr2; [by apply Hsib|by apply Hup1]. }
      exists σ2, (SetTrieMap.mkNode d fl v (cl1 ++ c0' :: cl2)),
        (l :: concat (Xl1 ++ Xi' :: Xl2)).
      split; [done|]. split; [|split; [|split; [|split; [|split]]]].
      6:{ intros l' Hn. by apply Hdown1, Hdown2. }
      * apply tree_eq. exists (ll1 ++ li :: ll2), (Xl1 ++ Xi' :: Xl2).
        split; [apply Hfr2; [done|by apply Hup1]|]. split; [done|].
        apply Forall3_app; [|constructor; [done|]].
        -- eapply Forall3_tree_frame; [done|]. intros l' Hin. apply Hkeep. by left.
        -- eapply Forall3_tree_frame; [done|]. intros l' Hin. apply Hkeep. by right.
      * rewrite concat_app, concat_cons.
        apply (NoDup_replace_middle (l :: concat Xl1) Xi Xi' (concat Xl2)).
        -- simpl. by apply NoDup_cons.
        -- done.
        -- intros l' Hin. destruct (Hnew2 l' Hin) as [?|Hnone]; [by left|right].
           rewrite Forall_forall in Hdom1, Hdom2.
           assert (∀ l'', is_Some (σ !! l'') → l'' ≠ l') as Hne.
           { intros l'' [o Ho] ->. by rewrite (Hup1 _ _ Ho) in Hnone. }
           intros [[Heq|Hin1]%elem_of_cons|Hin2].
           ++ destruct (Hne l); [by eexists|done].
           ++ destruct (Hne l'); [by apply Hdom1|done].
           ++ destruct (Hne l'); [by apply Hdom2|done].
      * rewrite !erase_eq. cbn [_add children data flag_last].
        change (Node_new (Some x)) with (erase (SetTrieMap.Node_new (V:=V) (Some x))).
        rewrite erase_index. unfold SetTrieMap.Node_lt, SetTrieMap.Node_eq.
        rewrite Hi, list_lookup_fmap, list_lookup_middle by done. simpl.
        rewrite <-He2, !fmap_app, !fmap_cons.
        rewrite insert_app_r_alt by (by rewrite length_fmap).
        by rewrite length_fmap, Nat.sub_diag.
      * intros l' o Hn Ho. apply Hfr2; [|by apply Hup1].
        intros Hin. apply Hn. right. rewrite concat_app, concat_cons.
        apply elem_of_app. right. apply elem_of_app. by left.
      * intros l' [->|Hin]%elem_of_cons; [left; by left|].
        rewrite concat_app, concat_cons in Hin.
        rewrite (concat_app Xl1), concat_cons.
        apply elem_of_app in Hin as [Hin|Hin].
        { left. right. apply elem_of_app. by left. }
        apply elem_of_app in Hin as [Hin|Hin].
        -- destruct (Hnew2 l' Hin) as [Hin'|Hnone]; [|right; by apply Hdown1].
           left. right. apply elem_of_app. right. apply elem_of_app. by left.
        -- left. right. apply elem_of_app. right. apply elem_of_app. by right.
    + (* no child has the key [x]: a new node is put among the children *)
      apply Forall3_app_inv_m in Hcs as (ll1 & ll2 & Xl1 & Xl2 & -> & -> & Hcs1 & Hcs2).
      rewrite concat_app in Hnd, Hdom, Hlnot.
      apply Forall_app in Hdom as [Hdom1 Hdom2].
      set (q := fresh (dom σ1)).
      set (σ2 := <[q := Heap.mkObj (Some x) false None []]> σ1).
      assert (σ1 !! q = None) as Hq by apply fresh_lookup.
      assert (σ1 ⊆ σ2) as Hsub2 by (by apply insert_subseteq).
      assert (∀ l' o, σ1 !! l' = Some o → σ2 !! l' = Some o) as Hup2.
      { intros l' o Ho. by eapply lookup_weaken. }
      rewrite (bind_Some _ _ _ _ _ (Node_fresh σ1 (Some x))). fold q. fold σ2.
      assert (Forall2 (Heap.repr σ2) ll1 cl1) as Hr21.
      { eapply (Forall2_repr_mono σ); [by transitivity σ1|]. by eapply Forall3_tree_repr. }
      assert (Forall2 (Heap.repr σ2) ll2 cl2) as Hr22.
      { eapply (Forall2_repr_mono σ); [by transitivity σ1|]. by eapply Forall3_tree_repr. }
      rewrite (bind_Some _ _ _ _ _
                 (heap_SortedList_add σ2 ll1 ll2 cl1 cl2 q _ x Hr21 Hr22
                    (lookup_insert_eq _ _ _) eq_refl Hb Ha)).
      set (o3 := Heap.mkObj d fl v (ll1 ++ q :: ll2)).
      set (σ3 := <[l := o3]> σ2).
      assert (Heap.store l o3 σ2 = (Some tt, σ3)) as Hst by done.
      rewrite (bind_Some _ _ _ _ _ Hst).
      assert (l ≠ q) as Hlq.
      { intros ->. by rewrite (Hup1 _ _ Hl) in Hq. }
      assert (∀ l' o, σ !! l' = Some o → l' ≠ l → σ3 !! l' = Some o ∧ l' ≠ q) as Hup3.
      { intros l' o Ho Hne. split.
        - unfold σ3. rewrite lookup_insert_ne by done. by apply Hup2, Hup1.
        - intros ->. by rewrite (Hup1 _ _ Ho) in Hq. }
      assert (∀ l', σ3 !! l' = None → σ !! l' = None) as Hdown3.
      { intros l' Hn. destruct (decide (l' = l)) as [->|Hne].
        - unfold σ3 in Hn. by rewrite lookup_insert_eq in Hn.
        - destruct (σ !! l') as [o|] eqn:Ho; [|done].
          destruct (Hup3 l' o Ho Hne) as [Ho3 _]. by rewrite Ho3 in Hn. }
      assert (Heap.tree σ3 q (SetTrieMap.Node_new (Some x)) [q]) as Htq.
      { apply (tree_eq σ3 q (Some x) false None [] [q]). exists [], [].
        split; [|split; [done|constructor]].
        unfold σ3. rewrite lookup_insert_ne by done. apply lookup_insert_eq. }
      destruct (IH q (SetTrieMap.Node_new (Some x)) [q] σ3 Htq
                  (NoDup_singleton q) (wf_Node_new (Some x)))
        as (σ4 & cq' & Xq' & Hadd4 & Ht4 & Hnd4 & He4 & Hfr4 & Hnew4 & Hdown4).
      assert (∀ l', l' ∈ concat Xl1 ∨ l' ∈ concat Xl2 →
                    ∃ o, σ !! l' = Some o ∧ l' ≠ l) as Hsib.
      { intros l' Hin. rewrite Forall_forall in Hdom1, Hdom2.
        assert (is_Some (σ !! l')) as [o Ho] by (destruct Hin; auto).
        exists o. split; [done|]. intros ->. apply Hlnot, elem_of_app. tauto. }
      assert (∀ l', l' ∈ concat Xl1 ∨ l' ∈ concat Xl2 → σ4 !! l' = σ !! l') as Hkeep.
      { intros l' Hin. destruct (Hsib l' Hin) as (o & Ho & Hne).
        destruct (Hup3 l' o Ho Hne) as [Ho3 Hneq]. rewrite Ho.
        apply Hfr4; [|done]. by intros ?%list_elem_of_singleton. }
      exists σ4, (SetTrieMap.mkNode d fl v (cl1 ++ cq' :: cl2)),
        (l :: concat (Xl1 ++ Xq' :: Xl2)).
      split; [done|]. split; [|split; [|split; [|split; [|split]]]].
      6:{ intros l' Hn. by apply Hdown3, Hdown4. }
      * apply tree_eq. exists (ll1 ++ q :: ll2), (Xl1 ++ Xq' :: Xl2).
        split.
        { apply Hfr4; [by intros ?%list_elem_of_singleton|].
          unfold σ3. apply lookup_insert_eq. }
        split; [done|]. apply Forall3_app; [|constructor; [done|]].
        -- eapply Forall3_tree_frame; [done|]. intros l' Hin. apply Hkeep. by left.
        -- eapply Forall3_tree_frame; [done|]. intros l' Hin. apply Hkeep. by right.
      * rewrite concat_app, concat_cons.
        apply (NoDup_replace_middle (l :: concat Xl1) [] Xq' (concat Xl2)).
        -- simpl. by apply NoDup_cons.
        -- done.
        -- intros l' Hin. right.
           assert (∀ l'', l'' = l ∨ l'' ∈ concat Xl1 ∨ l'' ∈ concat Xl2 →
                          is_Some (σ3 !! l'') ∧ l'' ≠ q) as Hold.
           { intros l'' [->|Hin'].
             - split; [|done]. unfold σ3. rewrite lookup_insert_eq. by eexists.
             - destruct (Hsib l'' Hin') as (o & Ho & Hne).
               destruct (Hup3 l'' o Ho Hne) as [Ho3 ?]. split; [by eexists|done]. }
           assert (¬ (l' = l ∨ l' ∈ concat Xl1 ∨ l' ∈ concat Xl2)) as Hnot.
           { intros Hin'. destruct (Hold l' Hin') as [[o Ho] Hneq].
             destruct (Hnew4 l' Hin) as [?%list_elem_of_singleton|Hnone]; [done|].
             by rewrite Ho in Hnone. }
           rewrite elem_of_cons. tauto.
      * rewrite !erase_eq. cbn [_add children data flag_last].
        change (Node_new (Some x)) with (erase (SetTrieMap.Node_new (V:=V) (Some x))).
        rewrite erase_index. unfold SetTrieMap.Node_lt, SetTrieMap.Node_eq.
        rewrite Hi, <-He4, erase_add. unfold SetTrieMap.Node_lt.
        rewrite Hadd; [done|]. by rewrite <-erase_data, He4, _add_data.
      * intros l' o Hn Ho. apply Hfr4.
        -- intros ->%list_elem_of_singleton. by rewrite (Hup1 _ _ Ho) in Hq.
        -- apply Hup3; [done|]. intros ->. apply Hn. by left.
      * intros l' [->|Hin]%elem_of_cons; [left; by left|].
        rewrite concat_app, concat_cons in Hin.
        rewrite (concat_app Xl1).
        apply elem_of_app in Hin as [Hin|Hin].
        { left. right. apply elem_of_app. by left. }
        apply elem_of_app in Hin as [Hin|Hin].
        -- right. destruct (Hnew4 l' Hin) as [->%list_elem_of_singleton|Hnone].
           ++ by apply Hdown1.
           ++ by apply Hdown3.
        -- left. right. apply elem_of_app. by right.
Qed.

(** [add] for each set of a list, on a tree whose root holds no key. *)
Lemma add_all_refines (ss : list (gset Z)) : ∀ l n X σ,
  Heap.tree σ l n X → NoDup X → SetTrieMap.data n = None → wf (erase n) →
  ∃ σ' n' X',
    Heap.add_all l (elements <$> ss) σ = (Some tt, σ') ∧
    Heap.tree σ' l n' X' ∧ NoDup X' ∧
    erase n' = root (foldl add (mkSetTrie (erase n)) (elements <$> ss)) ∧
    (∀ l' o, l' ∉ X → σ !! l' = Some o → σ' !! l' = Some o) ∧
    (∀ l', l' ∈ X' → l' ∈ X ∨ σ !! l' = None) ∧
    (∀ l', σ' !! l' = None → σ !! l' = None).
Proof.
  induction ss as [|S ss IH]; intros l n X σ Ht Hnd Hdn Hwf.
  { exists σ, n, X. repeat split; auto. }
  destruct (_add_refines (sorted (elements S)) l n X σ Ht Hnd Hwf)
    as (σ1 & n1 & X1 & Hadd1 & Ht1 & Hnd1 & He1 & Hfr1 & Hnew1 & Hdown1).
  assert (SetTrieMap.data n1 = None) as Hdn1.
  { by rewrite <-erase_data, He1, _add_data, erase_data. }
  assert (wf (erase n1)) as Hwf1.
  { rewrite He1. apply _add_wf; [done|apply sorted_elements_ascending|].
    rewrite erase_data, Hdn. apply above_None. }
  destruct (IH l n1 X1 σ1 Ht1 Hnd1 Hdn1 Hwf1)
    as (σ2 & n2 & X2 & Hadd2 & Ht2 & Hnd2 & He2 & Hfr2 & Hnew2 & Hdown2).
  exists σ2, n2, X2. split; [|split; [done|split; [done|split; [|split; [|split]]]]].
  - csimpl. unfold Heap.add at 1. by rewrite (bind_Some _ _ _ _ _ Hadd1).
  - rewrite He2, He1. done.
  - intros l' o Hn Ho. apply Hfr2; [|by apply Hfr1].
    intros Hin. destruct (Hnew1 l' Hin) as [?|Hnone]; [done|]. by rewrite Ho in Hnone.
  - intros l' Hin. destruct (Hnew2 l' Hin) as [Hin1|Hnone]; [by apply Hnew1|].
    right. by apply Hdown1.
  - intros l' Hn. by apply Hdown1, Hdown2.
Qed.

(** The trie built in place by [SetTrie(ss)] holds the tree that
    [SetTrie_init] builds, at a new root, and no object that was in the
    store before is changed. *)
Lemma heap_init_refines (ss : list (gset Z)) σ :
  ∃ r σ' n X,
    Heap.SetTrie_init (elements <$> ss) σ = (Some r, σ') ∧
    σ !! r = None ∧ σ ⊆ σ' ∧
    Heap.tree σ' r n X ∧ NoDup X ∧
    erase n = root (SetTrie_init (elements <$> ss)).
Proof.
  set (r := fresh (dom σ)).
  set (σ0 := <[r := Heap.mkObj None false None []]> σ).
  assert (σ !! r = None) as Hr by apply fresh_lookup.
  assert (Heap.tree σ0 r (SetTrieMap.Node_new None) [r]) as Ht0.
  { apply (tree_eq σ0 r None false None [] [r]). exists [], [].
    split; [apply lookup_insert_eq|]. split; [done|constructor]. }
  destruct (add_all_refines ss r (SetTrieMap.Node_new None) [r] σ0 Ht0
              (NoDup_singleton r) eq_refl (wf_Node_new None))
    as (σ' & n & X & Hadd & Ht & Hnd & He & Hfr & _ & _).
  exists r, σ', n, X. split; [|split; [done|split; [|done]]].
  - unfold Heap.SetTrie_init.
    rewrite (bind_Some _ _ _ _ _ (Node_fresh σ None)). fold r. fold σ0.
    by rewrite (bind_Some _ _ _ _ _ Hadd).
  - apply map_subseteq_spec. intros l' o Ho. apply Hfr.
    + intros ->%list_elem_of_singleton. by rewrite Hr in Ho.
    + unfold σ0. rewrite lookup_insert_ne; [done|]. intros <-. by rewrite Hr in Ho.
Qed.

End heap_add.

(** ** The depth of a trie *)

Lemma depth_eq d fl cs :
  depth (mkNode d fl cs) = S (foldr (λ c h, Nat.max (depth c) h) O cs).
Proof. reflexivity. Qed.

Lemma height_erase {V} (n : SetTrieMap.Node V) : Heap.height n = depth (erase n).
Proof.
  induction n as [d fl v cs IH] using MNode_ind.
  rewrite height_eq, erase_eq, depth_eq. f_equal.
  induction IH as [|c cs Hc _ IHcs]; [done|]. csimpl. by rewrite Hc, IHcs.
Qed.

(** The trie is no deeper than its longest stored sequence. *)
Lemma depth_le n (M : nat) :
  wf n → (∀ w, w ∈ words n → (length w ≤ M)%nat) → (depth n ≤ S M)%nat.
Proof.
  revert M. induction n as [d fl cs IH] using Node_ind. intros M Hwf Hlen.
  pose proof (wf_children_data _ Hwf) as Hk. simpl in Hk.
  apply wf_eq in Hwf as (_ & _ & _ & Hlive).
  rewrite depth_eq. apply le_n_S.
  assert (∀ w, w ∈ cwords cs → (length w ≤ M)%nat) as Hcw.
  { intros w Hw. apply Hlen. rewrite words_eq. apply elem_of_app. by right. }
  clear Hlen. induction cs as [|c cs IHcs]; simpl; [lia|].
  apply Forall_cons in IH as [IHc IH]. apply Forall_cons in Hk as [[[k Hk] Hwc] Hks].
  apply Forall_cons in Hlive as [Hlc Hlive].
  apply Nat.max_lub.
  - destruct (words_live c Hwc Hlc) as [w0 Hw0].
    assert (length (k :: w0) ≤ M)%nat as HM.
    { apply Hcw. rewrite cwords_cons. apply elem_of_app. left.
      apply elem_of_kwords. exists w0. by rewrite Hk. }
    simpl in HM. destruct M as [|M]; [lia|].
    apply IHc; [done|]. intros w Hw.
    assert (length (k :: w) ≤ S M)%nat as HM'; [|simpl in HM'; lia].
    apply Hcw. rewrite cwords_cons. apply elem_of_app. left.
    apply elem_of_kwords. exists w. by rewrite Hk.
  - apply IHcs; [done..|]. intros w Hw. apply Hcw.
    rewrite cwords_cons. apply elem_of_app. by right.
Qed.

Lemma length_sorted_elements (S : gset Z) : length (sorted (elements S)) = size S.
Proof. by rewrite sorted_Permutation. Qed.

Lemma init_depth (ss : list (gset Z)) (M : nat) :
  (∀ S, S ∈ ss → (size S ≤ M)%nat) →
  (depth (root (SetTrie_init (elements <$> ss))) ≤ S M)%nat.
Proof.
  intros Hall. apply depth_le; [apply init_wf|].
  intros w (S & HS & ->)%init_stored. rewrite length_sorted_elements. by apply Hall.
Qed.

(** ** Queries that include every key *)

(** When the query includes every set the trie was built from, the walk of
    [_itersubsets] is the walk of [_iter]. *)
Lemma subsets_complete (ss : list (gset Z)) (Q : gset Z) :
  (∀ S, S ∈ ss → S ⊆ Q) →
  subsets (SetTrie_init (elements <$> ss)) (elements Q)
  = aslist (SetTrie_init (elements <$> ss)).
Proof.
  intros Hall. destruct (init_wf ss) as [Hd Hwf].
  unfold subsets, itersubsets, aslist, iter.
  apply _itersubsets_complete; [done|apply sorted_elements_ascending|].
  intros w Hw. rewrite drop_0_eq.
  apply (init_stored ss) in Hw as (S & HS & ->).
  apply sorted_elements_subseteq. by apply Hall.
Qed.

Lemma sublist_length_eq {A} (l1 l2 : list A) :
  l1 `sublist_of` l2 → length l1 = length l2 → l1 = l2.
Proof.
  induction 1 as [|x l1 l2 Hsub IH|x l1 l2 Hsub IH]; intros Hlen; [done|..].
  - f_equal. apply IH. simpl in Hlen. lia.
  - apply sublist_length in Hsub. simpl in Hlen. lia.
Qed.

Lemma Map_subsets_sublist_items {V} (m : SetTrieMap.SetTrieMap V) (s : list Z) :
  SetTrieMap.data (SetTrieMap.root m) = None →
  SetTrieMap.subsets m s None `sublist_of` SetTrieMap.items m.
Proof.
  intros Hd. unfold SetTrieMap.subsets, SetTrieMap.itersubsets,
    SetTrieMap.items, SetTrieMap.iter.
  etrans; [apply Map_itersubsets_sound|].
  rewrite Map_iter_mwords, Hd. simpl.
  apply fmap_sublist, sublist_filter.
Qed.

(** * The claims *)

(** C1 (the code departs from the claim): on the trie in which nothing was
    stored, [hassuperset] of the empty query answers [True] although there
    is no stored set, a superset or not; [supersets] of the same query is
    empty.  [SetTrieMap.hassuperset] does the same. *)
Theorem C1_hassuperset_empty_trie :
  hassuperset SetTrie_new (elements (∅ : gset Z)) = true ∧
  aslist SetTrie_new = [] ∧
  supersets SetTrie_new (elements (∅ : gset Z)) = [] ∧
  SetTrieMap.hassuperset (V:=unit) SetTrieMap.SetTrieMap_new
    (elements (∅ : gset Z)) = true ∧
  SetTrieMap.keys (V:=unit) SetTrieMap.SetTrieMap_new = [].
Proof. rewrite elements_empty. repeat split. Qed.

(** C2 (the code departs from the claim): on the fixture of the test-suite
    [subsets({1, 4})] is empty, although [{1, 4}] is stored, as [contains]
    and [hassubset] find, and is a subset of itself; the test-suite expects
    [[{1, 4}]].  The same for the query [{1, 4, 8}]. *)
Theorem C2_itersubsets_misses_subset :
  (let S : gset Z := {[1; 4]} in
   subsets fixture (elements S) = [] ∧
   itersubsets fixture (elements S) = [] ∧
   S ∈ aslist fixture ∧
   S ⊆ S ∧
   contains fixture (elements S) = true ∧
   hassubset fixture (elements S) = true ∧
   subsets fixture (elements ({[1; 4; 8]} : gset Z)) = [] ∧
   S ⊆ ({[1; 4; 8]} : gset Z))%Z.
Proof.
  intros S.
  assert (S ⊆ ({[1; 4; 8]} : gset Z))%Z as Hsub.
  { intros y. unfold S. rewrite !elem_of_union, !elem_of_singleton. tauto. }
  assert (S ∈ aslist fixture) as Hin.
  { rewrite fixture_aslist. do 3 apply list_elem_of_further.
    apply list_elem_of_here. }
  repeat split; done.
Qed.

(** C3: for every trie built from sets and every query set [Q],
    [supersets(Q)], the list of [itersupersets(Q)], holds exactly the stored
    sets that include [Q], each once: it is the brute-force filter of
    [aslist()], in the same order, and a permutation of the filter of the
    distinct sets added. *)
Theorem C3_supersets_brute_force (ss : list (gset Z)) (Q : gset Z) :
  let t := SetTrie_init (elements <$> ss) in
  supersets t (elements Q) = itersupersets t (elements Q) ∧
  (∀ S, S ∈ supersets t (elements Q) ↔ S ∈ ss ∧ Q ⊆ S) ∧
  NoDup (supersets t (elements Q)) ∧
  supersets t (elements Q) = filter (λ S, Q ⊆ S) (aslist t) ∧
  supersets t (elements Q) ≡ₚ filter (λ S, Q ⊆ S) (remove_dups ss).
Proof.
  intros t. assert (wf_trie t) as Hwf by apply init_wf.
  assert (supersets t (elements Q) = filter (λ S, Q ⊆ S) (aslist t)) as Heq.
  { by apply itersupersets_filter. }
  assert (∀ S, S ∈ supersets t (elements Q) ↔ S ∈ ss ∧ Q ⊆ S) as Hin.
  { intros S. rewrite Heq, list_elem_of_filter. unfold t. rewrite init_aslist. tauto. }
  assert (NoDup (supersets t (elements Q))) as Hnd.
  { rewrite Heq. by apply NoDup_filter, aslist_NoDup. }
  split; [done|]. split; [exact Hin|]. split; [done|]. split; [done|].
  apply NoDup_Permutation; [done|apply NoDup_filter, NoDup_remove_dups|].
  intros S. rewrite Hin, list_elem_of_filter, elem_of_remove_dups. tauto.
Qed.

(** C4: for every trie built from sets and every query set [Q],
    [hassubset(Q)] is [True] exactly when a stored set is a subset of [Q];
    it is [True] for every query once the empty set is stored, and [False]
    for every query on the trie in which nothing was stored. *)
Theorem C4_hassubset_brute_force (ss ss' : list (gset Z)) (Q : gset Z) :
  (hassubset (SetTrie_init (elements <$> ss)) (elements Q) = true ↔
   ∃ S, S ∈ ss ∧ S ⊆ Q) ∧
  hassubset (SetTrie_init (elements <$> (ss ++ ∅ :: ss'))) (elements Q) = true ∧
  hassubset SetTrie_new (elements Q) = false.
Proof.
  split; [apply hassubset_init|]. split.
  - apply hassubset_init. exists ∅. split; [|set_solver].
    apply elem_of_app. right. by left.
  - apply not_true_is_false. intros H.
    apply (hassubset_init []) in H as (S & HS & _). by apply elem_of_nil in HS.
Qed.

(** C5 (the code departs from the claim): an iterable with a repeated
    element is not reduced to a set.  For every [x], [add([x, x])] stores
    the path [x, x], so [contains({x})] is [False] afterwards, whereas it
    is [True] after [add({x})]; and [hassuperset([x, x])] is [False] on the
    trie that stores [{x}], whereas [hassuperset({x})] is [True]. *)
Theorem C5_duplicates_not_collapsed (x : Z) :
  contains (add SetTrie_new [x; x]) (elements ({[x]} : gset Z)) = false ∧
  contains (add SetTrie_new (elements ({[x]} : gset Z)))
           (elements ({[x]} : gset Z)) = true ∧
  hassuperset (add SetTrie_new (elements ({[x]} : gset Z))) [x; x] = false ∧
  hassuperset (add SetTrie_new (elements ({[x]} : gset Z)))
              (elements ({[x]} : gset Z)) = true.
Proof.
  assert (sorted [x; x] = [x; x]) as Hxx.
  { apply (StronglySorted_unique Z.le).
    - apply StronglySorted_merge_sort; apply _.
    - repeat constructor. lia.
    - apply sorted_Permutation. }
  rewrite elements_singleton.
  unfold contains, hassuperset, add. rewrite Hxx.
  change (sorted [x]) with [x]. simpl.
  unfold Node_lt, Node_eq, py_gt, py_eq, py_lt. simpl.
  rewrite ?Z.ltb_irrefl, ?bool_decide_eq_true_2 by done. simpl.
  rewrite ?Z.ltb_irrefl. done.
Qed.

(** C6: for every trie [t] built from sets, every set [S] and every
    [n ≥ 1], after [n] calls of [add(S)] the trie contains [S], [S] occurs
    exactly once in [aslist()], and [aslist()] is what it is after a single
    [add(S)]. *)
Theorem C6_add_repeated (ss : list (gset Z)) (S : gset Z) (n : nat) :
  (1 ≤ n)%nat →
  let t0 := SetTrie_init (elements <$> ss) in
  let t := Nat.iter n (λ t, add t (elements S)) t0 in
  contains t (elements S) = true ∧
  length (filter (λ X, X = S) (aslist t)) = 1%nat ∧
  aslist t = aslist (add t0 (elements S)).
Proof.
  intros Hn t0 t.
  assert (wf_trie t0) as Hwf0 by apply init_wf.
  assert (wf_trie t) as Hwf by by apply add_times_wf.
  assert (sorted (elements S) ∈ stored t) as Hin.
  { apply add_times_stored; auto. }
  repeat split.
  - by apply contains_stored.
  - apply filter_eq_once; [by apply aslist_NoDup|]. by apply elem_of_aslist.
  - rewrite !aslist_stored; [|by apply add_wf|apply Hwf].
    f_equal. apply stored_ext; [done|by apply add_wf|].
    intros w. unfold t. by rewrite add_times_stored, add_stored.
Qed.

Lemma C6_add_repeated_witness :
  (let S : gset Z := {[1; 3]} in
   let ss : list (gset Z) := [{[1; 3; 5]}; {[2]}] in
   let t0 := SetTrie_init (elements <$> ss) in
   let t := Nat.iter 3%nat (λ t, add t (elements S)) t0 in
   (1 ≤ 3)%nat ∧
   contains t (elements S) = true ∧
   length (filter (λ X, X = S) (aslist t)) = 1%nat ∧
   aslist t = aslist (add t0 (elements S)))%Z.
Proof.
  intros S ss. split; [lia|]. apply (C6_add_repeated ss S 3). lia.
Defined.

(** C7: [aslist()], which is [list(iter(t))], lists the stored sets in
    strict lexicographic order of their ascending element sequences; every
    listed set is built from such an ascending sequence, the path to its
    node. *)
Theorem C7_aslist_lexicographic (ss : list (gset Z)) :
  let t := SetTrie_init (elements <$> ss) in
  aslist t = iter t ∧
  StronglySorted lex_lt ((λ S, sorted (elements S)) <$> aslist t) ∧
  aslist t = list_to_set <$> stored t ∧
  Forall ascending (stored t) ∧
  (λ S, sorted (elements S)) <$> aslist t = stored t.
Proof.
  intros t. assert (wf_trie t) as Hwf by apply init_wf.
  assert ((λ S : gset Z, sorted (elements S)) <$> aslist t = stored t) as Heq.
  { rewrite aslist_stored by apply Hwf. rewrite <-list_fmap_compose.
    rewrite <-(list_fmap_id (stored t)) at 2. apply list_fmap_ext.
    intros _ w Hw%list_elem_of_lookup_2. simpl.
    apply sorted_elements_list_to_set. by eapply stored_ascending. }
  repeat split; [|by apply aslist_stored, Hwf| |done].
  - rewrite Heq. apply words_lex, Hwf.
  - apply Forall_forall. intros w Hw. by eapply stored_ascending.
Qed.

(** C8: for every map built from set-keyed pairs, after [assign(K, v1)] and
    then [assign(K, v2)], [get(K)] returns [v2] whatever the default; [K] is
    listed once by [keys()]; and the only pair with key [K] that [items()]
    lists is [(K, v2)]. *)
Theorem C8_assign_last_write_wins {V : Type} (kvs : list (gset Z * option V))
    (K : gset Z) (v1 v2 default : option V) :
  let m0 := SetTrieMap.SetTrieMap_init ((λ kv, (elements kv.1, kv.2)) <$> kvs) in
  let m := SetTrieMap.assign (SetTrieMap.assign m0 (elements K) v1)
             (elements K) v2 in
  SetTrieMap.get m (elements K) default = v2 ∧
  SetTrieMap.keys m = SetTrieMap.ItemKey <$> aslist (key_trie m) ∧
  length (filter (λ X, X = K) (aslist (key_trie m))) = 1%nat ∧
  (∀ v, SetTrieMap.ItemPair K v ∈ SetTrieMap.items m ↔ v = v2).
Proof.
  intros m0 m. set (m1 := SetTrieMap.assign m0 (elements K) v1).
  assert (wf_trie (key_trie m0)) as Hwf0.
  { unfold m0. rewrite key_trie_init. apply init_wf. }
  assert (wf_trie (key_trie m1)) as Hwf1.
  { unfold m1. rewrite key_trie_assign. by apply add_wf. }
  assert (wf_trie (key_trie m)) as Hwf.
  { unfold m. rewrite key_trie_assign. by apply add_wf. }
  split; [|split; [|split]].
  - unfold SetTrieMap.get, m. simpl. apply _get_assign, Hwf1.
  - by apply Map_keys_aslist.
  - apply filter_eq_once; [by apply aslist_NoDup|].
    apply elem_of_aslist; [done|]. unfold m. rewrite key_trie_assign.
    apply add_stored; auto.
  - intros v. rewrite Map_items_mwords by done. rewrite list_elem_of_fmap.
    unfold m at 1. simpl. split.
    + intros ([w v'] & [= HK ->] & Hin). simpl in *.
      apply _assign_mwords in Hin as [[_ ->]|[Hne Hin]]; [done| |apply Hwf1].
      exfalso. apply Hne. rewrite HK. symmetry.
      apply sorted_elements_list_to_set.
      apply (stored_ascending (key_trie m1)); [done|].
      unfold stored, key_trie. simpl. rewrite <-mwords_fst.
      apply list_elem_of_fmap. by exists (w, v').
    + intros ->. exists (sorted (elements K), v2). split.
      * simpl. by rewrite list_to_set_sorted_elements.
      * apply _assign_mwords; [apply Hwf1|]. by left.
Qed.

(** C9: every query leaves every object of the store as it was, with its
    [data], [flag_last], [value] and [children]; so the tree held at any
    reference, the root among them, is the same tree afterwards: no node
    is added to it, removed from it or changed.  The only new objects are
    the probe nodes that [_contains], [_get] and [_hassubset] build for
    [children.index]; none is linked into the trie.  This holds for
    every store, node, arguments and recursion depth. *)
Theorem C9_queries_read_only {V : Type} (σ : gmap positive (Heap.Obj V))
    (fuel : nat) (node : positive) (it setarr path : list Z) (idx : nat)
    (default : option V) :
  let unchanged (σ' : gmap positive (Heap.Obj V)) :=
    σ ⊆ σ' ∧
    ∀ l n, Heap.repr σ l n → Heap.repr σ' l n ∧ ∀ n', Heap.repr σ' l n' → n' = n in
  unchanged (Heap._contains node it σ).2 ∧
  unchanged (Heap._get node it default σ).2 ∧
  unchanged (Heap._hassuperset fuel node setarr idx σ).2 ∧
  unchanged (Heap._hassubset node setarr idx σ).2 ∧
  unchanged (Heap._itersupersets fuel node setarr idx path σ).2 ∧
  unchanged (Heap._itersubsets fuel node setarr idx path σ).2 ∧
  unchanged (Heap._iter fuel node path σ).2.
Proof.
  intros unchanged.
  assert (∀ σ', σ ⊆ σ' → unchanged σ') as Hu.
  { intros σ' Hsub. split; [done|]. intros l n Hr.
    assert (Heap.repr σ' l n) as Hr' by by eapply repr_mono.
    split; [done|]. intros n' Hn'. by eapply repr_inj. }
  split; [apply Hu, preserves_contains|].
  split; [apply Hu, preserves_get|].
  split; [apply Hu, preserves_hassuperset|].
  split; [apply Hu, preserves_hassubset_rec|].
  split; [apply Hu, preserves_itersupersets|].
  split; [apply Hu, preserves_itersubsets|].
  apply Hu, preserves_iter.
Qed.

(** C10: on every trie, whatever its nodes and flags, and on every map
    likewise, [hassuperset] of the empty query answers [True]. *)
Theorem C10_hassuperset_empty_query (t : SetTrie) (V : Type)
    (m : SetTrieMap.SetTrieMap V) :
  hassuperset t (elements (∅ : gset Z)) = true ∧
  SetTrieMap.hassuperset m (elements (∅ : gset Z)) = true.
Proof.
  rewrite elements_empty. split; [apply hassuperset_nil|apply Map_hassuperset_nil].
Qed.

(** * Further properties of the code *)

(** ** SetTrie *)

(** X1: membership round trip.  For every list [ss] of sets and every set
    [S], the trie built from [ss] contains [S] exactly when [S] is one of
    the sets of [ss]: [contains] finds every set that was added and no
    other set, neither a part of a stored set nor an extension of one. *)
Theorem X1_contains_iff_added (ss : list (gset Z)) (S : gset Z) :
  contains (SetTrie_init (elements <$> ss)) (elements S) = true ↔ S ∈ ss.
Proof. apply contains_init. Qed.

(** X2: [add] keeps the invariant of the trie.  If the root holds no key,
    the keys of the children of every node are strictly ascending and above
    the key of the node, and every node but the root ends a stored set or
    has a child, then the same holds after [add(S)], for every set [S].
    The trie made by [SetTrie()] has the invariant, so every trie built
    from sets has it. *)
Theorem X2_add_keeps_invariant (t : SetTrie) (S : gset Z) :
  wf_trie t → wf_trie (add t (elements S)).
Proof. apply add_wf. Qed.

Lemma X2_add_keeps_invariant_witness :
  wf_trie SetTrie_new ∧
  wf_trie (add SetTrie_new (elements ({[1; 3]} : gset Z)))%Z.
Proof.
  split; [apply wf_trie_new|].
  apply (X2_add_keeps_invariant SetTrie_new). apply wf_trie_new.
Defined.

(** X3: the trie is a canonical form of the collection of sets.  Two
    lists that hold the same sets, in any order and with any repetitions,
    build the same trie, node for node; so the answer of every later query
    is independent of the order in which the sets were added. *)
Theorem X3_init_order_independent (ss1 ss2 : list (gset Z)) :
  (∀ S, S ∈ ss1 ↔ S ∈ ss2) →
  SetTrie_init (elements <$> ss1) = SetTrie_init (elements <$> ss2).
Proof.
  intros Hiff. apply trie_ext; [apply init_wf..|].
  intros w. rewrite !init_stored. split; intros (S & HS & ->); exists S;
    (split; [by apply Hiff|done]).
Qed.

Lemma X3_init_order_independent_witness :
  let ss1 : list (gset Z) := [{[1; 3]}; {[2]}; {[1; 3]}]%Z in
  let ss2 : list (gset Z) := [{[2]}; {[1; 3]}]%Z in
  (∀ S, S ∈ ss1 ↔ S ∈ ss2) ∧
  SetTrie_init (elements <$> ss1) = SetTrie_init (elements <$> ss2).
Proof.
  intros ss1 ss2.
  assert (∀ S, S ∈ ss1 ↔ S ∈ ss2) as Hiff.
  { intros S. unfold ss1, ss2. rewrite !elem_of_cons, !elem_of_nil. tauto. }
  split; [exact Hiff|]. apply (X3_init_order_independent ss1 ss2 Hiff).
Defined.

(** X4: round trip through [aslist].  Building a new trie from the list
    that [aslist()] returns for a trie built from sets gives the same
    trie. *)
Theorem X4_init_aslist_round_trip (ss : list (gset Z)) :
  let t := SetTrie_init (elements <$> ss) in
  SetTrie_init (elements <$> aslist t) = t.
Proof.
  intros t. apply trie_ext; [apply init_wf..|].
  intros w. unfold t. rewrite !init_stored. split.
  - intros (S & HS & ->). apply (proj1 (init_aslist ss S)) in HS. eauto.
  - intros (S & HS & ->). exists S. split; [by apply init_aslist|done].
Qed.

(** X5: what [hassuperset] answers, and how it goes with [supersets].  On
    a trie built from sets, [hassuperset(Q)] is [True] exactly when [Q] is
    empty or a stored set includes [Q]; equally, exactly when [Q] is empty
    or [supersets(Q)] is not the empty list.  For a query that is not empty
    the two methods agree. *)
Theorem X5_hassuperset_supersets (ss : list (gset Z)) (Q : gset Z) :
  let t := SetTrie_init (elements <$> ss) in
  (hassuperset t (elements Q) = true ↔ Q = ∅ ∨ ∃ S, S ∈ ss ∧ Q ⊆ S) ∧
  (hassuperset t (elements Q) = true ↔ Q = ∅ ∨ supersets t (elements Q) ≠ []).
Proof.
  intros t. split; [apply hassuperset_init|].
  unfold t. rewrite hassuperset_init, not_nil_elem_of.
  by setoid_rewrite supersets_init.
Qed.

(** X6: what [subsets] returns is right.  On a trie built from sets, the
    list [subsets(Q)] is a sub-list of the stored subsets of [Q] in the
    order of [aslist()]: every set in it was added and is a subset of [Q],
    no set is in it twice, and when it is not empty [hassubset(Q)] is
    [True]. *)
Theorem X6_subsets_sound (ss : list (gset Z)) (Q : gset Z) :
  let t := SetTrie_init (elements <$> ss) in
  subsets t (elements Q) `sublist_of` filter (λ S, S ⊆ Q) (aslist t) ∧
  (∀ S, S ∈ subsets t (elements Q) → S ∈ ss ∧ S ⊆ Q) ∧
  NoDup (subsets t (elements Q)) ∧
  (subsets t (elements Q) ≠ [] → hassubset t (elements Q) = true).
Proof.
  intros t.
  assert (subsets t (elements Q) `sublist_of` filter (λ S, S ⊆ Q) (aslist t))
    as Hsub by apply itersubsets_sound.
  assert (∀ S, S ∈ subsets t (elements Q) → S ∈ ss ∧ S ⊆ Q) as Hin.
  { intros S HS. apply (elem_of_sublist _ _ _ HS) in Hsub as HS'.
    apply list_elem_of_filter in HS' as [? HS'].
    split; [by apply (proj1 (init_aslist ss S))|done]. }
  split; [done|]. split; [done|]. split.
  - eapply sublist_NoDup; [|exact Hsub]. apply NoDup_filter, aslist_NoDup, init_wf.
  - intros [S HS]%not_nil_elem_of. apply hassubset_init. exists S. by apply Hin.
Qed.

(** X7: an iterable without repeated elements is taken as the set of its
    elements.  Every method sorts its argument first, so for a list [l] of
    distinct integers in any order, [add], [contains], [hassuperset],
    [supersets], [hassubset] and [subsets] do on every trie what they do
    for the set of the elements of [l]. *)
Theorem X7_iterable_without_repeats (t : SetTrie) (l : list Z) :
  NoDup l →
  let S : gset Z := list_to_set l in
  add t l = add t (elements S) ∧
  contains t l = contains t (elements S) ∧
  hassuperset t l = hassuperset t (elements S) ∧
  supersets t l = supersets t (elements S) ∧
  hassubset t l = hassubset t (elements S) ∧
  subsets t l = subsets t (elements S).
Proof.
  intros Hnd S.
  unfold add, contains, hassuperset, supersets, itersupersets, hassubset,
    subsets, itersubsets.
  unfold S. by rewrite sorted_list_to_set.
Qed.

Lemma X7_iterable_without_repeats_witness :
  (let l := [5; 1; 3] in
   let S : gset Z := list_to_set l in
   NoDup l ∧
   add fixture l = add fixture (elements S) ∧
   contains fixture l = contains fixture (elements S) ∧
   hassuperset fixture l = hassuperset fixture (elements S) ∧
   supersets fixture l = supersets fixture (elements S) ∧
   hassubset fixture l = hassubset fixture (elements S) ∧
   subsets fixture l = subsets fixture (elements S))%Z.
Proof.
  intros l S.
  assert (NoDup l) as Hnd by (apply (bool_decide_unpack (NoDup l)); vm_compute; exact I).
  split; [exact Hnd|]. apply (X7_iterable_without_repeats fixture l Hnd).
Defined.

(** X8: the trie in which nothing was stored.  For every iterable [l],
    on [SetTrie()]: [aslist()] is empty, [contains(l)] and [hassubset(l)]
    are [False], [supersets(l)] and [subsets(l)] are empty, and
    [hassuperset(l)] is [True] exactly when [l] is empty. *)
Theorem X8_empty_trie (l : list Z) :
  aslist SetTrie_new = [] ∧
  contains SetTrie_new l = false ∧
  supersets SetTrie_new l = [] ∧
  hassubset SetTrie_new l = false ∧
  subsets SetTrie_new l = [] ∧
  (hassuperset SetTrie_new l = true ↔ l = []).
Proof.
  unfold contains, supersets, itersupersets, hassubset, _hassubset, subsets,
    itersubsets, hassuperset.
  rewrite <-(sorted_nil l). generalize (sorted l). intros s.
  split; [done|]. split; [by destruct s|]. split.
  { simpl. by destruct (exhausted s 0). }
  split; [apply _hassubset_rec_leaf|].
  split; [done|]. simpl.
  destruct (exhausted_spec s 0) as [[-> Hs]|[-> Hs]]; rewrite drop_0_eq in Hs.
  - done.
  - split; [done|]. intros ->. done.
Qed.

(** X9: where [subsets] finds every subset.  When the query [Q] includes
    every set of the trie, [subsets(Q)] returns all of them: it is the list
    [aslist()].  (A stored set that is not included in [Q] can make
    [subsets] pass over stored subsets of [Q]; see C2.) *)
Theorem X9_subsets_of_including_query (ss : list (gset Z)) (Q : gset Z) :
  (∀ S, S ∈ ss → S ⊆ Q) →
  let t := SetTrie_init (elements <$> ss) in
  subsets t (elements Q) = aslist t.
Proof.
  intros Hall t. destruct (init_wf ss) as [Hd Hwf]. fold t in Hd, Hwf.
  unfold subsets, itersubsets, aslist, iter.
  apply _itersubsets_complete; [done|apply sorted_elements_ascending|].
  intros w Hw. rewrite drop_0_eq.
  apply (init_stored ss) in Hw as (S & HS & ->).
  apply sorted_elements_subseteq. by apply Hall.
Qed.

Lemma X9_subsets_of_including_query_witness :
  (let ss : list (gset Z) := [{[1; 3]}; {[2]}] in
   let Q : gset Z := {[1; 2; 3]} in
   let t := SetTrie_init (elements <$> ss) in
   (∀ S, S ∈ ss → S ⊆ Q) ∧ subsets t (elements Q) = aslist t)%Z.
Proof.
  intros ss Q.
  assert (∀ S, S ∈ ss → S ⊆ Q) as Hall.
  { intros S HS x Hx. unfold ss in HS. unfold Q.
    rewrite !elem_of_cons, elem_of_nil in HS.
    rewrite !elem_of_union, !elem_of_singleton.
    destruct HS as [->|[->|[]]].
    - apply elem_of_union in Hx as [Hx|Hx]; apply elem_of_singleton in Hx; auto.
    - apply elem_of_singleton in Hx. auto. }
  split; [exact Hall|]. apply (X9_subsets_of_including_query ss Q Hall).
Defined.

(** ** SetTrieMap *)

(** X10: the keys of a [SetTrieMap] behave as a [SetTrie].  The class
    repeats the code of [SetTrie]; on every map, the trie of its keys (the
    nodes without their values) answers as the map does: [assign] adds
    the key as [add] does, and [contains], [hassuperset], [hassubset],
    [keys()], [supersets(mode='keys')] and [subsets(mode='keys')] return
    what the [SetTrie] methods return on the trie of the keys. *)
Theorem X10_keys_as_SetTrie {V} (m : SetTrieMap.SetTrieMap V)
    (l akey : list Z) (val : option V) :
  key_trie (SetTrieMap.SetTrieMap_new (V:=V)) = SetTrie_new ∧
  key_trie (SetTrieMap.assign m akey val) = add (key_trie m) akey ∧
  SetTrieMap.contains m l = contains (key_trie m) l ∧
  SetTrieMap.hassuperset m l = hassuperset (key_trie m) l ∧
  SetTrieMap.hassubset m l = hassubset (key_trie m) l ∧
  SetTrieMap.keys m = SetTrieMap.ItemKey <$> aslist (key_trie m) ∧
  SetTrieMap.supersets m l (Some "keys")
  = SetTrieMap.ItemKey <$> supersets (key_trie m) l ∧
  SetTrieMap.subsets m l (Some "keys")
  = SetTrieMap.ItemKey <$> subsets (key_trie m) l.
Proof.
  split; [done|]. split; [apply key_trie_assign|].
  split; [apply Map_contains_erase|].
  split; [apply Map_hassuperset_erase|].
  split; [apply Map_hassubset_erase|].
  split; [apply Map_keys_erase|].
  split; [apply Map_itersupersets_keys|apply Map_itersubsets_keys].
Qed.

(** X11: the yes/no queries of a map built from pairs with set keys.
    [contains(Q)] is [True] exactly when [Q] is the key of a pair;
    [hassuperset(Q)] exactly when [Q] is empty or a key includes [Q];
    [hassubset(Q)] exactly when a key is included in [Q]. *)
Theorem X11_map_key_queries {V} (kvs : list (gset Z * option V)) (Q : gset Z) :
  let m := SetTrieMap.SetTrieMap_init ((λ kv, (elements kv.1, kv.2)) <$> kvs) in
  (SetTrieMap.contains m (elements Q) = true ↔ Q ∈ kvs.*1) ∧
  (SetTrieMap.hassuperset m (elements Q) = true ↔
   Q = ∅ ∨ ∃ K, K ∈ kvs.*1 ∧ Q ⊆ K) ∧
  (SetTrieMap.hassubset m (elements Q) = true ↔ ∃ K, K ∈ kvs.*1 ∧ K ⊆ Q).
Proof.
  intros m.
  assert (SetTrieMap.contains m (elements Q) = contains (key_trie m) (elements Q))
    as -> by apply Map_contains_erase.
  assert (SetTrieMap.hassuperset m (elements Q)
          = hassuperset (key_trie m) (elements Q))
    as -> by apply Map_hassuperset_erase.
  assert (SetTrieMap.hassubset m (elements Q) = hassubset (key_trie m) (elements Q))
    as -> by apply Map_hassubset_erase.
  unfold m. rewrite key_trie_init.
  split; [apply contains_init|]. split; [apply hassuperset_init|apply hassubset_init].
Qed.

(** X12: [get] is the lookup of a dictionary.  On the map built from the
    pairs [kvs], [get(K, default)] returns the value of the last pair of
    [kvs] whose key is the set [K], and [default] when no pair has the key
    [K]; in particular [get] on [SetTrieMap()] returns [default]. *)
Theorem X12_get_last_assigned {V} (kvs : list (gset Z * option V)) (K : gset Z)
    (dflt : option V) :
  SetTrieMap.get
    (SetTrieMap.SetTrieMap_init ((λ kv, (elements kv.1, kv.2)) <$> kvs))
    (elements K) dflt
  = default dflt ((list_to_map (reverse kvs) : gmap (gset Z) (option V)) !! K).
Proof.
  induction kvs as [|[K' val] kvs IH] using rev_ind.
  { unfold SetTrieMap.get. simpl. by destruct (sorted (elements K)). }
  rewrite Map_init_snoc, get_assign by apply Map_init_wf.
  rewrite reverse_app. simpl. fold (reverse kvs).
  destruct (decide (K = K')) as [->|Hne].
  - by rewrite lookup_insert_eq.
  - by rewrite lookup_insert_ne.
Qed.

(** X13: [assign] leaves the other keys alone.  On a map built from pairs,
    after [assign(K', val)] the answer of [get(K, default)] for every key
    [K] other than [K'] is what it was before. *)
Theorem X13_assign_other_keys {V} (kvs : list (gset Z * option V))
    (K K' : gset Z) (val dflt : option V) :
  K ≠ K' →
  let m := SetTrieMap.SetTrieMap_init ((λ kv, (elements kv.1, kv.2)) <$> kvs) in
  SetTrieMap.get (SetTrieMap.assign m (elements K') val) (elements K) dflt
  = SetTrieMap.get m (elements K) dflt.
Proof.
  intros Hne m. unfold m. rewrite get_assign by apply Map_init_wf.
  by rewrite decide_False.
Qed.

Lemma X13_assign_other_keys_witness :
  (let kvs : list (gset Z * option nat) := [({[1; 3]}, Some 7%nat)] in
   let K : gset Z := {[1; 3]} in
   let K' : gset Z := {[2]} in
   let m := SetTrieMap.SetTrieMap_init ((λ kv, (elements kv.1, kv.2)) <$> kvs) in
   K ≠ K' ∧
   SetTrieMap.get (SetTrieMap.assign m (elements K') (Some 9%nat)) (elements K) None
   = SetTrieMap.get m (elements K) None)%Z.
Proof.
  intros kvs K K'.
  assert (K ≠ K') as Hne.
  { intros Heq. assert (2 ∈ K)%Z as H2 by (rewrite Heq; by apply elem_of_singleton).
    unfold K in H2. apply elem_of_union in H2 as [H2|H2];
      apply elem_of_singleton in H2; lia. }
  split; [exact Hne|].
  apply (X13_assign_other_keys kvs K K' (Some 9%nat) None Hne).
Defined.

(** X14: [items()] and [get] agree.  On a map built from pairs, the pair
    [(K, v)] is listed by [items()] exactly when [K] is the key of a pair
    that was assigned and [get(K)] returns [v], whatever the default. *)
Theorem X14_items_get {V} (kvs : list (gset Z * option V)) (K : gset Z)
    (v dflt : option V) :
  let m := SetTrieMap.SetTrieMap_init ((λ kv, (elements kv.1, kv.2)) <$> kvs) in
  SetTrieMap.ItemPair K v ∈ SetTrieMap.items m ↔
  K ∈ kvs.*1 ∧ SetTrieMap.get m (elements K) dflt = v.
Proof.
  intros m. pose proof (Map_init_wf kvs) as Hwf. fold m in Hwf.
  pose proof (Map_root_wf kvs) as Hwfr. fold m in Hwfr.
  rewrite Map_items_mwords by done. rewrite list_elem_of_fmap.
  destruct (_get_mwords (sorted (elements K)) (SetTrieMap.root m) dflt Hwfr)
    as [G1 G2].
  assert (∀ w v', (w, v') ∈ mwords (SetTrieMap.root m) →
                  w ∈ stored (key_trie m)) as Hst.
  { intros w v' Hin. unfold stored, key_trie. simpl. rewrite <-mwords_fst.
    apply list_elem_of_fmap. by exists (w, v'). }
  split.
  - intros ([w v'] & [= -> ->] & Hin). simpl in *.
    pose proof (Hst _ _ Hin) as Hw.
    assert (sorted (elements (list_to_set w : gset Z)) = w) as Hsw.
    { apply sorted_elements_list_to_set. by apply (stored_ascending (key_trie m)). }
    split.
    + unfold m in Hw. rewrite key_trie_init in Hw.
      apply init_stored in Hw as (S & HS & ->).
      by rewrite list_to_set_sorted_elements.
    + unfold SetTrieMap.get. apply G1. by rewrite Hsw.
  - intros [HK Hget].
    assert (sorted (elements K) ∈ stored (key_trie m)) as Hw.
    { unfold m. rewrite key_trie_init. apply init_stored. eauto. }
    unfold stored, key_trie in Hw. simpl in Hw. rewrite <-mwords_fst in Hw.
    apply list_elem_of_fmap in Hw as ([w v'] & Hw & Hin). simpl in Hw. subst w.
    exists (sorted (elements K), v'). split; [|done]. simpl.
    rewrite list_to_set_sorted_elements. f_equal.
    rewrite <-Hget. unfold SetTrieMap.get. by rewrite (G1 v' Hin).
Qed.

(** X15: [SetTrieMap.supersets] against brute force.  On a map built from
    pairs, [supersets(Q)] is the list of the pairs of [items()] whose key
    includes [Q], in the order of [items()]. *)
Theorem X15_map_supersets_brute_force {V} (kvs : list (gset Z * option V))
    (Q : gset Z) :
  let m := SetTrieMap.SetTrieMap_init ((λ kv, (elements kv.1, kv.2)) <$> kvs) in
  SetTrieMap.supersets m (elements Q) None
  = filter (λ x, Q ⊆ key_of x) (SetTrieMap.items m).
Proof.
  intros m. rewrite Map_items_mwords by apply Map_init_wf.
  unfold SetTrieMap.supersets, SetTrieMap.itersupersets.
  rewrite Map_itersupersets_mwords;
    [|apply Map_root_wf|apply sorted_elements_ascending
     |unfold m; rewrite Map_root_data; apply above_None].
  unfold m. rewrite Map_root_data, drop_0_eq. simpl. symmetry.
  apply filter_fmap_in. intros [w v] _. simpl. symmetry.
  apply subseteq_sorted_elements.
Qed.

(** X16: the modes select a part of each pair.  On every map and for
    every [mode], what [iter], [supersets] and [subsets] yield is what they
    yield with [mode=None], pair by pair and in the same order, with each
    pair replaced by its key for ['keys'], by its value for ['values'], and
    left as it is otherwise; so the three lists have the same length and
    [keys()] and [values()] go by the order of [items()]. *)
Theorem X16_modes_project {V} (m : SetTrieMap.SetTrieMap V) (l : list Z)
    (mode : option string) :
  SetTrieMap.iter m mode = item_project mode <$> SetTrieMap.items m ∧
  SetTrieMap.supersets m l mode
  = item_project mode <$> SetTrieMap.supersets m l None ∧
  SetTrieMap.subsets m l mode
  = item_project mode <$> SetTrieMap.subsets m l None.
Proof.
  split; [apply Map_iter_project|].
  split; [apply Map_itersupersets_project|apply Map_itersubsets_project].
Qed.

(** X17: a mode that is neither ['keys'] nor ['values'] is taken as
    [None]: no error is raised, and [iter], [supersets] and [subsets]
    yield the pairs. *)
Theorem X17_unknown_mode {V} (m : SetTrieMap.SetTrieMap V) (l : list Z)
    (mode : option string) :
  mode ≠ Some "keys" → mode ≠ Some "values" →
  SetTrieMap.iter m mode = SetTrieMap.items m ∧
  SetTrieMap.supersets m l mode = SetTrieMap.supersets m l None ∧
  SetTrieMap.subsets m l mode = SetTrieMap.subsets m l None.
Proof.
  intros H1 H2.
  assert (∀ xs : list (SetTrieMap.Item V), item_project mode <$> xs = xs) as Hid.
  { intros xs. rewrite <-(list_fmap_id xs) at 2. apply list_fmap_ext.
    intros _ x _. by apply item_project_id. }
  unfold SetTrieMap.iter, SetTrieMap.items, SetTrieMap.iter, SetTrieMap.supersets,
    SetTrieMap.itersupersets, SetTrieMap.subsets, SetTrieMap.itersubsets.
  rewrite (Map_iter_project _ _ mode), (Map_itersupersets_project _ _ _ _ mode),
    (Map_itersubsets_project _ _ _ _ mode), !Hid. done.
Qed.

Lemma X17_unknown_mode_witness :
  (let m : SetTrieMap.SetTrieMap nat :=
     SetTrieMap.SetTrieMap_init [([1; 3], Some 7%nat); ([2], None)] in
   let mode := Some "pairs" in
   mode ≠ Some "keys" ∧ mode ≠ Some "values" ∧
   SetTrieMap.iter m mode = SetTrieMap.items m ∧
   SetTrieMap.supersets m [3] mode = SetTrieMap.supersets m [3] None ∧
   SetTrieMap.subsets m [3] mode = SetTrieMap.subsets m [3] None)%Z.
Proof.
  intros m mode.
  assert (mode ≠ Some "keys") as H1 by discriminate.
  assert (mode ≠ Some "values") as H2 by discriminate.
  split; [exact H1|]. split; [exact H2|].
  apply (X17_unknown_mode m [3%Z] mode H1 H2).
Defined.

(** X18: what [SetTrieMap.subsets] returns is right.  On a map built from
    pairs, [subsets(Q)] is a sub-list of the pairs of [items()] whose key
    is included in [Q]: every pair in it is a pair of the map with such a
    key, and the pairs come in the order of [items()]. *)
Theorem X18_map_subsets_sound {V} (kvs : list (gset Z * option V)) (Q : gset Z) :
  let m := SetTrieMap.SetTrieMap_init ((λ kv, (elements kv.1, kv.2)) <$> kvs) in
  SetTrieMap.subsets m (elements Q) None
  `sublist_of` filter (λ x, key_of x ⊆ Q) (SetTrieMap.items m).
Proof.
  intros m. rewrite Map_items_mwords by apply Map_init_wf.
  unfold SetTrieMap.subsets, SetTrieMap.itersubsets.
  etrans; [apply Map_itersubsets_sound|].
  unfold m. rewrite Map_root_data, drop_0_eq. simpl.
  rewrite (filter_fmap_in _ (λ x, key_of x ⊆ Q)
             (λ wv, wv.1 ⊆ sorted (elements Q))); [done|].
  intros [w v] _. simpl. split.
  - intros Hsub x Hx. rewrite sorted_Permutation, elem_of_elements.
    by apply Hsub, elem_of_list_to_set.
  - intros Hsub x Hx%elem_of_list_to_set.
    apply Hsub in Hx. by rewrite sorted_Permutation, elem_of_elements in Hx.
Qed.

(** ** [printtree] *)

(** X19: [printtree] marks the stored sets.  For every trie, every fill
    character and every tab size, the number of printed lines that end
    with [#] is the number of sets that [aslist()] lists; for a trie built
    from the list [ss] it is the number of distinct sets of [ss], and the
    first line is [None#] when the empty set is one of them and [None]
    otherwise. *)
Theorem X19_printtree_marks (t : SetTrie) (ss : list (gset Z))
    (tabchr : ascii) (tabsize : Z) :
  length (filter (λ line, marked line = true) (printtree t tabchr tabsize))
  = length (aslist t) ∧
  length (filter (λ line, marked line = true)
            (printtree (SetTrie_init (elements <$> ss)) tabchr tabsize))
  = length (remove_dups ss) ∧
  head (printtree (SetTrie_init (elements <$> ss)) tabchr tabsize)
  = Some (if bool_decide (∅ ∈ ss) then "None#" else "None").
Proof.
  assert (∀ t', length (filter (λ line, marked line = true)
                          (printtree t' tabchr tabsize))
                = length (aslist t')) as Hcount.
  { intros t'. apply _printtree_marked. }
  split; [apply Hcount|]. split; [by rewrite Hcount, aslist_length|].
  pose proof (root_flag_last ss) as Hfl. destruct (init_wf ss) as [Hd _].
  unfold printtree. destruct (root _) as [d fl cs]. simpl in Hd, Hfl. subst d.
  cbn [_printtree head]. f_equal. case_bool_decide as Hin.
  - by rewrite (proj2 Hfl Hin).
  - destruct fl; [by destruct Hin; apply Hfl|done].
Qed.

(** ** The trie as Python objects *)

(** X20: [_add] updates the trie in place as the tree operation says.
    In a store where the object at [l] and the objects below it hold a
    tree [n] with sorted children and no object of the tree is referred to
    twice, [_add(l, it)] returns without an exception; afterwards the
    objects at and below [l] hold a tree whose keys and flags are those of
    [_add] applied to the tree [n], again without sharing; the objects of
    the store outside the tree are as they were; and the references added
    to the tree are those of new objects. *)
Theorem X20_add_in_place {V : Type} (σ : gmap positive (Heap.Obj V))
    (l : positive) (n : SetTrieMap.Node V) (X : list positive) (it : list Z) :
  Heap.tree σ l n X → NoDup X → wf (erase n) →
  ∃ σ' n' X',
    Heap._add l it σ = (Some tt, σ') ∧
    Heap.tree σ' l n' X' ∧ NoDup X' ∧
    erase n' = _add (erase n) it ∧
    (∀ l' o, l' ∉ X → σ !! l' = Some o → σ' !! l' = Some o) ∧
    (∀ l', l' ∈ X' → l' ∈ X ∨ σ !! l' = None).
Proof.
  intros Ht Hnd Hwf.
  destruct (_add_refines it l n X σ Ht Hnd Hwf)
    as (σ' & n' & X' & H1 & H2 & H3 & H4 & H5 & H6 & _).
  exists σ', n', X'. auto 10.
Qed.

Lemma X20_add_in_place_witness :
  let σ : gmap positive (Heap.Obj unit) :=
    {[1%positive := Heap.mkObj None false None []]} in
  let n : SetTrieMap.Node unit := SetTrieMap.Node_new None in
  Heap.tree σ 1%positive n [1%positive] ∧ NoDup [1%positive] ∧ wf (erase n) ∧
  ∃ σ' n' X',
    Heap._add 1%positive [1; 3]%Z σ = (Some tt, σ') ∧
    Heap.tree σ' 1%positive n' X' ∧ NoDup X' ∧
    erase n' = _add (erase n) [1; 3]%Z ∧
    (∀ l' o, l' ∉ [1%positive] → σ !! l' = Some o → σ' !! l' = Some o) ∧
    (∀ l', l' ∈ X' → l' ∈ [1%positive] ∨ σ !! l' = None).
Proof.
  intros σ n.
  assert (Heap.tree σ 1%positive n [1%positive]) as Ht.
  { exists [], []. done. }
  assert (NoDup [1%positive]) as Hnd by apply NoDup_singleton.
  assert (wf (erase n)) as Hwf by apply wf_Node_new.
  split; [exact Ht|]. split; [exact Hnd|]. split; [exact Hwf|].
  apply (X20_add_in_place σ 1%positive n [1%positive] [1; 3]%Z Ht Hnd Hwf).
Defined.

(** X21: the trie that [SetTrie(ss)] builds in place.  In every store,
    [SetTrie(ss)] returns without an exception; its root is a new object,
    no object that was in the store is changed, and the objects at and
    below the root hold the tree that the tree operations build from [ss].
    So [contains] and iteration on the objects return what they return on
    that tree. *)
Theorem X21_init_in_place {V : Type} (ss : list (gset Z))
    (σ : gmap positive (Heap.Obj V)) (K : gset Z) :
  ∃ r σ' n,
    Heap.SetTrie_init (elements <$> ss) σ = (Some r, σ') ∧
    σ !! r = None ∧ σ ⊆ σ' ∧
    Heap.repr σ' r n ∧
    erase n = root (SetTrie_init (elements <$> ss)) ∧
    (∃ σ'', Heap._contains r (sorted (elements K)) σ'
            = (Some (contains (SetTrie_init (elements <$> ss)) (elements K)), σ'')) ∧
    Heap._iter (S (Heap.height n)) r [] σ'
    = (Some (aslist (SetTrie_init (elements <$> ss))), σ').
Proof.
  destruct (heap_init_refines ss σ) as (r & σ' & n & X & Hinit & Hr & Hsub & Ht & _ & He).
  pose proof (tree_repr _ _ _ _ Ht) as Hrepr.
  exists r, σ', n. repeat (split; [done|]). split.
  - unfold contains. rewrite <-He. by apply _contains_agree.
  - unfold aslist, iter. rewrite <-He. apply _iter_agree; [done|lia].
Qed.

(** ** Empty query, and the depth of the recursion *)

(** X22: the empty query.  On a trie built from sets, [supersets] of the
    empty set is the list [aslist()] of all stored sets; [subsets] of the
    empty set is the list with the empty set alone when the empty set was
    added, and the empty list otherwise; [hassubset] and [contains] of the
    empty set are [True] exactly when the empty set was added. *)
Theorem X22_empty_query (ss : list (gset Z)) :
  let t := SetTrie_init (elements <$> ss) in
  supersets t (elements (∅ : gset Z)) = aslist t ∧
  subsets t (elements (∅ : gset Z)) = (if bool_decide (∅ ∈ ss) then [∅] else []) ∧
  (hassubset t (elements (∅ : gset Z)) = true ↔ ∅ ∈ ss) ∧
  (contains t (elements (∅ : gset Z)) = true ↔ ∅ ∈ ss).
Proof.
  intros t. split; [|split; [|split]].
  - unfold supersets. rewrite itersupersets_filter by apply init_wf.
    apply filter_all. intros S _ x Hx. by apply elem_of_empty in Hx.
  - pose proof (root_flag_last ss) as Hfl. fold t in Hfl.
    destruct (init_wf ss) as [Hd _]. fold t in Hd.
    rewrite elements_empty. unfold subsets, itersubsets.
    change (sorted []) with (@nil Z).
    destruct (root t) as [d fl cs]. simpl in Hfl, Hd. subst d. simpl.
    assert (∀ A (x y : list A), (if fl then x else y)
                                = if bool_decide (∅ ∈ ss) then x else y) as Hif.
    { intros A x y. case_bool_decide as Hin.
      - by rewrite (proj2 Hfl Hin).
      - destruct fl; [by destruct Hin; apply Hfl|done]. }
    rewrite Hif. destruct cs as [|c cs]; [by rewrite app_nil_r|].
    destruct (exhausted_spec [] 0) as [[-> _]|[_ Hq]]; [by rewrite app_nil_r|done].
  - unfold t. rewrite hassubset_init. split.
    + intros (S & HS & Hsub). assert (S = ∅) as ->; [|done].
      apply set_eq. intros x. split; [apply Hsub|by intros ?%elem_of_empty].
    + intros HS. by exists ∅.
  - apply contains_init.
Qed.

(** X23: the depth of the recursion.  When every set of [ss] has at most
    [M] elements, the traversals of the trie that [SetTrie(ss)] builds in
    place return with a recursion depth of [M + 2] at most: with that much
    depth allowed, iteration, [hassuperset], [supersets] and [subsets] on
    the objects return, and return what the tree operations return. *)
Theorem X23_recursion_depth {V : Type} (ss : list (gset Z))
    (σ : gmap positive (Heap.Obj V)) (M fuel : nat) (Q : gset Z) :
  (∀ S, S ∈ ss → (size S ≤ M)%nat) → (M + 2 ≤ fuel)%nat →
  let t := SetTrie_init (elements <$> ss) in
  ∃ r σ',
    Heap.SetTrie_init (elements <$> ss) σ = (Some r, σ') ∧
    Heap._iter fuel r [] σ' = (Some (aslist t), σ') ∧
    Heap._hassuperset fuel r (sorted (elements Q)) 0 σ'
    = (Some (hassuperset t (elements Q)), σ') ∧
    Heap._itersupersets fuel r (sorted (elements Q)) 0 [] σ'
    = (Some (supersets t (elements Q)), σ') ∧
    Heap._itersubsets fuel r (sorted (elements Q)) 0 [] σ'
    = (Some (subsets t (elements Q)), σ').
Proof.
  intros Hall Hfuel t.
  destruct (heap_init_refines ss σ) as (r & σ' & n & X & Hinit & _ & _ & Ht & _ & He).
  pose proof (tree_repr _ _ _ _ Ht) as Hrepr.
  assert (Heap.height n < fuel)%nat as Hh.
  { rewrite height_erase, He. pose proof (init_depth ss M Hall). lia. }
  exists r, σ'. split; [done|].
  unfold aslist, iter, hassuperset, supersets, itersupersets, subsets, itersubsets, t.
  rewrite <-He. split; [by apply _iter_agree|]. split; [by apply _hassuperset_agree|].
  split; [by apply _itersupersets_agree|by apply _itersubsets_agree].
Qed.

Lemma X23_recursion_depth_witness :
  (let ss : list (gset Z) := [{[1; 3]}; {[2]}] in
   let σ : gmap positive (Heap.Obj unit) := ∅ in
   let Q : gset Z := {[3]} in
   let t := SetTrie_init (elements <$> ss) in
   (∀ S, S ∈ ss → (size S ≤ 2)%nat) ∧ (2 + 2 ≤ 4)%nat ∧
   ∃ r σ',
     Heap.SetTrie_init (elements <$> ss) σ = (Some r, σ') ∧
     Heap._iter 4 r [] σ' = (Some (aslist t), σ') ∧
     Heap._hassuperset 4 r (sorted (elements Q)) 0 σ'
     = (Some (hassuperset t (elements Q)), σ') ∧
     Heap._itersupersets 4 r (sorted (elements Q)) 0 [] σ'
     = (Some (supersets t (elements Q)), σ') ∧
     Heap._itersubsets 4 r (sorted (elements Q)) 0 [] σ'
     = (Some (subsets t (elements Q)), σ'))%Z.
Proof.
  intros ss σ Q.
  assert (∀ S, S ∈ ss → (size S ≤ 2)%nat) as Hall.
  { intros S HS. unfold ss in HS. rewrite !elem_of_cons, elem_of_nil in HS.
    destruct HS as [->|[->|[]]]; vm_compute; lia. }
  assert (2 + 2 ≤ 4)%nat as Hfuel by lia.
  split; [exact Hall|]. split; [exact Hfuel|].
  apply (X23_recursion_depth ss σ 2 4 Q Hall Hfuel).
Defined.

(** ** [SetTrieMap.subsets] with a query that includes every key *)

(** X24: where [SetTrieMap.subsets] finds every item.  On a map built from
    pairs, when the query [Q] includes every key of the map, [subsets(Q)]
    returns in every mode what [iter] returns in that mode: all the items
    of the map, in the order of [items()], [keys()] or [values()]. *)
Theorem X24_map_subsets_of_including_query {V : Type}
    (kvs : list (gset Z * option V)) (Q : gset Z) (mode : option string) :
  (∀ K, K ∈ kvs.*1 → K ⊆ Q) →
  let m := SetTrieMap.SetTrieMap_init ((λ kv, (elements kv.1, kv.2)) <$> kvs) in
  SetTrieMap.subsets m (elements Q) mode = SetTrieMap.iter m mode.
Proof.
  intros Hall m.
  assert (SetTrieMap.subsets m (elements Q) (Some "keys") = SetTrieMap.keys m) as Hkeys.
  { unfold SetTrieMap.subsets, SetTrieMap.itersubsets.
    rewrite Map_itersubsets_keys, Map_keys_erase.
    f_equal. pose proof (subsets_complete (kvs.*1) Q Hall) as Hc.
    rewrite <-(key_trie_init kvs) in Hc. exact Hc. }
  assert (SetTrieMap.subsets m (elements Q) None = SetTrieMap.items m) as Hpairs.
  { apply sublist_length_eq.
    - apply Map_subsets_sublist_items. apply Map_root_data.
    - apply (f_equal length) in Hkeys.
      unfold SetTrieMap.subsets, SetTrieMap.itersubsets, SetTrieMap.keys,
        SetTrieMap.items, SetTrieMap.iter in *.
      rewrite (Map_itersubsets_project _ _ _ _ (Some "keys")) in Hkeys.
      rewrite (Map_iter_project _ _ (Some "keys")) in Hkeys.
      by rewrite !length_fmap in Hkeys. }
  unfold SetTrieMap.subsets, SetTrieMap.itersubsets, SetTrieMap.iter in *.
  rewrite (Map_itersubsets_project _ _ _ _ mode), (Map_iter_project _ _ mode).
  f_equal. exact Hpairs.
Qed.

Lemma X24_map_subsets_of_including_query_witness :
  (let kvs : list (gset Z * option nat) := [({[1; 3]}, Some 7%nat); ({[2]}, None)] in
   let Q : gset Z := {[1; 2; 3]} in
   let m := SetTrieMap.SetTrieMap_init ((λ kv, (elements kv.1, kv.2)) <$> kvs) in
   (∀ K, K ∈ kvs.*1 → K ⊆ Q) ∧
   SetTrieMap.subsets m (elements Q) (Some "values") = SetTrieMap.iter m (Some "values"))%Z.
Proof.
  intros kvs Q.
  assert (∀ K, K ∈ kvs.*1 → K ⊆ Q) as Hall.
  { intros K HK x Hx. unfold kvs in HK. unfold Q. simpl in HK.
    rewrite !elem_of_cons, elem_of_nil in HK.
    rewrite !elem_of_union, !elem_of_singleton.
    destruct HK as [->|[->|[]]].
    - apply elem_of_union in Hx as [Hx|Hx]; apply elem_of_singleton in Hx; auto.
    - apply elem_of_singleton in Hx. auto. }
  split; [exact Hall|].
  apply (X24_map_subsets_of_including_query kvs Q (Some "values") Hall).
Defined.
